(** * CRAAM: s-rectangular robust Bellman updates through a linear program

    A shallow embedding of [craam/definitions.hpp] (the probability
    distribution check) and of [craam/optimization/srect_gurobi.hpp] (the L1
    and L-infinity dual linear programs and the read-back of their solution).

    Numbers.  [prec_t] is [double] in the source.  The linear programs are
    built from the inputs by copying and negating entries only, so a finite
    double is modelled by the rational it denotes ([Q]); the two infinities
    occur as variable bounds only and get a type of their own ([ereal]).
    [is_probability_dist] is the one function that does floating point
    arithmetic of its own: it is written once over an interface of the
    operations it uses and instantiated at [Q] and at binary64.  The L1
    operation runs it on [policy_eval], which is therefore a vector of
    binary64 numbers, checked in binary64; its entries enter the program by
    their values.

    The Gurobi library is not part of the repository.  Its model object is
    embedded as a record (variables, rows, objective), its mutators as
    functions on that record, and [GRBModel::optimize] as a parameter
    [optimize] that returns the attributes the source reads afterwards. *)

From Stdlib Require Import String.
From Stdlib Require Import List Bool Arith Lia.
From Stdlib Require Import QArith Qabs Lqa.
From Stdlib Require Import PrimFloat.
From Stdlib Require FloatOps SpecFloat.
Import ListNotations.

Local Open Scope Q_scope.

(* ================================================================== *)
(** * craam/definitions.hpp *)
(* ================================================================== *)

(** The operations of [prec_t] that [is_probability_dist] uses. *)
Class PrecOps (T : Type) : Type := {
  p_zero : T;
  p_one : T;
  p_add : T -> T -> T;
  p_sub : T -> T -> T;
  p_abs : T -> T;
  p_ltb : T -> T -> bool;
  p_EPSILON : T
}.

Definition Qltb (a b : Q) : bool := negb (Qle_bool b a).

(** [constexpr prec_t EPSILON = 1e-6] *)
Definition EPSILON : Q := 1 # 1000000.

#[export] Instance PrecOps_Q : PrecOps Q := {
  p_zero := 0;
  p_one := 1;
  p_add := Qplus;
  p_sub := Qminus;
  p_abs := Qabs;
  p_ltb := Qltb;
  p_EPSILON := EPSILON
}.

#[export] Instance PrecOps_binary64 : PrecOps float := {
  p_zero := PrimFloat.zero;
  p_one := PrimFloat.one;
  p_add := PrimFloat.add;
  p_sub := PrimFloat.sub;
  p_abs := PrimFloat.abs;
  p_ltb := PrimFloat.ltb;
  p_EPSILON := 0x1.0c6f7a0b5ed8dp-20%float
}.

Section Definitions.
Context {T : Type} `{PrecOps T}.

  (** The [while (++first != last)] loop of [is_probability_dist]: [sum]
      already holds the first element, [rest] is what the iterator has yet
      to visit. *)
Fixpoint is_probability_dist_loop (sum : T) (rest : list T) : bool :=
    match rest with
    | [] => p_ltb (p_abs (p_sub sum p_one)) p_EPSILON
    | x :: rest' =>
        if p_ltb x p_zero then false
        else is_probability_dist_loop (p_add sum x) rest'
    end.

  (** [is_probability_dist(first, last)] over the range as a list. *)
Definition is_probability_dist (v : list T) : bool :=
    match v with
    | [] => false
    | first :: rest => is_probability_dist_loop first rest
    end.
End Definitions.

(** Default precision type; numerical vector ([std::vector<prec_t>]) and
    vector of numerical vectors, as abbreviations of the list types. *)
Definition prec_t := Q.
Abbreviation numvec := (list Q) (only parsing).
Abbreviation numvecvec := (list (list Q)) (only parsing).

(** The rational that a finite binary64 number denotes, in lowest terms.
    (Infinities and NaN get 0: no vector that holds one passes
    [is_probability_dist], and no other double is converted.) *)
Definition double_value (x : float) : Q :=
  match FloatOps.Prim2SF x with
  | SpecFloat.S754_finite s m e =>
      Qred ((if s then - (1) else 1) * (inject_Z (Zpos m) * Qpower 2 e))
  | _ => 0
  end.

Definition double_values (v : list float) : numvec := map double_value v.

(* ================================================================== *)
(** * The part of the Gurobi C++ interface that the source uses *)
(* ================================================================== *)

(** A double that may be infinite (variable bounds). *)
Inductive ereal : Type :=
| NegInf
| Real (q : Q)
| PosInf.

(** A variable handle is the column index of the variable. *)
Definition GRBVar := nat.

(** [GRBLinExpr]: a list of (coefficient, variable) terms and a constant. *)
Record GRBLinExpr : Type := mkLinExpr {
  le_terms : list (Q * GRBVar);
  le_const : Q
}.

Definition le_zero : GRBLinExpr := mkLinExpr [] 0.
(** implicit conversions [GRBLinExpr(GRBVar)] and [GRBLinExpr(double)] *)
Definition le_var (v : GRBVar) : GRBLinExpr := mkLinExpr [(1, v)] 0.
Definition le_dbl (c : Q) : GRBLinExpr := mkLinExpr [] c.
(** [operator-(GRBVar)] *)
Definition le_neg_var (v : GRBVar) : GRBLinExpr := mkLinExpr [(- (1), v)] 0.
(** [operator*(double, GRBVar)] and [operator*(GRBVar, double)] *)
Definition le_mul (c : Q) (v : GRBVar) : GRBLinExpr := mkLinExpr [(c, v)] 0.
(** [operator*(GRBLinExpr, double)] *)
Definition le_scale (e : GRBLinExpr) (c : Q) : GRBLinExpr :=
  mkLinExpr (map (fun t => (fst t * c, snd t)) (le_terms e)) (le_const e * c).
(** [operator+] and [operator+=] *)
Definition le_add (e1 e2 : GRBLinExpr) : GRBLinExpr :=
  mkLinExpr (le_terms e1 ++ le_terms e2) (le_const e1 + le_const e2).
(** [operator-] *)
Definition le_sub (e1 e2 : GRBLinExpr) : GRBLinExpr :=
  le_add e1 (le_scale e2 (- (1))).
(** [GRBLinExpr::addTerms(coeffs, vars, count)] *)
Definition addTerms (e : GRBLinExpr) (coeffs : list Q) (vs : list GRBVar)
    (count : nat) : GRBLinExpr :=
  mkLinExpr (le_terms e ++ firstn count (combine coeffs vs)) (le_const e).

Inductive GRBSense : Type := GRB_LESS_EQUAL | GRB_EQUAL | GRB_GREATER_EQUAL.
Inductive GRBModelSense : Type := GRB_MINIMIZE | GRB_MAXIMIZE.

(** [GRBTempConstr]: what [lhs <= rhs] and [lhs == rhs] build. *)
Record GRBTempConstr : Type := mkTemp {
  t_lhs : GRBLinExpr;
  t_sense : GRBSense;
  t_rhs : GRBLinExpr
}.
Definition tc_le (l r : GRBLinExpr) : GRBTempConstr := mkTemp l GRB_LESS_EQUAL r.
Definition tc_eq (l r : GRBLinExpr) : GRBTempConstr := mkTemp l GRB_EQUAL r.

(** A row of the model: variable terms on the left, a number on the right. *)
Record GRBConstr : Type := mkConstr {
  row : list (Q * GRBVar);
  Sense : GRBSense;
  RHS : Q;
  ConstrName : string
}.

Record GRBVarInfo : Type := mkVar {
  LB : ereal;
  UB : ereal;
  VarName : string
}.

(** [GRBModel].  The objective is kept as one expression: [addVar] with an
    objective coefficient appends a term to it and [setObjective] replaces
    it as a whole. *)
Record GRBModel : Type := mkModel {
  vars : list GRBVarInfo;
  constrs : list GRBConstr;
  objective : GRBLinExpr;
  ModelSense : GRBModelSense
}.

Definition GRBModel_new : GRBModel := mkModel [] [] le_zero GRB_MINIMIZE.

(** [GRBModel::addVar(lb, ub, obj, type, name)] with [type = GRB_CONTINUOUS]. *)
Definition addVar (m : GRBModel) (lb ub : ereal) (obj : Q) (name : string)
    : GRBModel * GRBVar :=
  let v := length (vars m) in
  (mkModel (vars m ++ [mkVar lb ub name]) (constrs m)
           (le_add (objective m) (le_mul obj v)) (ModelSense m), v).

(** [GRBModel::addVars(lb, ub, obj, type, names, count)]: a null [lb] means
    lower bounds 0, a null [ub] infinite upper bounds, a null [obj]
    objective coefficients 0.  All types are [GRB_CONTINUOUS], all names
    null in the source. *)
Definition addVars (m : GRBModel) (lb ub : option (list ereal))
    (obj : option (list Q)) (count : nat) : GRBModel * list GRBVar :=
  let base := length (vars m) in
  let info k :=
    mkVar (match lb with None => Real 0 | Some l => nth k l (Real 0) end)
          (match ub with None => PosInf | Some l => nth k l PosInf end)
          EmptyString in
  let oterm k :=
    (match obj with None => 0 | Some l => nth k l 0 end, (base + k)%nat) in
  (mkModel (vars m ++ map info (seq 0 count)) (constrs m)
           (mkLinExpr (le_terms (objective m) ++ map oterm (seq 0 count))
                      (le_const (objective m)))
           (ModelSense m),
   seq base count).

(** [GRBModel::addConstr(lhs, sense, rhs, name)]: the variable terms go to
    the left-hand side and the constants to the right-hand side. *)
Definition addConstr3 (m : GRBModel) (lhs : GRBLinExpr) (s : GRBSense)
    (rhs : GRBLinExpr) (name : string) : GRBModel :=
  let d := le_sub lhs rhs in
  mkModel (vars m)
          (constrs m ++ [mkConstr (le_terms d) s (le_const rhs - le_const lhs) name])
          (objective m) (ModelSense m).

(** [GRBModel::addConstr(tempConstr, name)] *)
Definition addConstr (m : GRBModel) (tc : GRBTempConstr) (name : string)
    : GRBModel :=
  addConstr3 m (t_lhs tc) (t_sense tc) (t_rhs tc) name.

(** [GRBModel::setObjective(expr, sense)] *)
Definition setObjective (m : GRBModel) (e : GRBLinExpr) (s : GRBModelSense)
    : GRBModel :=
  mkModel (vars m) (constrs m) e s.

(** The optimization status codes ([GRB_IntAttr_Status]). *)
Inductive GRBStatus : Type :=
| GRB_LOADED | GRB_OPTIMAL | GRB_INFEASIBLE | GRB_INF_OR_UNBD | GRB_UNBOUNDED
| GRB_CUTOFF | GRB_ITERATION_LIMIT | GRB_NODE_LIMIT | GRB_TIME_LIMIT
| GRB_SOLUTION_LIMIT | GRB_INTERRUPTED | GRB_NUMERIC | GRB_SUBOPTIMAL.

Definition GRBStatus_eqb (a b : GRBStatus) : bool :=
  match a, b with
  | GRB_LOADED, GRB_LOADED | GRB_OPTIMAL, GRB_OPTIMAL
  | GRB_INFEASIBLE, GRB_INFEASIBLE | GRB_INF_OR_UNBD, GRB_INF_OR_UNBD
  | GRB_UNBOUNDED, GRB_UNBOUNDED | GRB_CUTOFF, GRB_CUTOFF
  | GRB_ITERATION_LIMIT, GRB_ITERATION_LIMIT | GRB_NODE_LIMIT, GRB_NODE_LIMIT
  | GRB_TIME_LIMIT, GRB_TIME_LIMIT | GRB_SOLUTION_LIMIT, GRB_SOLUTION_LIMIT
  | GRB_INTERRUPTED, GRB_INTERRUPTED | GRB_NUMERIC, GRB_NUMERIC
  | GRB_SUBOPTIMAL, GRB_SUBOPTIMAL => true
  | _, _ => false
  end.

(** What the model exposes after [optimize]: the status, and the solution
    attributes, each present or not ([None]: querying it raises
    [GRBException]).  [X] is indexed by variable, [Pi] by row. *)
Record GRBSolution : Type := mkSolution {
  Status : GRBStatus;
  X : option (list Q);
  Pi : option (list Q);
  ObjVal : option Q
}.

(** ** Control effects of the source *)

Inductive exn : Type :=
| invalid_argument (what : string)
| GRBException.

(** The ways a call ends: a value, a C++ exception, a failed [assert], or
    an access outside a vector (undefined behaviour in C++). *)
Inductive outcome (A : Type) : Type :=
| Return (a : A)
| Throw (e : exn)
| AssertionFailed
| OutOfRange.
Arguments Return {A} a.
Arguments Throw {A} e.
Arguments AssertionFailed {A}.
Arguments OutOfRange {A}.

Definition bind {A B} (c : outcome A) (k : A -> outcome B) : outcome B :=
  match c with
  | Return a => k a
  | Throw e => Throw e
  | AssertionFailed => AssertionFailed
  | OutOfRange => OutOfRange
  end.

Notation "x <- c ;; k" := (bind c (fun x => k))
  (at level 61, c at next level, right associativity).
Notation "' p <- c ;; k" := (bind c (fun x => match x with p => k end))
  (at level 61, p pattern, c at next level, right associativity).

Definition assert (b : bool) : outcome unit :=
  if b then Return tt else AssertionFailed.

(** [v[i]] on a vector. *)
Definition at_ {A} (v : list A) (i : nat) : outcome A :=
  match nth_error v i with
  | Some a => Return a
  | None => OutOfRange
  end.

(** [for (size_t k = start; k < start + l.size(); k++) body(k, l[k - start])]
    threading a state. *)
Fixpoint for_each {A St} (body : nat -> A -> St -> outcome St) (start : nat)
    (l : list A) (s : St) : outcome St :=
  match l with
  | [] => Return s
  | a :: l' => s' <- body start a s ;; for_each body (S start) l' s'
  end.

(** Reading [GRB_DoubleAttr_X] of a variable, [GRB_DoubleAttr_Pi] of a row
    and [GRB_DoubleAttr_ObjVal] of the model. *)
Definition get_attr (a : option (list Q)) (i : nat) : outcome Q :=
  match a with
  | None => Throw GRBException
  | Some l => match nth_error l i with
              | Some q => Return q
              | None => Throw GRBException
              end
  end.
Definition get_X (sol : GRBSolution) (v : GRBVar) : outcome Q := get_attr (X sol) v.
Definition get_Pi (sol : GRBSolution) (j : nat) : outcome Q := get_attr (Pi sol) j.
Definition get_ObjVal (sol : GRBSolution) : outcome Q :=
  match ObjVal sol with
  | None => Throw GRBException
  | Some q => Return q
  end.

(** [v[i] = a] on a vector. *)
Fixpoint store {A} (v : list A) (i : nat) (a : A) : outcome (list A) :=
  match v, i with
  | [], _ => OutOfRange
  | _ :: v', O => Return (a :: v')
  | b :: v', S i' => v'' <- store v' i' a ;; Return (b :: v'')
  end.

(* ================================================================== *)
(** * craam/optimization/srect_gurobi.hpp *)
(* ================================================================== *)

Definition is_empty {A} (v : list A) : bool :=
  match v with [] => true | _ => false end.

(** [transform(pbar.cbegin(), pbar.cend(), statecounts.begin(), size)] *)
Definition statecounts (pbar : numvecvec) : list nat := map (@length Q) pbar.

(** [accumulate(statecounts.cbegin(), statecounts.cend(), size_t(0))] *)
Definition nstateactions (pbar : numvecvec) : nat :=
  fold_left Nat.add (statecounts pbar) 0%nat.

(** The variables of both programs, in the order in which they are added:
    [x], [yp], [yn], [lambda], [d]. *)
Record srect_vars : Type := mkVars {
  v_x : list GRBVar;
  v_yp : list GRBVar;
  v_yn : list GRBVar;
  v_lambda : GRBVar;
  v_d : list GRBVar
}.

(** The state of the two nested loops: the model, the objective expression
    being accumulated and the absolute index [i]. *)
Definition loop_state : Type := (GRBModel * GRBLinExpr * nat)%type.

(** The constraint [x[actionid] - yp[i] + yn[i] <= d[actionid] * z[actionid][stateid]]. *)
Definition P_constr (x_a yp_i yn_i d_a : GRBVar) (z_as : Q) : GRBTempConstr :=
  tc_le (le_add (le_sub (le_var x_a) (le_var yp_i)) (le_var yn_i))
        (le_mul z_as d_a).

(** The constraint [-lambda * weight + yp[i] + yn[i] <= 0]. *)
Definition psi_constr (lambda yp_i yn_i : GRBVar) (weight : Q) : GRBTempConstr :=
  tc_le (le_add (le_add (le_scale (le_neg_var lambda) weight) (le_var yp_i))
                (le_var yn_i))
        (le_dbl 0).

(** The constraint [-lambda * weight + z_dual <= 0]. *)
Definition theta_constr (lambda : GRBVar) (weight : Q) (z_dual : GRBLinExpr)
    : GRBTempConstr :=
  tc_le (le_add (le_scale (le_neg_var lambda) weight) z_dual) (le_dbl 0).

Section Builders.
Variables (z pbar : numvecvec) (kappa : prec_t) (w : numvecvec).

  (** The variables shared by the two programs (lines 105-124 and 296-313). *)
Definition add_variables (model : GRBModel) : GRBModel * srect_vars :=
    let nactions := length pbar in
    let '(model, x) :=
      addVars model (Some (repeat NegInf nactions)) None None nactions in
    let '(model, yp) := addVars model None None None (nstateactions pbar) in
    let '(model, yn) := addVars model None None None (nstateactions pbar) in
    let '(model, lambda) := addVar model (Real 0) PosInf (- kappa) "lambda" in
    let '(model, d) :=
      addVars model (Some (repeat (Real 0) nactions)) None
              (Some (repeat 0 nactions)) nactions in
    (model, mkVars x yp yn lambda d).

  (** ** srect_l1_solve_gurobi, up to [model.optimize()] *)

  (** Body of the inner loop (lines 151-163). *)
Definition l1_state_body (vs : srect_vars) (actionid : nat)
      (stateid : nat) (pbar_as : Q) (st : loop_state) : outcome loop_state :=
    let '(model, objective, i) := st in
    x_a <- at_ (v_x vs) actionid ;;
    d_a <- at_ (v_d vs) actionid ;;
    yp_i <- at_ (v_yp vs) i ;;
    yn_i <- at_ (v_yn vs) i ;;
    let objective := le_add objective (le_mul (- pbar_as) yp_i) in
    let objective := le_add objective (le_mul pbar_as yn_i) in
    z_a <- at_ z actionid ;;
    z_as <- at_ z_a stateid ;;
    let model := addConstr model (P_constr x_a yp_i yn_i d_a z_as) "P" in
    weight <- (if (0 <? length w)%nat
               then w_a <- at_ w actionid ;; at_ w_a stateid
               else Return 1) ;;
    let model :=
      addConstr model (psi_constr (v_lambda vs) yp_i yn_i weight) "psi" in
    Return (model, objective, S i).

  (** Body of the outer loop (lines 149-164). *)
Definition l1_action_body (vs : srect_vars) (actionid : nat)
      (pbar_a : numvec) (st : loop_state) : outcome loop_state :=
    let '(model, objective, i) := st in
    x_a <- at_ (v_x vs) actionid ;;
    let objective := le_add objective (le_var x_a) in
    for_each (l1_state_body vs actionid) 0 pbar_a (model, objective, i).

  (** Constraints on the policy (lines 126-142).  [policy_eval] holds
      binary64 numbers and [is_probability_dist] runs on them in binary64;
      the row [d[i] == policy_eval[i]] gets the value of the entry. *)
Definition l1_policy_constraints (vs : srect_vars) (policy_eval : list float)
      (model : GRBModel) : outcome GRBModel :=
    _ <- assert (is_empty policy_eval
                 || (length policy_eval =? length z)%nat) ;;
    if negb (is_empty policy_eval) then
      _ <- assert (is_probability_dist policy_eval) ;;
      for_each (fun i pe_i model =>
                  d_i <- at_ (v_d vs) i ;;
                  Return (addConstr model (tc_eq (le_var d_i) (le_dbl pe_i))
                                    EmptyString))
               0 (double_values policy_eval) model
    else
      let nactions := length pbar in
      let ones := addTerms le_zero (repeat 1 nactions) (v_d vs) nactions in
      Return (addConstr3 model ones GRB_EQUAL (le_dbl 1) "pi").

  (** Lines 85-170: the model handed to [optimize], with its variables. *)
Definition srect_l1_model (policy_eval : list float)
      : outcome (GRBModel * srect_vars) :=
    _ <- assert (length pbar =? length z)%nat ;;
    _ <- assert (is_empty w || (length w =? length z)%nat) ;;
    let '(model, vs) := add_variables GRBModel_new in
    model <- l1_policy_constraints vs policy_eval model ;;
    '(model, objective, _) <-
      for_each (l1_action_body vs) 0 pbar (model, le_zero, 0%nat) ;;
    let objective := le_add objective (le_scale (le_neg_var (v_lambda vs)) kappa) in
    Return (setObjective model objective GRB_MAXIMIZE, vs).

  (** ** srect_linf_solve_gurobi, up to [model.optimize()] *)

  (** State of the inner loop: the outer state and [z_dual]. *)
Definition linf_state_body (vs : srect_vars) (actionid : nat)
      (stateid : nat) (pbar_as : Q) (st : loop_state * GRBLinExpr)
      : outcome (loop_state * GRBLinExpr) :=
    let '(model, objective, i, z_dual) := st in
    x_a <- at_ (v_x vs) actionid ;;
    d_a <- at_ (v_d vs) actionid ;;
    yp_i <- at_ (v_yp vs) i ;;
    yn_i <- at_ (v_yn vs) i ;;
    let objective := le_add objective (le_mul (- pbar_as) yp_i) in
    let objective := le_add objective (le_mul pbar_as yn_i) in
    z_a <- at_ z actionid ;;
    z_as <- at_ z_a stateid ;;
    let model := addConstr model (P_constr x_a yp_i yn_i d_a z_as) "P" in
    let z_dual := le_add z_dual (le_add (le_var yp_i) (le_var yn_i)) in
    Return (model, objective, S i, z_dual).

  (** Body of the outer loop (lines 319-339); [weight] is the constant 1.0,
      the read of [w] being commented out in the source. *)
Definition linf_action_body (vs : srect_vars) (actionid : nat)
      (pbar_a : numvec) (st : loop_state) : outcome loop_state :=
    let '(model, objective, i) := st in
    x_a <- at_ (v_x vs) actionid ;;
    let objective := le_add objective (le_var x_a) in
    '(model, objective, i, z_dual) <-
      for_each (linf_state_body vs actionid) 0 pbar_a
               (model, objective, i, le_zero) ;;
    let weight := 1 in
    let model := addConstr model (theta_constr (v_lambda vs) weight z_dual) "theta" in
    Return (model, objective, i).

  (** Lines 273-348. *)
Definition srect_linf_model : outcome (GRBModel * srect_vars) :=
    _ <- assert (length pbar =? length z)%nat ;;
    _ <- assert (is_empty w || (length w =? length z)%nat) ;;
    let '(model, vs) := add_variables GRBModel_new in
    '(model, objective, _) <-
      for_each (linf_action_body vs) 0 pbar (model, le_zero, 0%nat) ;;
    let objective := le_add objective (le_scale (le_neg_var (v_lambda vs)) kappa) in
    let nactions := length pbar in
    let ones := addTerms le_zero (repeat 1 nactions) (v_d vs) nactions in
    let model := addConstr3 model ones GRB_EQUAL (le_dbl 1) "policy" in
    Return (setObjective model objective GRB_MAXIMIZE, vs).
End Builders.

(** ** Reading the solution back *)

(** [policy[i] = d[i].get(GRB_DoubleAttr_X)] for [i < nactions]. *)
Fixpoint retrieve_policy (sol : GRBSolution) (d : list GRBVar) (i : nat)
    (n : nat) : outcome numvec :=
  match n with
  | O => Return []
  | S n' =>
      d_i <- at_ d i ;;
      p <- get_X sol d_i ;;
      rest <- retrieve_policy sol d (S i) n' ;;
      Return (p :: rest)
  end.

(** Lines 190-194: [push_back] the dual value of every row named "psi". *)
Definition l1_budgets_body (sol : GRBSolution) (j : nat) (c : GRBConstr)
    (budgets : numvec) : outcome numvec :=
  if String.eqb (ConstrName c) "psi"
  then p <- get_Pi sol j ;; Return (budgets ++ [p])
  else Return budgets.

Definition l1_budgets (model : GRBModel) (sol : GRBSolution) : outcome numvec :=
  for_each (l1_budgets_body sol) 0 (constrs model) [].

(** Lines 362-367: [budgets[index++]] takes the dual value of every row
    named "theta". *)
Definition linf_budgets_body (sol : GRBSolution) (j : nat) (c : GRBConstr)
    (st : numvec * nat) : outcome (numvec * nat) :=
  let '(budgets, index) := st in
  if String.eqb (ConstrName c) "theta"
  then p <- get_Pi sol j ;;
       budgets <- store budgets index p ;;
       Return (budgets, S index)
  else Return (budgets, index).

Definition linf_budgets (model : GRBModel) (sol : GRBSolution) (nactions : nat)
    : outcome numvec :=
  '(budgets, _) <-
    for_each (linf_budgets_body sol) 0 (constrs model) (repeat 0 nactions, 0%nat) ;;
  Return budgets.

Section Solve.
  (** [GRBModel::optimize] under the environment [env] of the call. *)
Variable optimize : GRBModel -> GRBSolution.

Definition srect_l1_solve_gurobi (z pbar : numvecvec) (kappa : prec_t)
      (w : numvecvec) (policy_eval : list float)
      : outcome (prec_t * numvec * numvec) :=
    '(model, vs) <- srect_l1_model z pbar kappa w policy_eval ;;
    let sol := optimize model in
    if negb (GRBStatus_eqb (Status sol) GRB_OPTIMAL)
    then Throw (invalid_argument "Failed to solve the LP.")
    else
      policy <- retrieve_policy sol (v_d vs) 0 (length pbar) ;;
      budgets <- l1_budgets model sol ;;
      objval <- get_ObjVal sol ;;
      Return (objval, policy, budgets).

Definition srect_linf_solve_gurobi (z pbar : numvecvec) (kappa : prec_t)
      (w : numvecvec) : outcome (prec_t * numvec * numvec) :=
    '(model, vs) <- srect_linf_model z pbar kappa w ;;
    let sol := optimize model in
    policy <- retrieve_policy sol (v_d vs) 0 (length pbar) ;;
    budgets <- linf_budgets model sol (length pbar) ;;
    objval <- get_ObjVal sol ;;
    Return (objval, policy, budgets).
End Solve.

(* ================================================================== *)
(** * Meaning of a model: feasible points and optimality conditions *)
(* ================================================================== *)

(** A point assigns a value to every column (a vector of dual values one
    to every row); indices beyond its length read as 0. *)
Definition val (v : list Q) (j : nat) : Q := nth j v 0.

Fixpoint eval_terms (ts : list (Q * GRBVar)) (v : list Q) : Q :=
  match ts with
  | [] => 0
  | (c, j) :: ts' => c * val v j + eval_terms ts' v
  end.

Definition eval (e : GRBLinExpr) (v : list Q) : Q :=
  eval_terms (le_terms e) v + le_const e.

(** A comparison that may be violated by at most [tol]. *)
Definition sense_holds (tol : Q) (s : GRBSense) (a b : Q) : Prop :=
  match s with
  | GRB_LESS_EQUAL => a <= b + tol
  | GRB_EQUAL => a <= b + tol /\ b <= a + tol
  | GRB_GREATER_EQUAL => b <= a + tol
  end.

Definition constr_holds (tol : Q) (v : list Q) (c : GRBConstr) : Prop :=
  sense_holds tol (Sense c) (eval_terms (row c) v) (RHS c).

Definition lb_holds (tol : Q) (b : ereal) (q : Q) : Prop :=
  match b with
  | NegInf => True
  | Real l => l <= q + tol
  | PosInf => False
  end.

Definition ub_holds (tol : Q) (b : ereal) (q : Q) : Prop :=
  match b with
  | NegInf => False
  | Real u => q <= u + tol
  | PosInf => True
  end.

Definition bounds_hold (tol : Q) (vi : GRBVarInfo) (q : Q) : Prop :=
  lb_holds tol (LB vi) q /\ ub_holds tol (UB vi) q.

(** [v] satisfies the bounds and the rows of [m] up to [tol]. *)
Definition feasible_within (tol : Q) (m : GRBModel) (v : list Q) : Prop :=
  Forall2 (bounds_hold tol) (vars m) v /\ Forall (constr_holds tol v) (constrs m).

Definition feasible (m : GRBModel) (v : list Q) : Prop := feasible_within 0 m v.

(** Coefficient of column [j] in a list of terms. *)
Fixpoint coef (ts : list (Q * GRBVar)) (j : GRBVar) : Q :=
  match ts with
  | [] => 0
  | (c, k) :: ts' => (if Nat.eqb k j then c else 0) + coef ts' j
  end.

(** The dual values priced along column [j]. *)
Fixpoint col_price (cs : list GRBConstr) (pi : list Q) (j : GRBVar) : Q :=
  match cs, pi with
  | c :: cs', p :: pi' => p * coef (row c) j + col_price cs' pi' j
  | _, _ => 0
  end.

Definition reduced_cost (m : GRBModel) (pi : list Q) (j : GRBVar) : Q :=
  coef (le_terms (objective m)) j - col_price (constrs m) pi j.

(** Sign of the dual value of a row in a maximization. *)
Definition dual_sign (c : GRBConstr) (p : Q) : Prop :=
  match Sense c with
  | GRB_LESS_EQUAL => 0 <= p
  | GRB_EQUAL => True
  | GRB_GREATER_EQUAL => p <= 0
  end.

(** A row with a non-zero dual value is tight. *)
Definition slack_compl (x : list Q) (c : GRBConstr) (p : Q) : Prop :=
  p * (eval_terms (row c) x - RHS c) == 0.

(** A column with a positive reduced cost sits at its upper bound, one with
    a negative reduced cost at its lower bound. *)
Definition rc_compl (vi : GRBVarInfo) (xj rc : Q) : Prop :=
  (0 < rc -> match UB vi with Real u => xj == u | _ => False end) /\
  (rc < 0 -> match LB vi with Real l => xj == l | _ => False end).

Fixpoint rc_compl_all (m : GRBModel) (pi x : list Q) (vs : list GRBVarInfo)
    (j : nat) : Prop :=
  match vs with
  | [] => True
  | vi :: vs' =>
      rc_compl vi (val x j) (reduced_cost m pi j) /\ rc_compl_all m pi x vs' (S j)
  end.

(** Every term of the model mentions a column of the model. *)
Definition terms_wf (n : nat) (ts : list (Q * GRBVar)) : Prop :=
  Forall (fun t => (snd t < n)%nat) ts.

Definition model_wf (m : GRBModel) : Prop :=
  terms_wf (length (vars m)) (le_terms (objective m)) /\
  Forall (fun c => terms_wf (length (vars m)) (row c)) (constrs m).

(** The optimality conditions of a maximization model: primal values [x],
    dual values [pi] and objective value [o] that Gurobi reports with the
    status [GRB_OPTIMAL] (exact arithmetic, tolerances zero). *)
Record optimality_conditions (m : GRBModel) (x pi : list Q) (o : Q) : Prop := {
  oc_sense : ModelSense m = GRB_MAXIMIZE;
  oc_primal : feasible m x;
  oc_sign : Forall2 dual_sign (constrs m) pi;
  oc_slack : Forall2 (slack_compl x) (constrs m) pi;
  oc_rc : rc_compl_all m pi x (vars m) 0;
  oc_objval : o == eval (objective m) x
}.

(** The solution attributes are those of an optimal solution of [m]. *)
Definition grb_optimal (m : GRBModel) (sol : GRBSolution) : Prop :=
  Status sol = GRB_OPTIMAL /\
  exists x pi o,
    X sol = Some x /\ Pi sol = Some pi /\ ObjVal sol = Some o /\
    optimality_conditions m x pi o.

(** ** Sums used to state the properties *)

(** [f j + f (j+1) + ... + f (j+n-1)] *)
Fixpoint sum_range (j n : nat) (f : nat -> Q) : Q :=
  match n with
  | O => 0
  | S n' => f j + sum_range (S j) n' f
  end.

(** The dual values [pi] paired with a quantity [g] of each row. *)
Fixpoint dual_pairing (cs : list GRBConstr) (pi : list Q)
    (g : GRBConstr -> Q) : Q :=
  match cs, pi with
  | c :: cs', p :: pi' => p * g c + dual_pairing cs' pi' g
  | _, _ => 0
  end.

(* ================================================================== *)
(** * The two programs in closed form *)
(* ================================================================== *)

(** What follows describes the models that the loops of the source build;
    the theorems prove that the source builds exactly these. *)

(** The row that [addConstr] appends. *)
Definition mk_row (tc : GRBTempConstr) (name : string) : GRBConstr :=
  mkConstr (le_terms (le_sub (t_lhs tc) (t_rhs tc))) (t_sense tc)
           (le_const (t_rhs tc) - le_const (t_lhs tc)) name.

Definition add_rows (m : GRBModel) (rs : list GRBConstr) : GRBModel :=
  mkModel (vars m) (constrs m ++ rs) (objective m) (ModelSense m).

Definition add_obj_terms (e : GRBLinExpr) (ts : list (Q * GRBVar)) : GRBLinExpr :=
  mkLinExpr (le_terms e ++ ts) (le_const e).

(** Columns: [x] first, then [yp], [yn], [lambda] and [d]. *)
Definition layout (pbar : numvecvec) : srect_vars :=
  let nA := length pbar in
  let nSA := nstateactions pbar in
  mkVars (seq 0 nA) (seq nA nSA) (seq (nA + nSA) nSA) (nA + nSA + nSA)%nat
         (seq (nA + nSA + nSA + 1) nA).

Definition free_var : GRBVarInfo := mkVar NegInf PosInf EmptyString.
Definition nonneg_var : GRBVarInfo := mkVar (Real 0) PosInf EmptyString.
Definition lambda_info : GRBVarInfo := mkVar (Real 0) PosInf "lambda".

Definition var_infos (pbar : numvecvec) : list GRBVarInfo :=
  repeat free_var (length pbar) ++ repeat nonneg_var (nstateactions pbar)
  ++ repeat nonneg_var (nstateactions pbar) ++ [lambda_info]
  ++ repeat nonneg_var (length pbar).

(** [z[a][s]] and the weight of [(a, s)], read with a default. *)
Definition zval (z : numvecvec) (a s : nat) : Q := nth s (nth a z []) 0.
Definition weight_of (w : numvecvec) (a s : nat) : Q :=
  if (0 <? length w)%nat then nth s (nth a w []) 0 else 1.

Definition var_at (l : list GRBVar) (i : nat) : GRBVar := nth i l 0%nat.

(** Objective terms of one action's outcomes, from absolute index [i]. *)
Fixpoint state_terms (vs : srect_vars) (i : nat) (pbar_a : numvec)
    : list (Q * GRBVar) :=
  match pbar_a with
  | [] => []
  | p :: rest =>
      (- p, var_at (v_yp vs) i) :: (p, var_at (v_yn vs) i)
      :: state_terms vs (S i) rest
  end.

(** Objective terms of the actions from [a] on. *)
Fixpoint action_terms (vs : srect_vars) (a i : nat) (rows : numvecvec)
    : list (Q * GRBVar) :=
  match rows with
  | [] => []
  | r :: rows' =>
      (1, var_at (v_x vs) a) :: state_terms vs i r
      ++ action_terms vs (S a) (i + length r) rows'
  end.

Definition P_row (z : numvecvec) (vs : srect_vars) (a s i : nat) : GRBConstr :=
  mk_row (P_constr (var_at (v_x vs) a) (var_at (v_yp vs) i) (var_at (v_yn vs) i)
                   (var_at (v_d vs) a) (zval z a s)) "P".

Definition psi_row (w : numvecvec) (vs : srect_vars) (a s i : nat) : GRBConstr :=
  mk_row (psi_constr (v_lambda vs) (var_at (v_yp vs) i) (var_at (v_yn vs) i)
                     (weight_of w a s)) "psi".

(** Rows of the L1 program for the outcomes of action [a] from [s] on. *)
Fixpoint l1_state_rows (z w : numvecvec) (vs : srect_vars) (a s i : nat)
    (pbar_a : numvec) : list GRBConstr :=
  match pbar_a with
  | [] => []
  | _ :: rest =>
      P_row z vs a s i :: psi_row w vs a s i
      :: l1_state_rows z w vs a (S s) (S i) rest
  end.

Fixpoint l1_action_rows (z w : numvecvec) (vs : srect_vars) (a i : nat)
    (rows : numvecvec) : list GRBConstr :=
  match rows with
  | [] => []
  | r :: rows' =>
      l1_state_rows z w vs a 0 i r
      ++ l1_action_rows z w vs (S a) (i + length r) rows'
  end.

(** The rows [d[i] == policy_eval[i]]. *)
Fixpoint pin_rows (vs : srect_vars) (i : nat) (policy_eval : numvec)
    : list GRBConstr :=
  match policy_eval with
  | [] => []
  | q :: rest =>
      mk_row (tc_eq (le_var (var_at (v_d vs) i)) (le_dbl q)) EmptyString
      :: pin_rows vs (S i) rest
  end.

(** The row that sums the policy to 1. *)
Definition ones_row (pbar : numvecvec) (vs : srect_vars) (name : string)
    : GRBConstr :=
  mk_row (mkTemp (addTerms le_zero (repeat 1 (length pbar)) (v_d vs) (length pbar))
                 GRB_EQUAL (le_dbl 1)) name.

Definition l1_policy_rows (pbar : numvecvec) (vs : srect_vars)
    (policy_eval : numvec) : list GRBConstr :=
  if is_empty policy_eval then [ones_row pbar vs "pi"]
  else pin_rows vs 0 policy_eval.

Definition srect_objective (pbar : numvecvec) (kappa : Q) : GRBLinExpr :=
  mkLinExpr (action_terms (layout pbar) 0 0 pbar
             ++ [(- (1) * kappa, v_lambda (layout pbar))])
            (0 + 0 * kappa).

(** The L1 program. *)
Definition l1_lp (z pbar : numvecvec) (kappa : Q) (w : numvecvec)
    (policy_eval : numvec) : GRBModel :=
  mkModel (var_infos pbar)
          (l1_policy_rows pbar (layout pbar) policy_eval
           ++ l1_action_rows z w (layout pbar) 0 0 pbar)
          (srect_objective pbar kappa)
          GRB_MAXIMIZE.

(** Rows [P] of the L-infinity program for the outcomes of one action, and
    the terms that its loop collects in [z_dual]. *)
Fixpoint linf_state_rows (z : numvecvec) (vs : srect_vars) (a s i : nat)
    (pbar_a : numvec) : list GRBConstr :=
  match pbar_a with
  | [] => []
  | _ :: rest => P_row z vs a s i :: linf_state_rows z vs a (S s) (S i) rest
  end.

Fixpoint z_dual_terms (vs : srect_vars) (i : nat) (pbar_a : numvec)
    : list (Q * GRBVar) :=
  match pbar_a with
  | [] => []
  | _ :: rest =>
      (1, var_at (v_yp vs) i) :: (1, var_at (v_yn vs) i)
      :: z_dual_terms vs (S i) rest
  end.

Definition theta_row (vs : srect_vars) (i : nat) (pbar_a : numvec) : GRBConstr :=
  mk_row (theta_constr (v_lambda vs) 1 (mkLinExpr (z_dual_terms vs i pbar_a) 0))
         "theta".

Fixpoint linf_action_rows (z : numvecvec) (vs : srect_vars) (a i : nat)
    (rows : numvecvec) : list GRBConstr :=
  match rows with
  | [] => []
  | r :: rows' =>
      linf_state_rows z vs a 0 i r ++ [theta_row vs i r]
      ++ linf_action_rows z vs (S a) (i + length r) rows'
  end.

(** The L-infinity program. *)
Definition linf_lp (z pbar : numvecvec) (kappa : Q) : GRBModel :=
  mkModel (var_infos pbar)
          (linf_action_rows z (layout pbar) 0 0 pbar
           ++ [ones_row pbar (layout pbar) "policy"])
          (srect_objective pbar kappa)
          GRB_MAXIMIZE.

(** ** Inputs on which no assertion fails and no read is out of range *)

(** Every row of [other] is at least as long as the row of [pbar]. *)
Definition covers (pbar other : numvecvec) : Prop :=
  Forall2 (fun p r => (length p <= length r)%nat) pbar other.

Definition shapes_ok (z pbar w : numvecvec) : Prop :=
  covers pbar z /\ (w = [] \/ covers pbar w).

(** [policy_eval] passes the two assertions on it; the check of the
    distribution is the one of the source, in binary64. *)
Definition policy_eval_ok (z : numvecvec) (policy_eval : list float) : Prop :=
  policy_eval = [] \/
  (length policy_eval = length z /\ is_probability_dist policy_eval = true).

(** The model after the variables have been added. *)
Definition base_model (pbar : numvecvec) (kappa : Q) : GRBModel :=
  fst (add_variables pbar kappa GRBModel_new).

(** ** What the read-back returns *)

(** Indices, from [j] on, of the rows that carry the name [name]. *)
Fixpoint rows_named (name : string) (cs : list GRBConstr) (j : nat) : list nat :=
  match cs with
  | [] => []
  | c :: cs' =>
      if String.eqb (ConstrName c) name
      then j :: rows_named name cs' (S j)
      else rows_named name cs' (S j)
  end.

(** The dual values of the rows named [name], in row order. *)
Definition duals_named (name : string) (cs : list GRBConstr) (pi : list Q)
    : list Q :=
  map (val pi) (rows_named name cs 0).

(** The values of the columns [d]. *)
Definition policy_of (pbar : numvecvec) (x : list Q) : numvec :=
  map (fun a => val x (var_at (v_d (layout pbar)) a)) (seq 0 (length pbar)).

(** An attribute that is not available reads as the empty array. *)
Definition attr_list (a : option (list Q)) : list Q :=
  match a with Some l => l | None => [] end.

(** ** Notions used to state the claims *)

(** [f i p0 + f (i+1) p1 + ...] over the entries of one row, [i] being the
    absolute index of the first entry (the counter [i] of the source). *)
Fixpoint sum_states (f : nat -> Q -> Q) (i : nat) (row : numvec) : Q :=
  match row with
  | [] => 0
  | p :: rest => f i p + sum_states f (S i) rest
  end.

(** [f a i row] summed over the rows, [a] being the action and [i] the
    absolute index of the row's first entry. *)
Fixpoint sum_actions (f : nat -> nat -> numvec -> Q) (a i : nat)
    (rows : numvecvec) : Q :=
  match rows with
  | [] => 0
  | r :: rows' => f a i r + sum_actions f (S a) (i + length r) rows'
  end.

(** The columns of the program for [pbar]. *)
Definition col_x (pbar : numvecvec) (a : nat) : GRBVar := var_at (v_x (layout pbar)) a.
Definition col_yp (pbar : numvecvec) (i : nat) : GRBVar := var_at (v_yp (layout pbar)) i.
Definition col_yn (pbar : numvecvec) (i : nat) : GRBVar := var_at (v_yn (layout pbar)) i.
Definition col_lambda (pbar : numvecvec) : GRBVar := v_lambda (layout pbar).
Definition col_d (pbar : numvecvec) (a : nat) : GRBVar := var_at (v_d (layout pbar)) a.

(** The objective that the source hands to [setObjective], as a function of
    a point: [sum_a x_a + sum_(a,s) pbar[a][s] * (yn_i - yp_i) - kappa * lambda]. *)
Definition code_objective (pbar : numvecvec) (kappa : Q) (v : list Q) : Q :=
  sum_actions (fun a i row =>
                 val v (col_x pbar a)
                 + sum_states (fun i' p => p * (val v (col_yn pbar i') - val v (col_yp pbar i')))
                              i row)
              0 0 pbar
  - kappa * val v (col_lambda pbar).

(** The objective in the specification's words, [y+] being the variable that
    the constraint [x_a - y+ + y- <= d_a * z[a][s]] subtracts ([yp]) and [y-]
    the one it adds ([yn]):
    [sum_a x_a - sum_(a,s) pbar[a][s] * (y- - y+) - kappa * lambda]. *)
Definition spec_objective (pbar : numvecvec) (kappa : Q) (v : list Q) : Q :=
  sum_actions (fun a i row => val v (col_x pbar a)) 0 0 pbar
  - sum_actions (fun a i row =>
                   sum_states (fun i' p => p * (val v (col_yn pbar i') - val v (col_yp pbar i')))
                              i row)
                0 0 pbar
  - kappa * val v (col_lambda pbar).


Definition sumQ (v : numvec) : Q := fold_right Qplus 0 v.


(** The scenario of the specification. *)
Definition z_scn : numvecvec := [[1; 0]; [0; 1]].
Definition pbar_scn : numvecvec := [[1 # 2; 1 # 2]; [1 # 2; 1 # 2]].
(** ... and its failure scenario. *)
Definition pbar_bad : numvecvec := [[1 # 2; 4 # 10]; [1 # 2; 1 # 2]].

(** A solver outcome with the status [GRB_SUBOPTIMAL] for the L-infinity
    program of the scenario: a feasible point that is not optimal (13
    columns, 7 rows). *)
Definition sol_suboptimal : GRBSolution :=
  mkSolution GRB_SUBOPTIMAL
             (Some [0; 0; 0; 0; 0; 0; 0; 0; 0; 0; 0; 1 # 2; 1 # 2])
             (Some [0; 0; 0; 0; 0; 0; 0])
             (Some 0).

(** The same solution attributes under another status. *)
Definition with_status (s : GRBStatus) (sol : GRBSolution) : GRBSolution :=
  mkSolution s (X sol) (Pi sol) (ObjVal sol).

(** [P s i p] for every entry [p] of one row, [s] being its position in the
    row and [i] its absolute index. *)
Fixpoint all_states (P : nat -> nat -> Q -> Prop) (s i : nat) (row : numvec)
    : Prop :=
  match row with
  | [] => True
  | p :: rest => P s i p /\ all_states P (S s) (S i) rest
  end.

(** [P a i row] for every row, [a] being the action and [i] the absolute
    index of the row's first entry. *)
Fixpoint all_actions (P : nat -> nat -> numvec -> Prop) (a i : nat)
    (rows : numvecvec) : Prop :=
  match rows with
  | [] => True
  | r :: rows' => P a i r /\ all_actions P (S a) (i + length r) rows'
  end.

Section Meaning.
Variables (tol : Q) (z pbar w : numvecvec) (v : list Q).

(** [x_a - yp_i + yn_i <= d_a * z[a][s]] *)
Definition P_holds (a s i : nat) : Prop :=
  val v (col_x pbar a) - val v (col_yp pbar i) + val v (col_yn pbar i)
  <= val v (col_d pbar a) * zval z a s + tol.

(** [-lambda * weight(a,s) + yp_i + yn_i <= 0] *)
Definition psi_holds (a s i : nat) : Prop :=
  - val v (col_lambda pbar) * weight_of w a s
  + val v (col_yp pbar i) + val v (col_yn pbar i) <= 0 + tol.

(** [sum_s (yp_i + yn_i) <= lambda * 1] for the outcomes of one action *)
Definition theta_holds (i : nat) (row : numvec) : Prop :=
  sum_states (fun i' _ => val v (col_yp pbar i') + val v (col_yn pbar i')) i row
  <= val v (col_lambda pbar) * 1 + tol.

(** [sum_a d_a = 1] *)
Definition normalized : Prop :=
  sum_range 0 (length pbar) (fun a => val v (col_d pbar a)) <= 1 + tol /\
  1 <= sum_range 0 (length pbar) (fun a => val v (col_d pbar a)) + tol.

(** [d_a = policy_eval[a]] for every entry of [policy_eval] *)
Definition pinned (policy_eval : numvec) : Prop :=
  all_states (fun a _ q =>
                val v (col_d pbar a) <= q + tol /\ q <= val v (col_d pbar a) + tol)
             0 0 policy_eval.

(** The bounds: [x] free, every other column not negative. *)
Definition bounds_ok : Prop :=
  length v = length (var_infos pbar) /\
  forall j, (length pbar <= j < length (var_infos pbar))%nat -> 0 <= val v j + tol.
End Meaning.

(** A feasible point of the L1 program of the scenario with [yp_0 = 1] and
    [lambda = 1] (columns: x, x, yp*4, yn*4, lambda, d, d). *)
Definition point_yp0 : list Q := [0; 0; 1; 0; 0; 0; 0; 0; 0; 0; 1; 1; 0].

(** ** A decision procedure for the optimality conditions *)

Fixpoint forall2b {A B} (f : A -> B -> bool) (l1 : list A) (l2 : list B) : bool :=
  match l1, l2 with
  | [], [] => true
  | a :: l1', b :: l2' => f a b && forall2b f l1' l2'
  | _, _ => false
  end.

Definition bounds_holdb (vi : GRBVarInfo) (q : Q) : bool :=
  match LB vi with
  | NegInf => true
  | Real l => Qle_bool l (q + 0)
  | PosInf => false
  end
  && match UB vi with
     | NegInf => false
     | Real u => Qle_bool q (u + 0)
     | PosInf => true
     end.

Definition constr_holdsb (v : list Q) (c : GRBConstr) : bool :=
  let a := eval_terms (row c) v in
  let b := RHS c in
  match Sense c with
  | GRB_LESS_EQUAL => Qle_bool a (b + 0)
  | GRB_EQUAL => Qle_bool a (b + 0) && Qle_bool b (a + 0)
  | GRB_GREATER_EQUAL => Qle_bool b (a + 0)
  end.

Definition dual_signb (c : GRBConstr) (p : Q) : bool :=
  match Sense c with
  | GRB_LESS_EQUAL => Qle_bool 0 p
  | GRB_EQUAL => true
  | GRB_GREATER_EQUAL => Qle_bool p 0
  end.

Definition slack_complb (x : list Q) (c : GRBConstr) (p : Q) : bool :=
  Qeq_bool (p * (eval_terms (row c) x - RHS c)) 0.

Definition rc_complb (vi : GRBVarInfo) (xj rc : Q) : bool :=
  (if Qltb 0 rc
   then match UB vi with Real u => Qeq_bool xj u | _ => false end
   else true)
  && (if Qltb rc 0
      then match LB vi with Real l => Qeq_bool xj l | _ => false end
      else true).

Fixpoint rc_compl_allb (m : GRBModel) (pi x : list Q) (vs : list GRBVarInfo)
    (j : nat) : bool :=
  match vs with
  | [] => true
  | vi :: vs' =>
      rc_complb vi (val x j) (reduced_cost m pi j)
      && rc_compl_allb m pi x vs' (S j)
  end.

Definition optimality_check (m : GRBModel) (x pi : list Q) (o : Q) : bool :=
  match ModelSense m with GRB_MAXIMIZE => true | GRB_MINIMIZE => false end
  && forall2b bounds_holdb (vars m) x
  && forallb (constr_holdsb x) (constrs m)
  && forall2b dual_signb (constrs m) pi
  && forall2b (slack_complb x) (constrs m) pi
  && rc_compl_allb m pi x (vars m) 0
  && Qeq_bool o (eval (objective m) x).

(** ** Optimal solutions of the scenario, for checking the theorems *)

(** L1, [kappa = 0]: objective 1/2 with the policy (1, 0). *)
Definition sol_l1_k0 : GRBSolution :=
  mkSolution GRB_OPTIMAL
    (Some [1 # 2; 0; 0; 1 # 2; 0; 0; 1 # 2; 0; 0; 0; 1 # 2; 1; 0])
    (Some [1 # 2; 1 # 2; 0; 1 # 2; 0; 1 # 2; 0; 1 # 2; 0])
    (Some (1 # 2)).

(** L1, [kappa = 1]: objective 1/4 with the policy (1/2, 1/2). *)
Definition sol_l1_k1 : GRBSolution :=
  mkSolution GRB_OPTIMAL
    (Some [1 # 4; 1 # 4; 0; 1 # 4; 1 # 4; 0; 1 # 4; 0; 0; 1 # 4; 1 # 4; 1 # 2; 1 # 2])
    (Some [1 # 4; 1 # 4; 1 # 4; 3 # 4; 1 # 4; 3 # 4; 1 # 4; 1 # 4; 1 # 4])
    (Some (1 # 4)).

(** L-infinity, [kappa = 0]: objective 1/2. *)
Definition sol_linf_k0 : GRBSolution :=
  mkSolution GRB_OPTIMAL
    (Some [1 # 2; 0; 0; 1 # 2; 0; 0; 1 # 2; 0; 0; 0; 1; 1; 0])
    (Some [1 # 2; 1 # 2; 0; 1 # 2; 1 # 2; 0; 1 # 2])
    (Some (1 # 2)).

(** L-infinity, [kappa = 1]: objective 0. *)
Definition sol_linf_k1 : GRBSolution :=
  mkSolution GRB_OPTIMAL
    (Some [0; 0; 0; 0; 0; 0; 0; 0; 0; 0; 0; 1 # 2; 1 # 2])
    (Some [0; 1; 1 # 2; 1; 0; 1 # 2; 0])
    (Some 0).

(** A solver for the programs of the scenario: it tells the budget from the
    objective coefficient of [lambda] (column 10) and the program from the
    number of rows. *)
Definition scenario_solver (m : GRBModel) : GRBSolution :=
  let l1 := (length (constrs m) =? 9)%nat in
  if Qeq_bool (coef (le_terms (objective m)) 10%nat) 0
  then (if l1 then sol_l1_k0 else sol_linf_k0)
  else (if l1 then sol_l1_k1 else sol_linf_k1).

(** The dual values of the rows named [name], the dual values being listed
    from the first row on. *)
Fixpoint pick_named (name : string) (cs : list GRBConstr) (pi : list Q) : list Q :=
  match cs, pi with
  | c :: cs', p :: pi' =>
      if String.eqb (ConstrName c) name
      then p :: pick_named name cs' pi'
      else pick_named name cs' pi'
  | _, _ => []
  end.

(** ** The non-robust value *)

(** Absolute index of the first outcome of action [a]. *)
Definition offset (pbar : numvecvec) (a : nat) : nat :=
  nstateactions (firstn a pbar).

(** The action and outcome of the absolute index [i], from action [a] on. *)
Fixpoint locate (rows : numvecvec) (a i : nat) : nat * nat :=
  match rows with
  | [] => (a, i)
  | r :: rows' =>
      if (i <? length r)%nat then (a, i) else locate rows' (S a) (i - length r)
  end.

(** [z[a] . pbar[a]], the nominal value of action [a]. *)
Definition nominal_value (z pbar : numvecvec) (a : nat) : Q :=
  sum_states (fun s p => zval z a s * p) 0 (nth a pbar []).

(** A distribution in exact arithmetic. *)
Definition is_distribution (d : numvec) : Prop :=
  Forall (fun q => 0 <= q) d /\ sumQ d == 1.

(** [sum_a d_a * (z[a] . pbar[a])] *)
Definition policy_value (z pbar : numvecvec) (d : numvec) : Q :=
  sum_range 0 (length pbar) (fun a => nth a d 0 * nominal_value z pbar a).

(** [V = max_d sum_a d_a * (z[a] . pbar[a])], [d] ranging over the
    distributions over the actions. *)
Definition nonrobust_value (z pbar : numvecvec) (V : Q) : Prop :=
  (forall d, length d = length pbar -> is_distribution d ->
             policy_value z pbar d <= V) /\
  (exists d, length d = length pbar /\ is_distribution d /\
             policy_value z pbar d == V).

(** Every weight that the L1 builder reads is positive (true without [w]). *)
Definition weights_positive (w pbar : numvecvec) : Prop :=
  forall a s, (a < length pbar)%nat -> (s < length (nth a pbar []))%nat ->
              0 < weight_of w a s.

(** A point given by one function per family of columns. *)
Definition assemble (pbar : numvecvec) (fx fyp fyn : nat -> Q) (lam : Q)
    (fd : nat -> Q) : list Q :=
  map fx (seq 0 (length pbar)) ++ map fyp (seq 0 (nstateactions pbar))
  ++ map fyn (seq 0 (nstateactions pbar)) ++ [lam]
  ++ map fd (seq 0 (length pbar)).

Section Attain.
Variables (z pbar w : numvecvec) (d : numvec).

(** A feasible point whose objective is the value of the policy [d] at
    [kappa = 0]: [x_a = d_a * (z[a] . pbar[a])], [yp_i - yn_i] equal to
    [x_a - d_a * z[a][s]], and [lambda] large enough for the budget rows. *)
Definition att_x (a : nat) : Q := nth a d 0 * nominal_value z pbar a.
Definition att_t (i : nat) : Q :=
  let '(a, s) := locate pbar 0 i in att_x a - nth a d 0 * zval z a s.
Definition att_yn (i : nat) : Q := att_t i * att_t i + 1.
Definition att_yp (i : nat) : Q := att_t i * att_t i + 1 + att_t i.
Definition att_w (i : nat) : Q :=
  let '(a, s) := locate pbar 0 i in weight_of w a s.
Definition att_lambda_l1 : Q :=
  sum_range 0 (nstateactions pbar) (fun i => (att_yp i + att_yn i) / att_w i).
Definition att_lambda_linf : Q :=
  sum_range 0 (nstateactions pbar) (fun i => att_yp i + att_yn i).
Definition att_point_l1 : list Q :=
  assemble pbar att_x att_yp att_yn att_lambda_l1 (fun a => nth a d 0).
Definition att_point_linf : list Q :=
  assemble pbar att_x att_yp att_yn att_lambda_linf (fun a => nth a d 0).
End Attain.

(** Weights that are all zero, and an optimal solution of the L1 program of
    the scenario under them ([kappa = 0]): objective 0. *)
Definition w_zero : numvecvec := [[0; 0]; [0; 0]].
Definition sol_l1_w_zero : GRBSolution :=
  mkSolution GRB_OPTIMAL
    (Some [0; 0; 0; 0; 0; 0; 0; 0; 0; 0; 0; 1; 0])
    (Some [0; 0; 1 # 2; 1; 1 # 2; 1; 1 # 2; 0; 1 # 2])
    (Some 0).

(** ** Side conditions of the loops *)

(** What the reads of one action need. *)
Definition action_reads_ok (z w : numvecvec) (vs : srect_vars) (a i n : nat) : Prop :=
  (a < length (v_x vs))%nat /\ (a < length (v_d vs))%nat /\
  (i + n <= length (v_yp vs))%nat /\ (i + n <= length (v_yn vs))%nat /\
  (a < length z)%nat /\ (n <= length (nth a z []))%nat /\
  ((0 < length w)%nat -> (a < length w)%nat /\ (n <= length (nth a w []))%nat).

(** What the reads of the actions from [a] on need, [rows] being the rows
    of [pbar] from [a] on. *)
Definition actions_read_ok (z w : numvecvec) (vs : srect_vars) (a i : nat) (rows : numvecvec) : Prop :=
  (a + length rows <= length (v_x vs))%nat /\
  (a + length rows <= length (v_d vs))%nat /\
  (i + fold_left Nat.add (map (@length Q) rows) 0 <= length (v_yp vs))%nat /\
  (i + fold_left Nat.add (map (@length Q) rows) 0 <= length (v_yn vs))%nat /\
  (forall k, (k < length rows)%nat ->
     (a + k < length z)%nat /\
     (length (nth k rows []) <= length (nth (a + k) z []))%nat /\
     ((0 < length w)%nat ->
        (a + k < length w)%nat /\
        (length (nth k rows []) <= length (nth (a + k) w []))%nat)).

(* ================================================================== *)
(** * craam/definitions.hpp: the helpers on vectors *)
(* ================================================================== *)

(** The arithmetic of [prec_t] that [linspace] and [multiply] use beyond
    [PrecOps]: product, quotient and the conversion of an integer. *)
Class PrecArith (T : Type) : Type := {
  p_mul : T -> T -> T;
  p_div : T -> T -> T;
  p_of_Z : Z -> T
}.

#[export] Instance PrecArith_Q : PrecArith Q := {
  p_mul := Qmult;
  p_div := Qdiv;
  p_of_Z := inject_Z
}.

(** [size_t] arithmetic wraps at [2^64]; [int(n)] of a size keeps the low
    32 bits, read in two's complement. *)
Definition size_wrap (n : Z) : Z := (n mod 2 ^ 64)%Z.
Definition int_of_size (n : nat) : Z :=
  ((Z.of_nat n + 2 ^ 31) mod 2 ^ 32 - 2 ^ 31)%Z.

Section VectorArithmetic.
Context {T : Type} `{PrecOps T} `{PrecArith T}.

(** [l1norm(p1, p2)]: [for (i < p1.size()) result += abs(p1[i] - p2[i])]. *)
Definition l1norm (p1 p2 : list T) : outcome T :=
  for_each (fun i (_ : T) result =>
              a <- at_ p1 i ;;
              b <- at_ p2 i ;;
              Return (p_add result (p_abs (p_sub a b))))
           0 p1 p_zero.

(** What the loop of [l1norm] has in [result] after the positions that [p1]
    and [p2] share, starting from [acc]. *)
Fixpoint l1norm_acc (acc : T) (p1 p2 : list T) : T :=
  match p1, p2 with
  | a :: p1', b :: p2' => l1norm_acc (p_add acc (p_abs (p_sub a b))) p1' p2'
  | _, _ => acc
  end.

(** The loop of [linspace]: [*x = val] for every position of [xs], [val]
    growing by [h] between two positions. *)
Fixpoint linspace_loop (val h : T) (xs : list T) : list T :=
  match xs with
  | [] => []
  | _ :: xs' => val :: linspace_loop (p_add val h) h xs'
  end.

(** [linspace(a, b, N)]: [h = (b - a) / static_cast<T>(N - 1)], where
    [N - 1] is computed on [size_t]; [xs(N)] starts as [N] zeros. *)
Definition linspace (a b : T) (N : nat) : list T :=
  let h := p_div (p_sub b a) (p_of_Z (size_wrap (Z.of_nat N - 1))) in
  linspace_loop a h (repeat p_zero N).

(** The loop [for (int i = 0; i < int(vct.size()); ++i) vct[i] *= value]. *)
Definition multiply_body (value : T) (i : nat) (vct : list T) : outcome (list T) :=
  x <- at_ vct i ;; store vct i (p_mul x value).

(** [multiply_inplace(vct, value)]: the vector after the call. *)
Definition multiply_inplace (vct : list T) (value : T) : outcome (list T) :=
  for_each (fun i (_ : nat) vct => multiply_body value i vct) 0
           (seq 0 (Z.to_nat (int_of_size (length vct)))) vct.

(** [multiply(vct, value)]: the same loop on the copy that is returned. *)
Definition multiply (vct : list T) (value : T) : outcome (list T) :=
  for_each (fun i (_ : nat) vct => multiply_body value i vct) 0
           (seq 0 (Z.to_nat (int_of_size (length vct)))) vct.
End VectorArithmetic.

(** ** [zip] and [unzip] *)

Section Zip.
Context {T1 T2 : Type}.
(** The values of [T1()] and [T2()], with which [result(n)] is filled. *)
Variables (init1 : T1) (init2 : T2).

(** [zip(const vector<T1>&, const vector<T2>&)] *)
Definition zip (v1 : list T1) (v2 : list T2) : outcome (list (T1 * T2)) :=
  _ <- assert (length v1 =? length v2)%nat ;;
  for_each (fun i (_ : T1) result =>
              a <- at_ v1 i ;;
              b <- at_ v2 i ;;
              store result i (a, b))
           0 v1 (repeat (init1, init2) (length v1)).

(** [zip(const vector<vector<T1>>&, const vector<vector<T2>>&)] *)
Definition zip_rows (v1 : list (list T1)) (v2 : list (list T2))
    : outcome (list (list (T1 * T2))) :=
  _ <- assert (length v1 =? length v2)%nat ;;
  for_each (fun i (_ : list T1) result =>
              a <- at_ v1 i ;;
              b <- at_ v2 i ;;
              r <- zip a b ;;
              store result i r)
           0 v1 (repeat [] (length v1)).

(** [zip(const T1&, const vector<T2>&)] *)
Definition zip_value (v1 : T1) (v2 : list T2) : outcome (list (T1 * T2)) :=
  for_each (fun i (_ : T2) result =>
              b <- at_ v2 i ;;
              store result i (v1, b))
           0 v2 (repeat (init1, init2) (length v2)).

(** [zip(const T1&, const vector<vector<T2>>&)] *)
Definition zip_value_rows (v1 : T1) (v2 : list (list T2))
    : outcome (list (list (T1 * T2))) :=
  for_each (fun i (_ : list T2) result =>
              b <- at_ v2 i ;;
              r <- zip_value v1 b ;;
              store result i r)
           0 v2 (repeat [] (length v2)).
End Zip.

(** [unzip(values)]: [push_back] of the two components of every pair. *)
Definition unzip {T1 T2 : Type} (values : list (T1 * T2)) : list T1 * list T2 :=
  fold_left (fun '(first, second) x => (first ++ [fst x], second ++ [snd x]))
            values ([], []).

(** ** [clamp] *)

(** [clamp(v, lo, hi, comp)]:
    [assert(!comp(hi, lo)), comp(v, lo) ? lo : comp(hi, v) ? hi : v]. *)
Definition clamp_comp {T : Type} (v lo hi : T) (comp : T -> T -> bool) : outcome T :=
  _ <- assert (negb (comp hi lo)) ;;
  Return (if comp v lo then lo else if comp hi v then hi else v).

(** [clamp(v, lo, hi)] is [clamp(v, lo, hi, std::less<>())]; on [long]. *)
Definition clamp (v lo hi : Z) : outcome Z := clamp_comp v lo hi Z.ltb.

(** The two functions above exist only where the library has no [clamp]
    ([#ifndef __cpp_lib_clamp]).  From C++17 on the library has one, and an
    unqualified [clamp] in a file that is [using namespace std] is
    [std::clamp].  A build is of either kind; the second kind comes with the
    library's function.  [std::clamp] has no [assert]: it is taken as a
    function that returns a value on every input, the value that the
    standard fixes when [lo <= hi] ([std_clamp_spec] below) and any value
    otherwise. *)
Inductive clamp_build : Type :=
  | craam_clamp
  | library_clamp (std_clamp : Z -> Z -> Z -> Z).

(** What the standard says of [std::clamp(v, lo, hi)]: [lo] if [v < lo],
    [hi] if [hi < v], otherwise [v] - when [hi < lo] does not hold, and
    nothing at all when it does. *)
Definition std_clamp_spec (std_clamp : Z -> Z -> Z -> Z) : Prop :=
  forall v lo hi : Z,
    (lo <= hi)%Z ->
    std_clamp v lo hi = if (v <? lo)%Z then lo else if (hi <? v)%Z then hi else v.

(** The unqualified call [clamp(v, lo, hi)] on [long], by the build. *)
Definition clamp_call (build : clamp_build) (v lo hi : Z) : outcome Z :=
  match build with
  | craam_clamp => clamp v lo hi
  | library_clamp std_clamp => Return (std_clamp v lo hi)
  end.

(** [next], the result of [clamp(_, 0, capacity)], lies between the two
    bounds: so it does where [clamp] is craam's, and where it is the
    library's and the call keeps to the contract of the standard. *)
Definition clamped (build : clamp_build) (capacity next : Z) : Prop :=
  match build with
  | craam_clamp => (0 <= next <= capacity)%Z
  | library_clamp std_clamp =>
      std_clamp_spec std_clamp -> (0 <= capacity)%Z -> (0 <= next <= capacity)%Z
  end.

(** A library function that keeps to the standard: [min(max(v, lo), hi)]. *)
Definition min_max_clamp (v lo hi : Z) : Z := Z.min (Z.max v lo) hi.

(** ** [to_string] *)

(** A [std::stringstream] as far as [to_string] uses it: the characters
    held, the put position and the fail bit. *)
Record stringstream : Type := mkStream {
  ss_buf : list Ascii.ascii;
  ss_pos : nat;
  ss_fail : bool
}.

Definition ss_new : stringstream := mkStream [] 0 false.

(** [ss << s]: the characters go in from the put position on, over those
    that are there; nothing is written once the stream has failed. *)
Definition ss_put (ss : stringstream) (s : string) : stringstream :=
  if ss_fail ss then ss
  else
    let cs := list_ascii_of_string s in
    mkStream (firstn (ss_pos ss) (ss_buf ss) ++ cs
              ++ skipn (ss_pos ss + length cs) (ss_buf ss))
             (ss_pos ss + length cs) false.

(** [ss.tellp()], -1 on a stream that has failed. *)
Definition tellp (ss : stringstream) : Z :=
  if ss_fail ss then (-1)%Z else Z.of_nat (ss_pos ss).

(** [ss.seekp(p)]: a position outside the characters held sets the fail
    bit. *)
Definition seekp (ss : stringstream) (p : Z) : stringstream :=
  if ss_fail ss then ss
  else if ((0 <=? p) && (p <=? Z.of_nat (length (ss_buf ss))))%Z
       then mkStream (ss_buf ss) (Z.to_nat p) false
       else mkStream (ss_buf ss) (ss_pos ss) true.

(** [ss.str()] *)
Definition str (ss : stringstream) : string := string_of_list_ascii (ss_buf ss).

(** [to_string(v)], [show] being [operator<<] on the elements. *)
Definition to_string {T : Type} (show : T -> string) (v : list T) : string :=
  let ss := ss_put ss_new "[" in
  let ss := fold_left (fun ss x => ss_put (ss_put ss (show x)) ",") v ss in
  let ss := seekp ss (tellp ss - 1) in
  let ss := ss_put ss "]" in
  str ss.

(* ================================================================== *)
(** * craam/optimization/srect_gurobi.hpp: more solutions and points *)
(* ================================================================== *)

(** An optimal solution of the L1 program of the scenario with
    [policy_eval = [0.5, 0.5]] and [kappa = 0] (rows: the two rows that pin
    the policy, then "P" and "psi" for every pair). *)
Definition sol_l1_pinned : GRBSolution :=
  mkSolution GRB_OPTIMAL
    (Some [1 # 4; 1 # 4; 0; 1 # 4; 1 # 4; 0; 1 # 4; 0; 0; 1 # 4; 1 # 4; 1 # 2; 1 # 2])
    (Some [1 # 2; 1 # 2; 1 # 2; 0; 1 # 2; 0; 1 # 2; 0; 1 # 2; 0])
    (Some (1 # 2)).


(* ================================================================== *)
(** * craam/simulators/population.hpp *)
(* ================================================================== *)

(** [pow] with an integral exponent and the conversion [long(x)] of a
    [prec_t]; the conversion has no value ([None]) where C++ leaves it
    undefined: outside the range of [long], and on infinities and NaN. *)
Class PrecConv (T : Type) : Type := {
  p_pow : T -> Z -> T;
  p_to_long : T -> option Z
}.

(** The range of [long] (64 bits). *)
Definition in_long (n : Z) : bool := ((- 2 ^ 63 <=? n) && (n <? 2 ^ 63))%Z.

#[export] Instance PrecConv_Q : PrecConv Q := {
  p_pow := Qpower;
  p_to_long q :=
    let t := Z.quot (Qnum q) (Zpos (Qden q)) in
    if in_long t then Some t else None
}.

(** Arithmetic on [long]: a result outside the range is undefined in C++,
    and ends the call like an access outside a vector does. *)
Definition long_result (n : Z) : outcome Z :=
  if in_long n then Return n else OutOfRange.

Definition to_long {T : Type} `{PrecConv T} (x : T) : outcome Z :=
  match p_to_long x with
  | Some n => Return n
  | None => OutOfRange
  end.

(** [enum class Growth]; [Growth_unlisted] stands for the values of the
    underlying type that are not enumerators. *)
Inductive Growth : Type := Exponential | Logistic | Growth_unlisted.

Section Population.
Context {T : Type} `{PrecOps T} `{PrecArith T} `{PrecConv T}.
(** The random engine, and a sample of [normal_distribution<prec_t>(mean,
    stddev)] and of [binomial_distribution<int>(t, p)] drawn from it. *)
Variable engine : Type.
Variable normal : T -> T -> engine -> T * engine.
Variable binomial : Z -> T -> engine -> Z * engine.

Record PopulationSim : Type := mkPopulationSim {
  initial_population : Z;
  carrying_capacity : Z;
  mean_growth_rate : T;
  std_growth_rate : T;
  std_observation : T;
  beta_1 : T;
  beta_2 : T;
  n_hat : Z;
  growth_model : Growth;
  gen : engine
}.

(** The constructor: the growth model starts as [Exponential]. *)
Definition PopulationSim_new (initial_population carrying_capacity : Z)
    (mean_growth_rate std_growth_rate std_observation beta_1 beta_2 : T)
    (n_hat : Z) (seed : engine) : PopulationSim :=
  mkPopulationSim initial_population carrying_capacity mean_growth_rate
                  std_growth_rate std_observation beta_1 beta_2 n_hat
                  Exponential seed.

Definition init_state (sim : PopulationSim) : Z := initial_population sim.
Definition end_condition (sim : PopulationSim) (population : Z) : bool := false.
Definition get_growth (sim : PopulationSim) : Growth := growth_model sim.

Definition set_growth (sim : PopulationSim) (model : Growth) : PopulationSim :=
  mkPopulationSim (initial_population sim) (carrying_capacity sim)
                  (mean_growth_rate sim) (std_growth_rate sim)
                  (std_observation sim) (beta_1 sim) (beta_2 sim) (n_hat sim)
                  model (gen sim).

(** The object after a call that drew samples: its engine has moved on. *)
Definition set_gen (sim : PopulationSim) (g : engine) : PopulationSim :=
  mkPopulationSim (initial_population sim) (carrying_capacity sim)
                  (mean_growth_rate sim) (std_growth_rate sim)
                  (std_observation sim) (beta_1 sim) (beta_2 sim) (n_hat sim)
                  (growth_model sim) g.

(** [std::max(a, b)] on [prec_t]: [(a < b) ? b : a]. *)
Definition max_prec (a b : T) : T := if p_ltb a b then b else a.

(** The population after the growth, by the model of growth; [clamp] is
    the one of the build. *)
Definition grow (build : clamp_build) (sim : PopulationSim) (growth_rate : T)
    (current_population : Z) : outcome Z :=
  match growth_model sim with
  | Exponential =>
      n <- to_long (p_mul growth_rate (p_of_Z current_population)) ;;
      clamp_call build n 0 (carrying_capacity sim)
  | Logistic =>
      room <- long_result (carrying_capacity sim - current_population) ;;
      (* a quotient by [prec_t(0)] is an infinity or a NaN *)
      if (carrying_capacity sim =? 0)%Z then OutOfRange
      else
        n <- to_long (p_div (p_mul (p_mul growth_rate (p_of_Z current_population))
                                   (p_of_Z room))
                            (p_of_Z (carrying_capacity sim))) ;;
        clamp_call build n 0 (carrying_capacity sim)
  | Growth_unlisted => Throw (invalid_argument "Unsupported population model.")
  end.

(** [transition(current_population, action)]: the reward, the population
    observed and the engine after the two samples. *)
Definition transition (build : clamp_build) (sim : PopulationSim)
    (current_population action : Z) : outcome (T * Z * engine) :=
  _ <- assert (0 <=? current_population)%Z ;;
  let action_multiplier := if (action =? 0)%Z then p_zero else p_one in
  excess <- long_result (current_population - n_hat sim) ;;
  let growth_rate_adj :=
    p_add (p_mul (p_mul action_multiplier (p_of_Z current_population)) (beta_1 sim))
          (p_mul (p_mul action_multiplier (p_pow (p_of_Z (Z.max excess 0)) 2))
                 (beta_2 sim)) in
  let exp_growth_rate :=
    max_prec p_zero (p_sub (mean_growth_rate sim) growth_rate_adj) in
  let '(growth_rate, g1) := normal exp_growth_rate (std_growth_rate sim) (gen sim) in
  next_population <- grow build sim growth_rate current_population ;;
  let '(observation, g2) :=
    normal (p_of_Z next_population) (std_observation sim) g1 in
  observed <- to_long observation ;;
  let observed_population := Z.max 0 observed in
  damage <- long_result (next_population * (-1)) ;;
  cost <- long_result (action * (-4000)) ;;
  reward <- long_result (damage + cost) ;;
  Return (p_of_Z reward, observed_population, g2).

(** [class PopulationPol]: the threshold, the probability of control and
    the engine of the policy (the reference to the simulator that the class
    also stores is never read). *)
Record PopulationPol : Type := mkPopulationPol {
  threshold_control : Z;
  prob_control : T;
  pol_gen : engine
}.

(** [operator()(current_state)]: the action and the engine afterwards. *)
Definition PopulationPol_call (pol : PopulationPol) (current_state : Z)
    : Z * engine :=
  if (threshold_control pol <=? current_state)%Z
  then binomial 1 (prob_control pol) (pol_gen pol)
  else (0%Z, pol_gen pol).
End Population.

Arguments mkPopulationSim {T engine}.
Arguments initial_population {T engine} p.
Arguments carrying_capacity {T engine} p.
Arguments mean_growth_rate {T engine} p.
Arguments std_growth_rate {T engine} p.
Arguments std_observation {T engine} p.
Arguments beta_1 {T engine} p.
Arguments beta_2 {T engine} p.
Arguments n_hat {T engine} p.
Arguments growth_model {T engine} p.
Arguments gen {T engine} p.
Arguments PopulationSim_new {T engine}.
Arguments init_state {T engine} sim.
Arguments end_condition {T engine} sim population.
Arguments get_growth {T engine} sim.
Arguments set_growth {T engine} sim model.
Arguments set_gen {T engine} sim g.
Arguments grow {T _ _ engine} build sim growth_rate current_population.
Arguments transition {T _ _ _ engine} normal build sim current_population action.
Arguments mkPopulationPol {T engine}.
Arguments threshold_control {T engine} p.
Arguments prob_control {T engine} p.
Arguments pol_gen {T engine} p.
Arguments PopulationPol_call {T engine} binomial pol current_state.

(** A sampler for running the simulator: the engine counts the samples
    drawn, a normal sample is its mean, a binomial sample its number of
    trials. *)
Definition mean_sampler (mean stddev : Q) (g : nat) : Q * nat := (mean, S g).
Definition trials_sampler (t : Z) (p : Q) (g : nat) : Z * nat := (t, S g).
Definition sim_example : PopulationSim nat :=
  PopulationSim_new 10 100 (3 # 2) (1 # 10) 1 (1 # 100) (1 # 1000) 20 0%nat.

(** The same simulator with a negative carrying capacity. *)
Definition sim_negative_capacity : PopulationSim nat :=
  PopulationSim_new 10 (-5) (3 # 2) (1 # 10) 1 (1 # 100) (1 # 1000) 20 0%nat.

(* ================================================================== *)
(** * Linear programming facts about a model *)
(* ================================================================== *)

Lemma sum_range_ext (j n : nat) (f g : nat -> Q) :
  (forall k, (j <= k < j + n)%nat -> f k == g k) ->
  sum_range j n f == sum_range j n g.
Proof.
  revert j; induction n as [|n IH]; intros j Hfg; simpl.
  - reflexivity.
  - rewrite (Hfg j) by lia. rewrite (IH (S j)).
    + reflexivity.
    + intros k Hk. apply Hfg. lia.
Qed.

Lemma sum_range_plus (j n : nat) (f g : nat -> Q) :
  sum_range j n (fun k => f k + g k) == sum_range j n f + sum_range j n g.
Proof.
  revert j; induction n as [|n IH]; intros j; simpl.
  - lra.
  - rewrite IH. lra.
Qed.

Lemma sum_range_scale (j n : nat) (c : Q) (f : nat -> Q) :
  sum_range j n (fun k => c * f k) == c * sum_range j n f.
Proof.
  revert j; induction n as [|n IH]; intros j; simpl.
  - lra.
  - rewrite IH. lra.
Qed.

Lemma sum_range_zero (j n : nat) (f : nat -> Q) :
  (forall k, (j <= k < j + n)%nat -> f k == 0) -> sum_range j n f == 0.
Proof.
  revert j; induction n as [|n IH]; intros j Hf; simpl.
  - reflexivity.
  - rewrite (Hf j) by lia. rewrite IH.
    + lra.
    + intros k Hk. apply Hf. lia.
Qed.

Lemma sum_range_nonpos (j n : nat) (f : nat -> Q) :
  (forall k, (j <= k < j + n)%nat -> f k <= 0) -> sum_range j n f <= 0.
Proof.
  revert j; induction n as [|n IH]; intros j Hf; simpl.
  - lra.
  - assert (f j <= 0) by (apply Hf; lia).
    assert (sum_range (S j) n f <= 0) by (apply IH; intros k Hk; apply Hf; lia).
    lra.
Qed.

(** Only column [k] contributes to a sum weighted by the indicator of [k]. *)
Lemma sum_range_pick (j n k : nat) (c : Q) (g : nat -> Q) :
  (j <= k < j + n)%nat ->
  sum_range j n (fun i => (if Nat.eqb k i then c else 0) * g i) == c * g k.
Proof.
  revert j; induction n as [|n IH]; intros j Hk; simpl.
  - lia.
  - destruct (Nat.eqb_spec k j) as [->|Hne].
    + rewrite sum_range_zero.
      * lra.
      * intros i Hi. destruct (Nat.eqb_spec j i); [lia | lra].
    + rewrite IH by lia. lra.
Qed.

(** A list of terms evaluates to the sum, over the columns, of coefficient
    times value. *)
Lemma eval_terms_coef (n : nat) (ts : list (Q * GRBVar)) (v : list Q) :
  terms_wf n ts ->
  eval_terms ts v == sum_range 0 n (fun j => coef ts j * val v j).
Proof.
  induction ts as [|[c k] ts IH]; intros Hwf; simpl.
  - symmetry. apply sum_range_zero. intros; lra.
  - inversion Hwf as [|? ? Hk Hts]; subst. simpl in Hk.
    rewrite (sum_range_ext 0 n _
               (fun j => (if Nat.eqb k j then c else 0) * val v j
                         + coef ts j * val v j)) by (intros; lra).
    rewrite sum_range_plus, sum_range_pick by lia.
    rewrite IH by assumption. reflexivity.
Qed.

Lemma eval_terms_diff (n : nat) (ts : list (Q * GRBVar)) (v x : list Q) :
  terms_wf n ts ->
  eval_terms ts v - eval_terms ts x
  == sum_range 0 n (fun j => coef ts j * (val v j - val x j)).
Proof.
  intros Hwf.
  rewrite (eval_terms_coef n ts v Hwf), (eval_terms_coef n ts x Hwf).
  assert (E : forall a b s, s == a + (- (1)) * b -> a - b == s) by (intros; lra).
  apply E.
  rewrite <- (sum_range_scale 0 n (- (1)) (fun j => coef ts j * val x j)).
  rewrite <- sum_range_plus.
  apply sum_range_ext. intros k _. lra.
Qed.

Lemma col_price_pairing (n : nat) (cs : list GRBConstr) (pi : list Q)
    (g : nat -> Q) :
  sum_range 0 n (fun j => col_price cs pi j * g j)
  == dual_pairing cs pi (fun c => sum_range 0 n (fun j => coef (row c) j * g j)).
Proof.
  revert pi; induction cs as [|c cs IH]; intros pi; simpl.
  - apply sum_range_zero. intros; lra.
  - destruct pi as [|p pi].
    + apply sum_range_zero. intros; lra.
    + rewrite <- IH, <- sum_range_scale, <- sum_range_plus.
      apply sum_range_ext. intros; lra.
Qed.

Lemma Forall2_val {A} (P : A -> Q -> Prop) (l : list A) (v : list Q) (d : A)
    (j : nat) :
  Forall2 P l v -> (j < length l)%nat -> P (nth j l d) (val v j).
Proof.
  intros HF; revert j; induction HF as [|a q l v Ha HF IH]; intros j Hj; simpl in *.
  - lia.
  - destruct j as [|j]; [exact Ha | apply IH; lia].
Qed.

Lemma rc_compl_all_nth (m : GRBModel) (pi x : list Q) (vs : list GRBVarInfo)
    (j0 k : nat) (d : GRBVarInfo) :
  rc_compl_all m pi x vs j0 -> (k < length vs)%nat ->
  rc_compl (nth k vs d) (val x (j0 + k)%nat) (reduced_cost m pi (j0 + k)%nat).
Proof.
  revert j0 k; induction vs as [|vi vs IH]; intros j0 k Hall Hk; simpl in *.
  - lia.
  - destruct Hall as [H0 Hrest]. destruct k as [|k].
    + now rewrite Nat.add_0_r.
    + replace (j0 + S k)%nat with (S j0 + k)%nat by lia. apply IH; [assumption | lia].
Qed.

(** A column's reduced cost times any feasible move away from the optimal
    value is not positive. *)
Lemma rc_move_nonpos (vi : GRBVarInfo) (xj vj rc : Q) :
  rc_compl vi xj rc -> bounds_hold 0 vi xj -> bounds_hold 0 vi vj ->
  rc * (vj - xj) <= 0.
Proof.
  intros [Hpos Hneg] [Hlx Hux] [Hlv Huv].
  destruct (Qlt_le_dec 0 rc) as [Hp|Hnp].
  - specialize (Hpos Hp). unfold ub_holds in *.
    destruct (UB vi) as [|u|]; try contradiction.
    assert (vj - xj <= 0) by lra. nra.
  - destruct (Qlt_le_dec rc 0) as [Hn|Hnn].
    + specialize (Hneg Hn). unfold lb_holds in *.
      destruct (LB vi) as [|l|]; try contradiction.
      assert (0 <= vj - xj) by lra. nra.
    + assert (rc == 0) by lra. nra.
Qed.

(** A row's dual value times the row at a feasible point, measured from the
    optimal point, is not positive. *)
Lemma dual_move_nonpos (x v : list Q) (cs : list GRBConstr) (pi : list Q) :
  Forall2 dual_sign cs pi -> Forall2 (slack_compl x) cs pi ->
  Forall (constr_holds 0 v) cs ->
  dual_pairing cs pi (fun c => eval_terms (row c) v - eval_terms (row c) x) <= 0.
Proof.
  intros Hs; revert v; induction Hs as [|c p cs pi Hsign Hs IH];
    intros v Hsl Hv; simpl.
  - lra.
  - inversion Hsl as [|? ? ? ? Hc Hsl']; subst.
    inversion Hv as [|? ? Hcv Hv']; subst.
    specialize (IH v Hsl' Hv').
    unfold slack_compl in Hc. unfold dual_sign in Hsign.
    unfold constr_holds, sense_holds in Hcv.
    assert (p * (eval_terms (row c) v - RHS c) <= 0).
    { destruct (Sense c).
      - assert (eval_terms (row c) v - RHS c <= 0) by lra. nra.
      - assert (eval_terms (row c) v - RHS c == 0) by lra. nra.
      - assert (0 <= eval_terms (row c) v - RHS c) by lra. nra. }
    nra.
Qed.

(** Weak duality: values that satisfy the optimality conditions bound the
    objective at every feasible point. *)
Theorem optimal_is_maximal (m : GRBModel) (x pi : list Q) (o : Q) (v : list Q) :
  model_wf m -> optimality_conditions m x pi o -> feasible m v ->
  eval (objective m) v <= o.
Proof.
  intros [Hwo Hwc] [Hsense [Hbx Hcx] Hsign Hslack Hrc Hobj] [Hbv Hcv].
  set (n := length (vars m)) in *.
  set (dlt := fun j => val v j - val x j).
  assert (Hdiff : eval (objective m) v - eval (objective m) x
                  == sum_range 0 n (fun j => reduced_cost m pi j * dlt j)
                     + sum_range 0 n (fun j => col_price (constrs m) pi j * dlt j)).
  { unfold eval.
    assert (E : forall a b c s, a - b == s -> a + c - (b + c) == s) by (intros; lra).
    apply E. rewrite (eval_terms_diff n _ v x Hwo).
    rewrite <- sum_range_plus.
    apply sum_range_ext. intros k _. unfold reduced_cost, dlt. lra. }
  assert (H1 : sum_range 0 n (fun j => reduced_cost m pi j * dlt j) <= 0).
  { apply sum_range_nonpos. intros k Hk. unfold dlt.
    apply (rc_move_nonpos (nth k (vars m) (mkVar NegInf PosInf EmptyString))).
    - apply (rc_compl_all_nth m pi x (vars m) 0 k); [assumption | lia].
    - apply Forall2_val; [assumption | lia].
    - apply Forall2_val; [assumption | lia]. }
  assert (H2 : sum_range 0 n (fun j => col_price (constrs m) pi j * dlt j) <= 0).
  { rewrite col_price_pairing.
    assert (E : dual_pairing (constrs m) pi
                  (fun c => sum_range 0 n (fun j => coef (row c) j * dlt j))
                == dual_pairing (constrs m) pi
                     (fun c => eval_terms (row c) v - eval_terms (row c) x)).
    { clear - Hwc. revert pi. induction (constrs m) as [|c cs IH]; intros pi; simpl.
      - reflexivity.
      - destruct pi as [|p pi]; [reflexivity|].
        inversion Hwc as [|? ? Hc Hcs]; subst.
        rewrite (IH Hcs pi).
        rewrite (eval_terms_diff n _ v x Hc). reflexivity. }
    rewrite E. apply dual_move_nonpos; assumption. }
  lra.
Qed.

(* ================================================================== *)
(** * The source builds the programs in closed form *)
(* ================================================================== *)

#[local] Arguments at_ {A} v i : simpl never.

Lemma Qplus_0_r_eq (q : Q) : q + 0 = q.
Proof.
  destruct q as [n d]. unfold Qplus; simpl.
  now rewrite Z.mul_1_r, Z.add_0_r, Pos.mul_1_r.
Qed.

Lemma at_nth {A} (v : list A) (i : nat) (d : A) :
  (i < length v)%nat -> at_ v i = Return (nth i v d).
Proof.
  intros Hi. unfold at_.
  destruct (nth_error v i) as [a|] eqn:E.
  - now rewrite (nth_error_nth v i d E).
  - apply nth_error_None in E. lia.
Qed.

Lemma at_var (l : list GRBVar) (i : nat) :
  (i < length l)%nat -> at_ l i = Return (var_at l i).
Proof. apply at_nth. Qed.

Lemma at_row (v : numvec) (i : nat) :
  (i < length v)%nat -> at_ v i = Return (nth i v 0).
Proof. apply at_nth. Qed.

Lemma at_rows (v : numvecvec) (i : nat) :
  (i < length v)%nat -> at_ v i = Return (nth i v []).
Proof. apply at_nth. Qed.

Lemma add_rows_nil (m : GRBModel) : add_rows m [] = m.
Proof. destruct m; unfold add_rows; simpl. now rewrite app_nil_r. Qed.

Lemma add_rows_app (m : GRBModel) (r1 r2 : list GRBConstr) :
  add_rows (add_rows m r1) r2 = add_rows m (r1 ++ r2).
Proof. unfold add_rows; simpl. now rewrite app_assoc. Qed.

Lemma addConstr_add_rows (m : GRBModel) (tc : GRBTempConstr) (name : string) :
  addConstr m tc name = add_rows m [mk_row tc name].
Proof. reflexivity. Qed.

Lemma add_obj_terms_nil (e : GRBLinExpr) : add_obj_terms e [] = e.
Proof. destruct e; unfold add_obj_terms; simpl. now rewrite app_nil_r. Qed.

Lemma add_obj_terms_app (e : GRBLinExpr) (t1 t2 : list (Q * GRBVar)) :
  add_obj_terms (add_obj_terms e t1) t2 = add_obj_terms e (t1 ++ t2).
Proof. unfold add_obj_terms; simpl. now rewrite app_assoc. Qed.

Lemma le_add_mul (e : GRBLinExpr) (c : Q) (v : GRBVar) :
  le_add e (le_mul c v) = add_obj_terms e [(c, v)].
Proof. unfold le_add, le_mul, add_obj_terms; simpl. now rewrite Qplus_0_r_eq. Qed.

Lemma le_add_var (e : GRBLinExpr) (v : GRBVar) :
  le_add e (le_var v) = add_obj_terms e [(1, v)].
Proof. unfold le_add, le_var, add_obj_terms; simpl. now rewrite Qplus_0_r_eq. Qed.

(** The read of the weight succeeds on rows that are long enough. *)
Lemma weight_read (w : numvecvec) (a s : nat) :
  ((0 < length w)%nat -> (a < length w)%nat /\ (s < length (nth a w []))%nat) ->
  (if (0 <? length w)%nat then w_a <- at_ w a ;; at_ w_a s else Return 1)
  = Return (weight_of w a s).
Proof.
  intros Hw. unfold weight_of.
  destruct (Nat.ltb_spec 0 (length w)) as [Hpos|Hz]; [|reflexivity].
  destruct (Hw Hpos) as [Ha Hs].
  rewrite (at_rows w a Ha). simpl. now rewrite (at_row _ s Hs).
Qed.

Section Loops.
Variables (z w : numvecvec) (vs : srect_vars).

Lemma l1_state_loop (a : nat) (row : numvec) :
  forall (s i : nat) (m : GRBModel) (obj : GRBLinExpr),
    action_reads_ok z w vs a (i - s) (s + length row) -> (s <= i)%nat ->
    for_each (l1_state_body z w vs a) s row (m, obj, i)
    = Return (add_rows m (l1_state_rows z w vs a s i row),
              add_obj_terms obj (state_terms vs i row),
              (i + length row)%nat).
Proof.
  induction row as [|p row IH]; intros s i m obj Hok Hsi; simpl.
  - now rewrite add_rows_nil, add_obj_terms_nil, Nat.add_0_r.
  - destruct Hok as (Hx & Hd & Hyp & Hyn & Hz & Hzs & Hw). simpl in *.
    rewrite (at_var _ _ Hx), (at_var _ _ Hd). simpl.
    rewrite (at_var (v_yp vs) i) by lia. rewrite (at_var (v_yn vs) i) by lia.
    simpl. rewrite (at_rows z a Hz). simpl.
    rewrite (at_row (nth a z []) s) by lia. simpl.
    rewrite (weight_read w a s) by (intros Hp; destruct (Hw Hp); split; [assumption | lia]).
    simpl. rewrite (IH (S s) (S i)).
    + rewrite !le_add_mul, !addConstr_add_rows, !add_rows_app, !add_obj_terms_app.
      simpl. do 3 f_equal. lia.
    + repeat split; try assumption; try lia.
    + lia.
Qed.

Lemma fold_left_add_shift (l : list nat) (n : nat) :
  fold_left Nat.add l n = (n + fold_left Nat.add l 0)%nat.
Proof.
  revert n; induction l as [|k l IH]; intros n; simpl.
  - lia.
  - rewrite (IH (n + k)%nat), (IH k). lia.
Qed.

Lemma actions_read_ok_head (a i : nat) (r : numvec) (rows : numvecvec) :
  actions_read_ok z w vs a i (r :: rows) ->
  action_reads_ok z w vs a i (length r) /\ actions_read_ok z w vs (S a) (i + length r) rows.
Proof.
  intros (Hx & Hd & Hyp & Hyn & Hk). simpl in *.
  rewrite fold_left_add_shift in Hyp, Hyn.
  split.
  - destruct (Hk 0%nat ltac:(lia)) as (Hz & Hzs & Hw).
    rewrite Nat.add_0_r in *. simpl in *.
    repeat split; try assumption; try lia.
  - split; [lia|]. split; [lia|]. split; [lia|]. split; [lia|].
    intros k Hlt. destruct (Hk (S k) ltac:(lia)) as (Hz & Hzs & Hw).
    replace (a + S k)%nat with (S a + k)%nat in * by lia.
    simpl in Hzs, Hw. auto.
Qed.

Lemma l1_action_loop (rows : numvecvec) :
  forall (a i : nat) (m : GRBModel) (obj : GRBLinExpr),
    actions_read_ok z w vs a i rows ->
    for_each (l1_action_body z w vs) a rows (m, obj, i)
    = Return (add_rows m (l1_action_rows z w vs a i rows),
              add_obj_terms obj (action_terms vs a i rows),
              (i + fold_left Nat.add (map (@length Q) rows) 0)%nat).
Proof.
  induction rows as [|r rows IH]; intros a i m obj Hok; simpl.
  - now rewrite add_rows_nil, add_obj_terms_nil, Nat.add_0_r.
  - destruct (actions_read_ok_head a i r rows Hok) as [Hhead Htail].
    assert (Hx : (a < length (v_x vs))%nat) by apply Hhead.
    rewrite (at_var _ _ Hx). simpl.
    rewrite l1_state_loop.
    + simpl. rewrite IH by assumption.
      rewrite le_add_var, add_rows_app, !add_obj_terms_app. simpl.
      rewrite (fold_left_add_shift _ (length r)). do 2 f_equal. lia.
    + simpl. now rewrite Nat.sub_0_r.
    + lia.
Qed.

Lemma pin_loop (policy_eval : numvec) :
  forall (i : nat) (m : GRBModel),
    (i + length policy_eval <= length (v_d vs))%nat ->
    for_each (fun i pe_i model =>
                d_i <- at_ (v_d vs) i ;;
                Return (addConstr model (tc_eq (le_var d_i) (le_dbl pe_i))
                                  EmptyString))
             i policy_eval m
    = Return (add_rows m (pin_rows vs i policy_eval)).
Proof.
  induction policy_eval as [|q pe IH]; intros i m Hlen; simpl in *.
  - now rewrite add_rows_nil.
  - rewrite (at_var (v_d vs) i) by lia. simpl.
    rewrite IH by lia. now rewrite addConstr_add_rows, add_rows_app.
Qed.

Lemma linf_state_loop (a : nat) (row : numvec) :
  forall (s i : nat) (m : GRBModel) (obj zd : GRBLinExpr),
    action_reads_ok z w vs a (i - s) (s + length row) -> (s <= i)%nat ->
    for_each (linf_state_body z vs a) s row (m, obj, i, zd)
    = Return (add_rows m (linf_state_rows z vs a s i row),
              add_obj_terms obj (state_terms vs i row),
              (i + length row)%nat,
              add_obj_terms zd (z_dual_terms vs i row)).
Proof.
  induction row as [|p row IH]; intros s i m obj zd Hok Hsi; simpl.
  - now rewrite add_rows_nil, !add_obj_terms_nil, Nat.add_0_r.
  - destruct Hok as (Hx & Hd & Hyp & Hyn & Hz & Hzs & Hw). simpl in *.
    rewrite (at_var _ _ Hx), (at_var _ _ Hd). simpl.
    rewrite (at_var (v_yp vs) i) by lia. rewrite (at_var (v_yn vs) i) by lia.
    simpl. rewrite (at_rows z a Hz). simpl.
    rewrite (at_row (nth a z []) s) by lia. simpl.
    rewrite (IH (S s) (S i)).
    + rewrite !le_add_mul, !addConstr_add_rows, !add_rows_app, !add_obj_terms_app.
      simpl. f_equal. f_equal.
      * f_equal. f_equal. lia.
      * unfold le_add, add_obj_terms; simpl.
        rewrite Qplus_0_r_eq, <- app_assoc. reflexivity.
    + repeat split; try assumption; try lia.
    + lia.
Qed.

Lemma linf_action_loop (rows : numvecvec) :
  forall (a i : nat) (m : GRBModel) (obj : GRBLinExpr),
    actions_read_ok z w vs a i rows ->
    for_each (linf_action_body z vs) a rows (m, obj, i)
    = Return (add_rows m (linf_action_rows z vs a i rows),
              add_obj_terms obj (action_terms vs a i rows),
              (i + fold_left Nat.add (map (@length Q) rows) 0)%nat).
Proof.
  induction rows as [|r rows IH]; intros a i m obj Hok; simpl.
  - now rewrite add_rows_nil, add_obj_terms_nil, Nat.add_0_r.
  - destruct (actions_read_ok_head a i r rows Hok) as [Hhead Htail].
    assert (Hx : (a < length (v_x vs))%nat) by apply Hhead.
    rewrite (at_var _ _ Hx). simpl.
    rewrite linf_state_loop.
    + simpl. rewrite addConstr_add_rows, IH by assumption.
      rewrite le_add_var, !add_rows_app, !add_obj_terms_app. simpl.
      rewrite (fold_left_add_shift _ (length r)).
      rewrite <- Nat.add_assoc. reflexivity.
    + simpl. now rewrite Nat.sub_0_r.
    + lia.
Qed.
End Loops.

#[local] Arguments at_ {A} v i : simpl never.

Lemma infos_repeat (f : ereal -> GRBVarInfo) (a d : ereal) (n : nat) :
  map (fun k => f (nth k (repeat a n) d)) (seq 0 n) = repeat (f a) n.
Proof.
  transitivity (map (fun _ : nat => f a) (seq 0 n)).
  - apply map_ext_in. intros k Hk. apply in_seq in Hk.
    now rewrite nth_repeat_lt by lia.
  - now rewrite map_const, length_seq.
Qed.

Lemma infos_default (vi : GRBVarInfo) (n : nat) :
  map (fun _ : nat => vi) (seq 0 n) = repeat vi n.
Proof. now rewrite map_const, length_seq. Qed.

Lemma add_variables_closed (pbar : numvecvec) (kappa : Q) :
  add_variables pbar kappa GRBModel_new = (base_model pbar kappa, layout pbar).
Proof.
  unfold base_model. unfold add_variables, addVars, addVar. cbn [fst snd vars GRBModel_new].
  rewrite !length_app, !length_map, !length_seq. cbn [length app].
  unfold layout. cbn [fst]. repeat f_equal; lia.
Qed.

Lemma base_model_vars (pbar : numvecvec) (kappa : Q) :
  vars (base_model pbar kappa) = var_infos pbar.
Proof.
  unfold base_model, add_variables, addVars, addVar. cbn [fst snd vars GRBModel_new].
  rewrite (infos_repeat (fun b => mkVar b PosInf EmptyString) NegInf).
  rewrite (infos_repeat (fun b => mkVar b PosInf EmptyString) (Real 0)).
  rewrite !infos_default. unfold var_infos. cbn [app].
  rewrite <- !app_assoc. reflexivity.
Qed.

Lemma base_model_constrs (pbar : numvecvec) (kappa : Q) :
  constrs (base_model pbar kappa) = [].
Proof. reflexivity. Qed.

Lemma covers_length (pbar other : numvecvec) :
  covers pbar other -> length pbar = length other.
Proof. apply Forall2_length. Qed.

Lemma covers_nth (pbar other : numvecvec) (k : nat) :
  covers pbar other -> (k < length pbar)%nat ->
  (length (nth k pbar []) <= length (nth k other []))%nat.
Proof.
  intros HF; revert k; induction HF as [|p r pbar other Hpr HF IH]; intros k Hk;
    simpl in *.
  - lia.
  - destruct k as [|k]; [assumption | apply IH; lia].
Qed.

Lemma layout_reads_ok (z pbar w : numvecvec) :
  covers pbar z -> (w = [] \/ covers pbar w) ->
  actions_read_ok z w (layout pbar) 0 0 pbar.
Proof.
  intros Hz Hw. unfold actions_read_ok, layout. cbn [v_x v_d v_yp v_yn].
  rewrite !length_seq. unfold nstateactions, statecounts.
  repeat split; try lia.
  - rewrite <- (covers_length _ _ Hz). lia.
  - now apply covers_nth.
  - destruct Hw as [->|Hw]; [simpl in *; lia|].
    rewrite <- (covers_length _ _ Hw). lia.
  - destruct Hw as [->|Hw]; [simpl in *; lia|]. now apply covers_nth.
Qed.

Lemma is_empty_spec {A} (v : list A) : is_empty v = true <-> v = [].
Proof. destruct v; simpl; split; congruence. Qed.

Lemma w_assert (z pbar w : numvecvec) :
  covers pbar z -> (w = [] \/ covers pbar w) ->
  is_empty w || (length w =? length z)%nat = true.
Proof.
  intros Hz [->|Hw]; [reflexivity|].
  rewrite <- (covers_length _ _ Hw), (covers_length _ _ Hz), Nat.eqb_refl.
  apply orb_true_r.
Qed.

(** On well-shaped input the L1 builder returns the program [l1_lp] and
    the columns [layout]. *)
Theorem srect_l1_model_closed (z pbar : numvecvec) (kappa : Q) (w : numvecvec)
    (policy_eval : list float) :
  shapes_ok z pbar w -> policy_eval_ok z policy_eval ->
  srect_l1_model z pbar kappa w policy_eval
  = Return (l1_lp z pbar kappa w (double_values policy_eval), layout pbar).
Proof.
  intros [Hz Hw] Hpe. unfold srect_l1_model.
  rewrite (covers_length _ _ Hz), Nat.eqb_refl. cbn [assert bind].
  rewrite (w_assert z pbar w Hz Hw). cbn [assert bind].
  rewrite add_variables_closed.
  assert (Hpol : l1_policy_constraints z pbar (layout pbar) policy_eval
                   (base_model pbar kappa)
                 = Return (add_rows (base_model pbar kappa)
                             (l1_policy_rows pbar (layout pbar)
                                             (double_values policy_eval)))).
  { unfold l1_policy_constraints, l1_policy_rows.
    destruct Hpe as [->|[Hlen Hdist]].
    - reflexivity.
    - destruct policy_eval as [|q pe]; [discriminate|].
      cbn [is_empty orb negb double_values map]. rewrite Hlen, Nat.eqb_refl.
      cbn [assert bind]. rewrite Hdist. cbn [assert bind].
      apply (pin_loop (layout pbar) (double_value q :: map double_value pe)).
      unfold layout; cbn [v_d]. rewrite length_seq.
      cbn [length] in *. rewrite length_map.
      rewrite (covers_length _ _ Hz). lia. }
  rewrite Hpol. cbn [bind].
  rewrite (l1_action_loop z w (layout pbar) pbar 0 0) by now apply layout_reads_ok.
  cbn [bind]. unfold l1_lp, setObjective, add_rows. cbn [vars constrs].
  rewrite base_model_vars, base_model_constrs. cbn [app].
  reflexivity.
Qed.

(** On well-shaped input the L-infinity builder returns the program
    [linf_lp] and the columns [layout], whatever the weights. *)
Theorem srect_linf_model_closed (z pbar : numvecvec) (kappa : Q) (w : numvecvec) :
  covers pbar z -> (w = [] \/ length w = length z) ->
  srect_linf_model z pbar kappa w = Return (linf_lp z pbar kappa, layout pbar).
Proof.
  intros Hz Hw. unfold srect_linf_model.
  assert (Hl := covers_length _ _ Hz).
  rewrite <- Hl, Nat.eqb_refl. cbn [assert bind].
  assert (Hwa : is_empty w || (length w =? length pbar)%nat = true).
  { destruct Hw as [->|Hw]; [reflexivity|].
    rewrite Hw, <- Hl, Nat.eqb_refl. apply orb_true_r. }
  rewrite Hwa. cbn [assert bind].
  rewrite add_variables_closed.
  rewrite (linf_action_loop z [] (layout pbar) pbar 0 0)
    by (apply layout_reads_ok; [assumption | now left]).
  cbn [bind]. unfold linf_lp, setObjective, addConstr3, add_rows. cbn [vars constrs].
  rewrite base_model_vars, base_model_constrs. cbn [app].
  reflexivity.
Qed.

(* ================================================================== *)
(** * Reading the solution back *)
(* ================================================================== *)

#[local] Arguments at_ {A} v i : simpl never.
#[local] Arguments l1_budgets_body sol j c budgets : simpl never.
#[local] Arguments linf_budgets_body sol j c st : simpl never.

Lemma get_attr_Return (a : option (list Q)) (j : nat) (p : Q) :
  get_attr a j = Return p -> (j < length (attr_list a))%nat /\ val (attr_list a) j = p.
Proof.
  unfold get_attr, val. destruct a as [l|]; [|discriminate].
  destruct (nth_error l j) as [q|] eqn:E; [|discriminate].
  intros [= <-]. simpl. split.
  - apply nth_error_Some. congruence.
  - now apply nth_error_nth.
Qed.

Lemma get_attr_Some (l : list Q) (j : nat) :
  (j < length l)%nat -> get_attr (Some l) j = Return (val l j).
Proof.
  intros Hj. unfold get_attr, val.
  destruct (nth_error l j) as [q|] eqn:E.
  - now rewrite (nth_error_nth l j 0 E).
  - apply nth_error_None in E. lia.
Qed.

(** ** The policy *)

Lemma retrieve_policy_closed (sol : GRBSolution) (x : list Q) (d : list GRBVar)
    (n : nat) :
  X sol = Some x ->
  forall i,
    (i + n <= length d)%nat ->
    (forall k, (k < length d)%nat -> (var_at d k < length x)%nat) ->
    retrieve_policy sol d i n
    = Return (map (fun a => val x (var_at d a)) (seq i n)).
Proof.
  intros HX. induction n as [|n IH]; intros i Hi Hd; simpl.
  - reflexivity.
  - rewrite (at_nth d i 0%nat) by lia. cbn [bind].
    unfold get_X. rewrite HX.
    rewrite get_attr_Some by (apply Hd; lia). cbn [bind].
    rewrite IH by (try assumption; lia). reflexivity.
Qed.

Lemma retrieve_policy_length (sol : GRBSolution) (d : list GRBVar) (n : nat) :
  forall i policy,
    retrieve_policy sol d i n = Return policy -> length policy = n.
Proof.
  induction n as [|n IH]; intros i policy; simpl.
  - now intros [= <-].
  - destruct (at_ d i) as [d_i| | |]; cbn [bind]; try discriminate.
    destruct (get_X sol d_i) as [p| | |]; cbn [bind]; try discriminate.
    destruct (retrieve_policy sol d (S i) n) as [rest| | |] eqn:E;
      cbn [bind]; try discriminate.
    intros [= <-]. simpl. f_equal. now apply (IH (S i)).
Qed.

(** ** The budgets of the L1 program *)

Lemma l1_budgets_loop_Return (sol : GRBSolution) (cs : list GRBConstr) :
  forall (j : nat) (acc b : numvec),
    for_each (l1_budgets_body sol) j cs acc = Return b ->
    b = acc ++ map (val (attr_list (Pi sol))) (rows_named "psi" cs j) /\
    Forall (fun k => (k < length (attr_list (Pi sol)))%nat) (rows_named "psi" cs j).
Proof.
  induction cs as [|c cs IH]; intros j acc b; simpl; try unfold l1_budgets_body at 1.
  - intros [= <-]. now rewrite app_nil_r.
  - destruct (String.eqb (ConstrName c) "psi").
    + unfold get_Pi. destruct (get_attr (Pi sol) j) as [p| | |] eqn:E;
        cbn [bind]; try discriminate.
      intros Hb. apply IH in Hb. destruct Hb as [-> HF].
      apply get_attr_Return in E. destruct E as [Hlt <-].
      simpl. rewrite <- app_assoc. split; [reflexivity | now constructor].
    + cbn [bind]. apply IH.
Qed.

Lemma l1_budgets_loop_closed (sol : GRBSolution) (pi : list Q)
    (cs : list GRBConstr) :
  Pi sol = Some pi ->
  forall (j : nat) (acc : numvec),
    (j + length cs <= length pi)%nat ->
    for_each (l1_budgets_body sol) j cs acc
    = Return (acc ++ map (val pi) (rows_named "psi" cs j)).
Proof.
  intros HPi. induction cs as [|c cs IH]; intros j acc Hlen; simpl in *;
    try unfold l1_budgets_body at 1.
  - now rewrite app_nil_r.
  - destruct (String.eqb (ConstrName c) "psi").
    + unfold get_Pi. rewrite HPi, get_attr_Some by lia. cbn [bind].
      rewrite IH by lia. simpl. now rewrite <- app_assoc.
    + cbn [bind]. apply IH. lia.
Qed.

(** ** The budgets of the L-infinity program *)

Lemma store_length {A} (v : list A) :
  forall (i : nat) (a : A) (v' : list A),
    store v i a = Return v' -> length v' = length v.
Proof.
  induction v as [|b v IH]; intros i a v'; simpl.
  - discriminate.
  - destruct i as [|i].
    + now intros [= <-].
    + destruct (store v i a) as [v''| | |] eqn:E; cbn [bind]; try discriminate.
      intros [= <-]. simpl. f_equal. now apply (IH i a).
Qed.

Lemma store_middle {A} (pre : list A) (b a : A) (post : list A) :
  store (pre ++ b :: post) (length pre) a = Return (pre ++ a :: post).
Proof.
  induction pre as [|c pre IH]; simpl.
  - reflexivity.
  - now rewrite IH.
Qed.

Lemma store_Return {A} (v : list A) :
  forall (i : nat) (a : A) (v' : list A),
    store v i a = Return v' ->
    (i < length v)%nat /\ v' = firstn i v ++ a :: skipn (S i) v.
Proof.
  induction v as [|b v IH]; intros i a v'; simpl.
  - discriminate.
  - destruct i as [|i].
    + intros [= <-]. split; [lia | reflexivity].
    + destruct (store v i a) as [v''| | |] eqn:E; cbn [bind]; try discriminate.
      intros [= <-]. destruct (IH i a v'' E) as [Hi ->]. split; [lia | reflexivity].
Qed.

Lemma linf_budgets_loop_Return (sol : GRBSolution) (cs : list GRBConstr) :
  forall (j : nat) (pre post b : numvec) (index' : nat),
    for_each (linf_budgets_body sol) j cs (pre ++ post, length pre)
    = Return (b, index') ->
    let duals := map (val (attr_list (Pi sol))) (rows_named "theta" cs j) in
    b = pre ++ duals ++ skipn (length duals) post /\
    (length duals <= length post)%nat /\
    Forall (fun k => (k < length (attr_list (Pi sol)))%nat) (rows_named "theta" cs j).
Proof.
  induction cs as [|c cs IH]; intros j pre post b index'; simpl;
    try unfold linf_budgets_body at 1.
  - intros [= <- <-]. repeat split; [lia | constructor].
  - destruct (String.eqb (ConstrName c) "theta").
    + unfold get_Pi. destruct (get_attr (Pi sol) j) as [p| | |] eqn:E;
        cbn [bind]; try discriminate.
      destruct (store (pre ++ post) (length pre) p) as [v'| | |] eqn:Es;
        cbn [bind]; try discriminate.
      apply get_attr_Return in E. destruct E as [Hlt <-].
      apply store_Return in Es. destruct Es as [Hi ->].
      rewrite length_app in Hi. destruct post as [|q post]; [simpl in Hi; lia|].
      rewrite firstn_app, firstn_all, Nat.sub_diag, firstn_O, app_nil_r.
      replace (skipn (S (length pre)) (pre ++ q :: post)) with post.
      2:{ change (S (length pre)) with (1 + length pre)%nat.
          rewrite <- skipn_skipn, skipn_app, skipn_all, Nat.sub_diag.
          reflexivity. }
      intros Hb.
      assert (Hb' : for_each (linf_budgets_body sol) (S j) cs
                      ((pre ++ [val (attr_list (Pi sol)) j]) ++ post,
                       length (pre ++ [val (attr_list (Pi sol)) j]))
                    = Return (b, index')).
      { rewrite <- app_assoc, length_app, Nat.add_comm. exact Hb. }
      apply IH in Hb'. destruct Hb' as (-> & Hlen & HF).
      simpl. rewrite <- app_assoc. simpl.
      repeat split; [lia | now constructor].
    + cbn [bind]. apply IH.
Qed.

Lemma linf_budgets_loop_closed (sol : GRBSolution) (pi : list Q)
    (cs : list GRBConstr) :
  Pi sol = Some pi ->
  forall (j : nat) (pre post : numvec),
    (j + length cs <= length pi)%nat ->
    (length (rows_named "theta" cs j) <= length post)%nat ->
    let duals := map (val pi) (rows_named "theta" cs j) in
    for_each (linf_budgets_body sol) j cs (pre ++ post, length pre)
    = Return (pre ++ duals ++ skipn (length duals) post,
              (length pre + length duals)%nat).
Proof.
  intros HPi. induction cs as [|c cs IH]; intros j pre post Hlen Hpost; simpl in *;
    try unfold linf_budgets_body at 1.
  - now rewrite Nat.add_0_r.
  - destruct (String.eqb (ConstrName c) "theta").
    + unfold get_Pi. rewrite HPi, get_attr_Some by lia. cbn [bind].
      destruct post as [|q post]; [simpl in Hpost; lia|].
      rewrite store_middle. cbn [bind].
      specialize (IH (S j) (pre ++ [val pi j]) post).
      rewrite <- app_assoc, length_app in IH. simpl in IH.
      replace (length pre + 1)%nat with (S (length pre)) in IH by lia.
      simpl in Hpost.
      rewrite IH by lia. simpl. rewrite <- app_assoc. simpl.
      do 2 f_equal. lia.
    + cbn [bind]. apply IH; lia.
Qed.

(* ================================================================== *)
(** * The distribution check and the assertions *)
(* ================================================================== *)

#[local] Arguments at_ {A} v i : simpl never.

Lemma Qltb_true (a b : Q) : Qltb a b = true <-> a < b.
Proof.
  unfold Qltb. rewrite negb_true_iff. split.
  - intros H. apply Qnot_le_lt. intros Hle. apply Qle_bool_iff in Hle. congruence.
  - intros H. destruct (Qle_bool b a) eqn:E; [|reflexivity].
    apply Qle_bool_iff in E. lra.
Qed.

Lemma Qltb_false (a b : Q) : Qltb a b = false <-> b <= a.
Proof.
  unfold Qltb. rewrite negb_false_iff. apply Qle_bool_iff.
Qed.

Lemma is_probability_dist_loop_nil (sum : Q) :
  is_probability_dist_loop sum [] = Qltb (Qabs (sum - 1)) EPSILON.
Proof. reflexivity. Qed.

Lemma is_probability_dist_loop_cons (sum x : Q) (rest : numvec) :
  is_probability_dist_loop sum (x :: rest)
  = if Qltb x 0 then false else is_probability_dist_loop (sum + x) rest.
Proof. reflexivity. Qed.

(** The loop accepts when the entries after the first are not negative and
    the total is within [EPSILON] of 1, whatever the sign of what has been
    summed so far. *)
Lemma is_probability_dist_loop_accepts (rest : numvec) :
  forall sum : Q,
    Forall (fun x => 0 <= x) rest ->
    Qabs (sum + sumQ rest - 1) < EPSILON ->
    is_probability_dist_loop sum rest = true.
Proof.
  induction rest as [|x rest IH]; intros sum Hnn Hsum.
  - rewrite is_probability_dist_loop_nil. apply Qltb_true.
    assert (E : sum - 1 == sum + sumQ [] - 1) by (simpl; lra).
    now rewrite E.
  - rewrite is_probability_dist_loop_cons.
    inversion Hnn as [|? ? Hx Hrest]; subst.
    assert (E : Qltb x 0 = false) by now apply Qltb_false.
    rewrite E. apply IH; [assumption|].
    assert (E2 : sum + x + sumQ rest - 1 == sum + sumQ (x :: rest) - 1)
      by (simpl; lra).
    now rewrite E2.
Qed.

(** The first element is summed but never compared with 0. *)
Lemma is_probability_dist_skips_first (first : Q) (rest : numvec) :
  Forall (fun x => 0 <= x) rest ->
  Qabs (first + sumQ rest - 1) < EPSILON ->
  is_probability_dist (first :: rest) = true.
Proof. apply is_probability_dist_loop_accepts. Qed.

(** C10.  The sequence [-0.5, 1.5] starts with a negative entry and sums to
    1, and [is_probability_dist] accepts it, in rational arithmetic and in
    binary64 alike: the loop starts at the second element.  As a
    [policy_eval] of two actions it therefore passes the assertion of
    [srect_l1_solve_gurobi], which goes on to build the program with the row
    [d_0 == -0.5]. *)
Theorem is_probability_dist_accepts_negative_first :
  let v : numvec := [- (1 # 2); 3 # 2] in
  let policy_eval : list float := [(-0.5)%float; 1.5%float] in
  nth 0 v 0 < 0 /\
  Qabs (sumQ v - 1) < EPSILON /\
  is_probability_dist v = true /\
  is_probability_dist policy_eval = true /\
  double_values policy_eval = v /\
  forall (z pbar : numvecvec) (kappa : Q) (w : numvecvec),
    shapes_ok z pbar w -> length z = 2%nat ->
    srect_l1_model z pbar kappa w policy_eval
    = Return (l1_lp z pbar kappa w v, layout pbar) /\
    In (mk_row (tc_eq (le_var (col_d pbar 0)) (le_dbl (- (1 # 2)))) EmptyString)
       (constrs (l1_lp z pbar kappa w v)).
Proof.
  cbv zeta. split; [reflexivity|]. split; [reflexivity|].
  split; [reflexivity|]. split; [reflexivity|]. split; [reflexivity|].
  intros z pbar kappa w Hs Hz. split.
  - change [- (1 # 2); 3 # 2] with (double_values [(-0.5)%float; 1.5%float]).
    apply srect_l1_model_closed; [assumption|]. right. now split.
  - unfold l1_lp. cbn [constrs]. apply in_or_app. left. left. reflexivity.
Qed.

(** [assert] failures of the two builders. *)
Lemma size_assert_fails (z pbar : numvecvec) (kappa : Q) (w : numvecvec)
    (policy_eval : list float) :
  length pbar <> length z ->
  srect_l1_model z pbar kappa w policy_eval = AssertionFailed /\
  srect_linf_model z pbar kappa w = AssertionFailed.
Proof.
  intros Hne. apply Nat.eqb_neq in Hne.
  unfold srect_l1_model, srect_linf_model. now rewrite Hne.
Qed.

Lemma weight_assert_fails (z pbar : numvecvec) (kappa : Q) (w : numvecvec)
    (policy_eval : list float) :
  length pbar = length z -> w <> [] -> length w <> length z ->
  srect_l1_model z pbar kappa w policy_eval = AssertionFailed /\
  srect_linf_model z pbar kappa w = AssertionFailed.
Proof.
  intros He Hw Hne. apply Nat.eqb_neq in Hne.
  unfold srect_l1_model, srect_linf_model. rewrite He, Nat.eqb_refl, Hne.
  destruct w; [congruence | split; reflexivity].
Qed.

Lemma policy_assert_fails (z pbar : numvecvec) (kappa : Q) (w : numvecvec)
    (policy_eval : list float) :
  length pbar = length z -> (w = [] \/ length w = length z) ->
  policy_eval <> [] ->
  length policy_eval <> length z \/ is_probability_dist policy_eval = false ->
  srect_l1_model z pbar kappa w policy_eval = AssertionFailed.
Proof.
  intros He Hw Hpe Hbad.
  unfold srect_l1_model. rewrite He, Nat.eqb_refl. cbn [assert bind].
  assert (Hwa : is_empty w || (length w =? length z)%nat = true).
  { destruct Hw as [->|Hw]; [reflexivity|].
    rewrite Hw, Nat.eqb_refl. apply orb_true_r. }
  rewrite Hwa. cbn [assert bind]. rewrite add_variables_closed.
  unfold l1_policy_constraints.
  destruct policy_eval as [|q pe]; [congruence|]. cbn [is_empty orb negb].
  destruct (Nat.eqb_spec (length (q :: pe)) (length z)) as [Hl|Hl].
  - cbn [assert bind]. destruct Hbad as [Hbad|Hbad]; [congruence|].
    now rewrite Hbad.
  - reflexivity.
Qed.

(** C4, as stated, fails: the rows of [pbar] and the sign of [kappa] are
    never looked at.  On the failure scenario of the specification (first row
    of [pbar] sums to 0.9, which [is_probability_dist] would reject) both
    builders construct their program, and so they do for a negative budget. *)
Lemma pbar_is_not_validated_counterexample :
  is_probability_dist (nth 0 pbar_bad []) = false /\
  is_probability_dist [0.5%float; 0.4%float] = false /\
  srect_l1_model z_scn pbar_bad 0 [] []
  = Return (l1_lp z_scn pbar_bad 0 [] [], layout pbar_bad) /\
  srect_linf_model z_scn pbar_bad 0 []
  = Return (linf_lp z_scn pbar_bad 0, layout pbar_bad) /\
  srect_l1_model z_scn pbar_scn (- (1)) [] []
  = Return (l1_lp z_scn pbar_scn (- (1)) [] [], layout pbar_scn) /\
  srect_linf_model z_scn pbar_scn (- (1)) []
  = Return (linf_lp z_scn pbar_scn (- (1)), layout pbar_scn).
Proof.
  assert (Hc : forall p, covers p z_scn -> shapes_ok z_scn p []) by (split; auto).
  assert (Hbad : covers pbar_bad z_scn) by (repeat constructor).
  assert (Hscn : covers pbar_scn z_scn) by (repeat constructor).
  split; [reflexivity|]. split; [reflexivity|].
  split; [apply srect_l1_model_closed; [auto | now left]|].
  split; [apply srect_linf_model_closed; [auto | now left]|].
  split; [apply srect_l1_model_closed; [auto | now left]|].
  apply srect_linf_model_closed; [auto | now left].
Qed.

(** C4, amended.  The validation consists of assertions.  Both operations
    assert that [pbar] and [z] have the same number of actions and that [w]
    is empty or has as many rows as [z]; the L1 operation also asserts that
    [policy_eval] is empty or has as many entries as [z] and passes
    [is_probability_dist], as that function computes it in binary64.  When
    these hold and the rows of [z] and [w] are long enough for the reads,
    the program is built whatever the entries of [pbar] and whatever
    [kappa]. *)
Theorem validation_is_by_assertion (z pbar : numvecvec) (kappa : Q)
    (w : numvecvec) (policy_eval : list float) :
  (length pbar <> length z ->
   srect_l1_model z pbar kappa w policy_eval = AssertionFailed /\
   srect_linf_model z pbar kappa w = AssertionFailed) /\
  (length pbar = length z -> w <> [] -> length w <> length z ->
   srect_l1_model z pbar kappa w policy_eval = AssertionFailed /\
   srect_linf_model z pbar kappa w = AssertionFailed) /\
  (length pbar = length z -> (w = [] \/ length w = length z) ->
   policy_eval <> [] ->
   length policy_eval <> length z \/ is_probability_dist policy_eval = false ->
   srect_l1_model z pbar kappa w policy_eval = AssertionFailed) /\
  (shapes_ok z pbar w -> policy_eval_ok z policy_eval ->
   srect_l1_model z pbar kappa w policy_eval
   = Return (l1_lp z pbar kappa w (double_values policy_eval), layout pbar) /\
   srect_linf_model z pbar kappa w = Return (linf_lp z pbar kappa, layout pbar)).
Proof.
  split; [apply size_assert_fails|].
  split; [apply weight_assert_fails|].
  split; [apply policy_assert_fails|].
  intros Hs Hpe. split.
  - now apply srect_l1_model_closed.
  - destruct Hs as [Hz Hw]. apply srect_linf_model_closed; [assumption|].
    destruct Hw as [->|Hw]; [now left | right].
    now rewrite <- (covers_length _ _ Hw), (covers_length _ _ Hz).
Qed.

(** The check of [policy_eval] is the one the source computes, in binary64:
    [0.001, 0.999001] passes it and the program is built, although the sum
    of the two values is not less than [1e-6] away from 1. *)
Lemma policy_eval_is_checked_in_binary64 :
  is_probability_dist [0.001%float; 0.999001%float] = true /\
  is_probability_dist (double_values [0.001%float; 0.999001%float]) = false /\
  srect_l1_model z_scn pbar_scn 0 [] [0.001%float; 0.999001%float]
  = Return (l1_lp z_scn pbar_scn 0 []
                  (double_values [0.001%float; 0.999001%float]),
            layout pbar_scn).
Proof.
  split; [vm_compute; reflexivity|]. split; [vm_compute; reflexivity|].
  apply srect_l1_model_closed.
  - split; [repeat constructor | now left].
  - right. split; [reflexivity | vm_compute; reflexivity].
Qed.

(* ================================================================== *)
(** * The solver status *)
(* ================================================================== *)

(** The L1 operation throws whenever the status is not [GRB_OPTIMAL]. *)
Lemma srect_l1_throws_unless_optimal (optimize : GRBModel -> GRBSolution)
    (z pbar : numvecvec) (kappa : Q) (w : numvecvec) (policy_eval : list float) :
  shapes_ok z pbar w -> policy_eval_ok z policy_eval ->
  Status (optimize (l1_lp z pbar kappa w (double_values policy_eval))) <> GRB_OPTIMAL ->
  srect_l1_solve_gurobi optimize z pbar kappa w policy_eval
  = Throw (invalid_argument "Failed to solve the LP.").
Proof.
  intros Hs Hpe Hst. unfold srect_l1_solve_gurobi.
  rewrite srect_l1_model_closed by assumption. cbn [bind].
  destruct (Status (optimize (l1_lp z pbar kappa w (double_values policy_eval))));
    try reflexivity; congruence.
Qed.

Lemma retrieve_policy_status (s : GRBStatus) (sol : GRBSolution)
    (d : list GRBVar) (n : nat) :
  forall i, retrieve_policy (with_status s sol) d i n = retrieve_policy sol d i n.
Proof.
  induction n as [|n IH]; intros i; simpl.
  - reflexivity.
  - destruct (at_ d i); simpl; try reflexivity.
    unfold get_X. cbn [X with_status].
    destruct (get_attr (X sol) a); simpl; try reflexivity.
    now rewrite IH.
Qed.

(** The L-infinity operation never reads the status: its outcome is the
    same under every status that comes with the same attributes. *)
Lemma srect_linf_ignores_status (optimize : GRBModel -> GRBSolution)
    (s : GRBStatus) (z pbar : numvecvec) (kappa : Q) (w : numvecvec) :
  srect_linf_solve_gurobi (fun m => with_status s (optimize m)) z pbar kappa w
  = srect_linf_solve_gurobi optimize z pbar kappa w.
Proof.
  unfold srect_linf_solve_gurobi.
  destruct (srect_linf_model z pbar kappa w) as [[m vs]| | |]; try reflexivity.
  cbn [bind]. rewrite retrieve_policy_status.
  destruct (retrieve_policy (optimize m) (v_d vs) 0 (length pbar)); reflexivity.
Qed.

(** C3, the L-infinity half fails.  With the status [GRB_SUBOPTIMAL] and
    the attributes of a feasible, non-optimal point, the L-infinity operation
    returns an objective, a policy and budgets, where the L1 operation throws
    under the same outcome of the solver. *)
Theorem srect_linf_returns_without_optimal_status :
  Status sol_suboptimal = GRB_SUBOPTIMAL /\
  srect_linf_solve_gurobi (fun _ => sol_suboptimal) z_scn pbar_scn 0 []
  = Return (0, [1 # 2; 1 # 2], [0; 0]) /\
  srect_l1_solve_gurobi (fun _ => sol_suboptimal) z_scn pbar_scn 0 [] []
  = Throw (invalid_argument "Failed to solve the LP.").
Proof. repeat split; vm_compute; reflexivity. Qed.

(* ================================================================== *)
(** * What the rows and the objective of the programs say *)
(* ================================================================== *)

Lemma eval_terms_app (t1 t2 : list (Q * GRBVar)) (v : list Q) :
  eval_terms (t1 ++ t2) v == eval_terms t1 v + eval_terms t2 v.
Proof.
  induction t1 as [|[c j] t1 IH]; simpl.
  - lra.
  - rewrite IH. lra.
Qed.

Lemma move_rhs (a b t : Q) : a - b <= 0 + t <-> a <= b + t.
Proof. split; intros; lra. Qed.

Section RowMeaning.
Variables (tol : Q) (z pbar w : numvecvec) (v : list Q).

Lemma P_row_holds (a s i : nat) :
  constr_holds tol v (P_row z (layout pbar) a s i) <-> P_holds tol z pbar v a s i.
Proof.
  unfold constr_holds, P_holds, P_row, mk_row, P_constr, sense_holds.
  cbn [Sense row RHS t_sense t_lhs t_rhs tc_le le_terms le_const le_sub le_add
       le_scale le_var le_mul map app fst snd eval_terms].
  fold (col_x pbar a) (col_yp pbar i) (col_yn pbar i) (col_d pbar a).
  rewrite <- (move_rhs (val v (col_x pbar a) - val v (col_yp pbar i)
                        + val v (col_yn pbar i))
                       (val v (col_d pbar a) * zval z a s) tol).
  match goal with |- ?l <= ?r <-> ?l' <= ?r' =>
    assert (El : l == l') by ring; assert (Er : r == r') by ring
  end.
  rewrite El, Er. reflexivity.
Qed.

Lemma psi_row_holds (a s i : nat) :
  constr_holds tol v (psi_row w (layout pbar) a s i) <-> psi_holds tol pbar w v a s i.
Proof.
  unfold constr_holds, psi_holds, psi_row, mk_row, psi_constr, sense_holds.
  cbn [Sense row RHS t_sense t_lhs t_rhs tc_le le_terms le_const le_sub le_add
       le_scale le_var le_neg_var le_dbl map app fst snd eval_terms].
  fold (col_lambda pbar) (col_yp pbar i) (col_yn pbar i).
  match goal with |- ?l <= ?r <-> ?l' <= ?r' =>
    assert (El : l == l') by ring; assert (Er : r == r') by ring
  end.
  rewrite El, Er. reflexivity.
Qed.

Lemma eval_z_dual_terms (row0 : numvec) :
  forall i,
    eval_terms (z_dual_terms (layout pbar) i row0) v
    == sum_states (fun i' _ => val v (col_yp pbar i') + val v (col_yn pbar i')) i row0.
Proof.
  induction row0 as [|p row0 IH]; intros i;
    cbn [z_dual_terms eval_terms sum_states].
  - reflexivity.
  - rewrite IH. fold (col_yp pbar i) (col_yn pbar i). ring.
Qed.

Lemma theta_row_holds (i : nat) (row0 : numvec) :
  constr_holds tol v (theta_row (layout pbar) i row0) <-> theta_holds tol pbar v i row0.
Proof.
  unfold constr_holds, theta_holds, theta_row, mk_row, theta_constr, sense_holds.
  cbn [Sense row RHS t_sense t_lhs t_rhs tc_le le_terms le_const le_sub le_add
       le_scale le_var le_neg_var le_dbl map app fst snd eval_terms].
  rewrite app_nil_r, <- eval_z_dual_terms.
  fold (col_lambda pbar).
  set (S := eval_terms (z_dual_terms (layout pbar) i row0) v).
  set (L := val v (col_lambda pbar)).
  assert (El : - (1) * 1 * L + S == S - L * 1) by ring.
  assert (Er : 0 - (0 * 1 + 0) + tol == 0 + tol) by ring.
  rewrite El, Er. apply move_rhs.
Qed.

Lemma sum_range_shift_from (b n : nat) (f : nat -> Q) :
  forall c, sum_range (b + c) n f == sum_range c n (fun a => f (b + a)%nat).
Proof.
  induction n as [|n IH]; intros c; simpl.
  - reflexivity.
  - replace (S (b + c)) with (b + S c)%nat by lia. now rewrite IH.
Qed.

Lemma sum_range_shift (b n : nat) (f : nat -> Q) :
  sum_range b n f == sum_range 0 n (fun a => f (b + a)%nat).
Proof. rewrite <- sum_range_shift_from. now rewrite Nat.add_0_r. Qed.

Lemma eval_ones_terms (n : nat) :
  forall b,
    eval_terms (firstn n (combine (repeat 1 n) (seq b n))) v
    == sum_range b n (fun j => val v j).
Proof.
  induction n as [|n IH]; intros b; simpl.
  - reflexivity.
  - rewrite IH. ring.
Qed.

Lemma col_d_value (a : nat) :
  (a < length pbar)%nat ->
  col_d pbar a = (length pbar + nstateactions pbar + nstateactions pbar + 1 + a)%nat.
Proof.
  intros Ha. unfold col_d, var_at, layout. cbn [v_d]. now rewrite seq_nth.
Qed.

Lemma eval_ones_row (name : string) :
  eval_terms (row (ones_row pbar (layout pbar) name)) v
  == sum_range 0 (length pbar) (fun a => val v (col_d pbar a)).
Proof.
  unfold ones_row, mk_row, addTerms.
  cbn [row t_lhs t_rhs le_terms le_sub le_add le_scale le_dbl le_zero map app].
  rewrite app_nil_r. unfold layout at 1. cbn [v_d].
  rewrite eval_ones_terms, sum_range_shift.
  apply sum_range_ext. intros k Hk. now rewrite col_d_value by lia.
Qed.

Lemma ones_row_holds (name : string) :
  constr_holds tol v (ones_row pbar (layout pbar) name) <-> normalized tol pbar v.
Proof.
  unfold constr_holds, normalized, sense_holds.
  change (Sense (ones_row pbar (layout pbar) name)) with GRB_EQUAL.
  change (RHS (ones_row pbar (layout pbar) name)) with (1 - 0).
  cbv iota. rewrite eval_ones_row.
  assert (E : 1 - 0 == 1) by ring. rewrite E. reflexivity.
Qed.

Lemma pin_rows_hold (policy_eval : numvec) :
  forall i j,
    Forall (constr_holds tol v) (pin_rows (layout pbar) i policy_eval)
    <-> all_states (fun a _ q =>
                      val v (col_d pbar a) <= q + tol /\ q <= val v (col_d pbar a) + tol)
                   i j policy_eval.
Proof.
  induction policy_eval as [|q pe IH]; intros i j; simpl.
  - split; auto.
  - rewrite Forall_cons_iff, (IH (S i) (S j)).
    apply and_iff_compat_r.
    unfold constr_holds, sense_holds, mk_row.
    cbn [Sense row RHS t_sense t_lhs t_rhs tc_eq le_terms le_const le_sub le_add
         le_scale le_var le_dbl map app fst snd eval_terms].
    fold (col_d pbar i).
    assert (El : 1 * val v (col_d pbar i) + 0 == val v (col_d pbar i)) by ring.
    assert (Er : q - 0 == q) by ring.
    rewrite El, Er. reflexivity.
Qed.

Lemma l1_state_rows_hold (a : nat) (row0 : numvec) :
  forall s i,
    Forall (constr_holds tol v) (l1_state_rows z w (layout pbar) a s i row0)
    <-> all_states (fun s i _ => P_holds tol z pbar v a s i /\ psi_holds tol pbar w v a s i)
                   s i row0.
Proof.
  induction row0 as [|p row0 IH]; intros s i; simpl.
  - split; auto.
  - rewrite !Forall_cons_iff, IH, P_row_holds, psi_row_holds. tauto.
Qed.

Lemma l1_action_rows_hold (rows : numvecvec) :
  forall a i,
    Forall (constr_holds tol v) (l1_action_rows z w (layout pbar) a i rows)
    <-> all_actions (fun a i row0 =>
                       all_states (fun s i _ => P_holds tol z pbar v a s i
                                                /\ psi_holds tol pbar w v a s i)
                                  0 i row0)
                    a i rows.
Proof.
  induction rows as [|r rows IH]; intros a i; simpl.
  - split; auto.
  - rewrite Forall_app, IH, l1_state_rows_hold. reflexivity.
Qed.

Lemma linf_state_rows_hold (a : nat) (row0 : numvec) :
  forall s i,
    Forall (constr_holds tol v) (linf_state_rows z (layout pbar) a s i row0)
    <-> all_states (fun s i _ => P_holds tol z pbar v a s i) s i row0.
Proof.
  induction row0 as [|p row0 IH]; intros s i; simpl.
  - split; auto.
  - rewrite !Forall_cons_iff, IH, P_row_holds. tauto.
Qed.

Lemma linf_action_rows_hold (rows : numvecvec) :
  forall a i,
    Forall (constr_holds tol v) (linf_action_rows z (layout pbar) a i rows)
    <-> all_actions (fun a i row0 =>
                       all_states (fun s i _ => P_holds tol z pbar v a s i) 0 i row0
                       /\ theta_holds tol pbar v i row0)
                    a i rows.
Proof.
  induction rows as [|r rows IH]; intros a i; simpl.
  - split; auto.
  - rewrite Forall_app, Forall_cons_iff, IH, linf_state_rows_hold, theta_row_holds.
    tauto.
Qed.
End RowMeaning.

(** ** The bounds *)

Lemma Forall2_index {A} (P : A -> Q -> Prop) (d : A) (l : list A) (v : list Q) :
  Forall2 P l v
  <-> length v = length l /\ forall j, (j < length l)%nat -> P (nth j l d) (val v j).
Proof.
  split.
  - intros HF. split.
    + symmetry. now apply (Forall2_length HF).
    + intros j Hj. now apply Forall2_val.
  - revert v; induction l as [|a l IH]; intros v [Hlen Hall].
    + destruct v; [constructor | discriminate].
    + destruct v as [|q v]; [discriminate|]. constructor.
      * apply (Hall 0%nat). simpl; lia.
      * apply IH. split; [simpl in Hlen; lia|].
        intros j Hj. apply (Hall (S j)). simpl; lia.
Qed.

Lemma nstateactions_sum (pbar : numvecvec) :
  nstateactions pbar = fold_left Nat.add (map (@length Q) pbar) 0%nat.
Proof. reflexivity. Qed.

Lemma var_infos_length (pbar : numvecvec) :
  length (var_infos pbar)
  = (length pbar + nstateactions pbar + nstateactions pbar + 1 + length pbar)%nat.
Proof.
  unfold var_infos. rewrite !length_app, !repeat_length. simpl. lia.
Qed.

Lemma var_infos_nth (pbar : numvecvec) (j : nat) :
  (j < length (var_infos pbar))%nat ->
  let vi := nth j (var_infos pbar) free_var in
  ((j < length pbar)%nat -> LB vi = NegInf /\ UB vi = PosInf) /\
  ((length pbar <= j)%nat -> LB vi = Real 0 /\ UB vi = PosInf).
Proof.
  intros Hj. cbv zeta. unfold var_infos in *. split; intros Hc.
  - rewrite app_nth1 by now rewrite repeat_length.
    now rewrite nth_repeat_lt.
  - rewrite app_nth2 by (rewrite repeat_length; lia).
    rewrite repeat_length.
    set (rest := repeat nonneg_var (nstateactions pbar)
                 ++ repeat nonneg_var (nstateactions pbar) ++ [lambda_info]
                 ++ repeat nonneg_var (length pbar)).
    assert (HF : Forall (fun vi => LB vi = Real 0 /\ UB vi = PosInf) rest).
    { unfold rest. rewrite !Forall_app. repeat split.
      - apply Forall_forall. intros vi Hin. apply repeat_spec in Hin. now subst.
      - apply Forall_forall. intros vi Hin. apply repeat_spec in Hin. now subst.
      - repeat constructor.
      - apply Forall_forall. intros vi Hin. apply repeat_spec in Hin. now subst. }
    rewrite Forall_forall in HF. apply HF. apply nth_In.
    rewrite length_app, repeat_length in Hj. fold rest in Hj. lia.
Qed.

Lemma bounds_iff (tol : Q) (pbar : numvecvec) (v : list Q) :
  Forall2 (bounds_hold tol) (var_infos pbar) v <-> bounds_ok tol pbar v.
Proof.
  rewrite (Forall2_index _ free_var). unfold bounds_ok.
  apply and_iff_compat_l. split; intros H j Hj.
  - destruct (var_infos_nth pbar j) as [_ Hnn]; [lia|].
    destruct (Hnn ltac:(lia)) as [Hl Hu].
    destruct (H j ltac:(lia)) as [Hlb _]. unfold lb_holds in Hlb.
    now rewrite Hl in Hlb.
  - destruct (var_infos_nth pbar j Hj) as [Hfree Hnn].
    unfold bounds_hold, lb_holds, ub_holds.
    destruct (Nat.lt_ge_cases j (length pbar)) as [Hlt|Hge].
    + destruct (Hfree Hlt) as [-> ->]. split; exact I.
    + destruct (Hnn Hge) as [-> ->]. split; [apply H; lia | exact I].
Qed.

(** ** Feasible points of the two programs *)

(** A point satisfies the L1 program exactly when it satisfies the bounds,
    the policy rows and, for every action and outcome, the two rows that the
    loops add. *)
Theorem l1_feasible_iff (tol : Q) (z pbar : numvecvec) (kappa : Q) (w : numvecvec)
    (policy_eval : numvec) (v : list Q) :
  feasible_within tol (l1_lp z pbar kappa w policy_eval) v
  <-> bounds_ok tol pbar v /\
      (if is_empty policy_eval then normalized tol pbar v
       else pinned tol pbar v policy_eval) /\
      all_actions (fun a i row =>
                     all_states (fun s i _ => P_holds tol z pbar v a s i
                                              /\ psi_holds tol pbar w v a s i)
                                0 i row)
                  0 0 pbar.
Proof.
  unfold feasible_within, l1_lp. cbn [vars constrs].
  rewrite bounds_iff, Forall_app, l1_action_rows_hold.
  apply and_iff_compat_l. apply and_iff_compat_r.
  unfold l1_policy_rows. destruct (is_empty policy_eval).
  - rewrite Forall_cons_iff, ones_row_holds. split; [tauto | intros; split; auto].
  - unfold pinned. apply pin_rows_hold.
Qed.

(** The same for the L-infinity program. *)
Theorem linf_feasible_iff (tol : Q) (z pbar : numvecvec) (kappa : Q) (v : list Q) :
  feasible_within tol (linf_lp z pbar kappa) v
  <-> bounds_ok tol pbar v /\
      all_actions (fun a i row =>
                     all_states (fun s i _ => P_holds tol z pbar v a s i) 0 i row
                     /\ theta_holds tol pbar v i row)
                  0 0 pbar /\
      normalized tol pbar v.
Proof.
  unfold feasible_within, linf_lp. cbn [vars constrs].
  rewrite bounds_iff, Forall_app, linf_action_rows_hold.
  apply and_iff_compat_l. apply and_iff_compat_l.
  rewrite Forall_cons_iff, ones_row_holds. split; [tauto | intros; split; auto].
Qed.

(** ** The objective *)

Lemma eval_state_terms (pbar : numvecvec) (v : list Q) (row0 : numvec) :
  forall i,
    eval_terms (state_terms (layout pbar) i row0) v
    == sum_states (fun i' p => p * (val v (col_yn pbar i') - val v (col_yp pbar i')))
                  i row0.
Proof.
  induction row0 as [|p row0 IH]; intros i;
    cbn [state_terms eval_terms sum_states].
  - reflexivity.
  - rewrite IH. fold (col_yp pbar i) (col_yn pbar i). ring.
Qed.

Lemma eval_action_terms (pbar : numvecvec) (v : list Q) (rows : numvecvec) :
  forall a i,
    eval_terms (action_terms (layout pbar) a i rows) v
    == sum_actions
         (fun a i row =>
            val v (col_x pbar a)
            + sum_states (fun i' p => p * (val v (col_yn pbar i') - val v (col_yp pbar i')))
                         i row)
         a i rows.
Proof.
  induction rows as [|r rows IH]; intros a i;
    cbn [action_terms eval_terms sum_actions].
  - reflexivity.
  - rewrite eval_terms_app, IH, eval_state_terms. fold (col_x pbar a). ring.
Qed.

(** The expression handed to [setObjective] evaluates to
    [sum_a x_a + sum_(a,s) pbar[a][s] * (yn_i - yp_i) - kappa * lambda]. *)
Lemma eval_srect_objective (pbar : numvecvec) (kappa : Q) (v : list Q) :
  eval (srect_objective pbar kappa) v == code_objective pbar kappa v.
Proof.
  unfold eval, srect_objective, code_objective. cbn [le_terms le_const].
  rewrite eval_terms_app, eval_action_terms. cbn [eval_terms].
  fold (col_lambda pbar). ring.
Qed.

(* ================================================================== *)
(** * The objective of the L1 program (C1) *)
(* ================================================================== *)

Lemma layout_cols (pbar : numvecvec) :
  let nA := length pbar in
  let nSA := nstateactions pbar in
  (forall a, (a < nA)%nat -> col_x pbar a = a) /\
  (forall i, (i < nSA)%nat -> col_yp pbar i = (nA + i)%nat) /\
  (forall i, (i < nSA)%nat -> col_yn pbar i = (nA + nSA + i)%nat) /\
  col_lambda pbar = (nA + nSA + nSA)%nat /\
  (forall a, (a < nA)%nat -> col_d pbar a = (nA + nSA + nSA + 1 + a)%nat).
Proof.
  cbv zeta. unfold col_x, col_yp, col_yn, col_lambda, col_d, var_at, layout.
  cbn [v_x v_yp v_yn v_lambda v_d].
  repeat split; intros; now rewrite seq_nth.
Qed.

(** Feasible points have non-negative [yp], [yn], [lambda] and [d]. *)
Lemma bounds_ok_nonneg (tol : Q) (pbar : numvecvec) (v : list Q) :
  bounds_ok tol pbar v ->
  0 <= val v (col_lambda pbar) + tol /\
  (forall i, (i < nstateactions pbar)%nat ->
     0 <= val v (col_yp pbar i) + tol /\ 0 <= val v (col_yn pbar i) + tol) /\
  (forall a, (a < length pbar)%nat -> 0 <= val v (col_d pbar a) + tol).
Proof.
  intros [Hlen Hb]. rewrite var_infos_length in Hb.
  destruct (layout_cols pbar) as (Hx & Hyp & Hyn & Hl & Hd).
  split; [rewrite Hl; apply Hb; lia|]. split.
  - intros i Hi. rewrite (Hyp i Hi), (Hyn i Hi). split; apply Hb; lia.
  - intros a Ha. rewrite (Hd a Ha). apply Hb; lia.
Qed.

(** C1, amended.  On every input that the builder accepts, the L1 program is
    a maximization of
    [sum_a x_a + sum_(a,s) pbar[a][s] * (yn_i - yp_i) - kappa * lambda],
    that is [yp] (the specification's y+) enters with [-pbar] and [yn] (its
    y-) with [+pbar]; [yp], [yn] and [lambda] are not negative at any
    feasible point. *)
Theorem srect_l1_objective (z pbar : numvecvec) (kappa : Q) (w : numvecvec)
    (policy_eval : list float) :
  shapes_ok z pbar w -> policy_eval_ok z policy_eval ->
  exists m,
    srect_l1_model z pbar kappa w policy_eval = Return (m, layout pbar) /\
    ModelSense m = GRB_MAXIMIZE /\
    (forall v, eval (objective m) v == code_objective pbar kappa v) /\
    (forall v, feasible m v ->
       0 <= val v (col_lambda pbar) /\
       forall i, (i < nstateactions pbar)%nat ->
         0 <= val v (col_yp pbar i) /\ 0 <= val v (col_yn pbar i)).
Proof.
  intros Hs Hpe. exists (l1_lp z pbar kappa w (double_values policy_eval)).
  split; [now apply srect_l1_model_closed|]. split; [reflexivity|]. split.
  - intros v. apply eval_srect_objective.
  - intros v Hf. apply l1_feasible_iff in Hf. destruct Hf as (Hb & _).
    destruct (bounds_ok_nonneg 0 pbar v Hb) as (Hl & Hy & _).
    split; [lra|]. intros i Hi. destruct (Hy i Hi). split; lra.
Qed.

Lemma srect_l1_objective_witness :
  shapes_ok z_scn pbar_scn [] /\ policy_eval_ok z_scn [] /\
  exists m,
    srect_l1_model z_scn pbar_scn 0 [] [] = Return (m, layout pbar_scn) /\
    ModelSense m = GRB_MAXIMIZE /\
    (forall v, eval (objective m) v == code_objective pbar_scn 0 v) /\
    (forall v, feasible m v ->
       0 <= val v (col_lambda pbar_scn) /\
       forall i, (i < nstateactions pbar_scn)%nat ->
         0 <= val v (col_yp pbar_scn i) /\ 0 <= val v (col_yn pbar_scn i)).
Proof.
  assert (Hs : shapes_ok z_scn pbar_scn [])
    by (split; [repeat constructor | now left]).
  assert (Hpe : policy_eval_ok z_scn []) by now left.
  split; [exact Hs|]. split; [exact Hpe|].
  exact (srect_l1_objective z_scn pbar_scn 0 [] [] Hs Hpe).
Defined.

(** C1, as stated, fails by the sign of the [pbar] terms.  At a feasible
    point of the scenario with [yp_0 = 1] the objective of the program is
    [-1/2], the objective of the specification [+1/2]. *)
Lemma spec_objective_sign_counterexample :
  srect_l1_model z_scn pbar_scn 0 [] []
  = Return (l1_lp z_scn pbar_scn 0 [] [], layout pbar_scn) /\
  feasible (l1_lp z_scn pbar_scn 0 [] []) point_yp0 /\
  eval (objective (l1_lp z_scn pbar_scn 0 [] [])) point_yp0 == - (1 # 2) /\
  spec_objective pbar_scn 0 point_yp0 == 1 # 2 /\
  ~ eval (objective (l1_lp z_scn pbar_scn 0 [] [])) point_yp0
    == spec_objective pbar_scn 0 point_yp0.
Proof.
  split.
  { apply srect_l1_model_closed; [split; [repeat constructor | now left] | now left]. }
  split.
  { split.
    - repeat constructor; vm_compute; try exact I; discriminate.
    - repeat constructor; vm_compute; discriminate. }
  split; [reflexivity|]. split; [reflexivity|].
  intros H. vm_compute in H. discriminate.
Qed.

(* ================================================================== *)
(** * The rows named "psi" and "theta", and the two operations as a whole *)
(* ================================================================== *)

#[local] Arguments at_ {A} v i : simpl never.

Lemma rows_named_app (name : string) (cs1 cs2 : list GRBConstr) :
  forall j,
    rows_named name (cs1 ++ cs2) j
    = rows_named name cs1 j ++ rows_named name cs2 (j + length cs1).
Proof.
  induction cs1 as [|c cs1 IH]; intros j; simpl.
  - now rewrite Nat.add_0_r.
  - rewrite IH. replace (S j + length cs1)%nat with (j + S (length cs1))%nat by lia.
    now destruct (String.eqb (ConstrName c) name).
Qed.

Lemma rows_named_bound (name : string) (cs : list GRBConstr) :
  forall j, Forall (fun k => (j <= k < j + length cs)%nat) (rows_named name cs j).
Proof.
  induction cs as [|c cs IH]; intros j; simpl.
  - constructor.
  - specialize (IH (S j)).
    assert (IH' : Forall (fun k => (j <= k < j + S (length cs))%nat)
                         (rows_named name cs (S j))).
    { eapply Forall_impl; [|exact IH]. simpl. intros; lia. }
    destruct (String.eqb (ConstrName c) name); [constructor; [lia|]|]; exact IH'.
Qed.

Lemma pin_rows_not_named (name : string) (vs : srect_vars) (pe : numvec) :
  name <> EmptyString ->
  forall i j, rows_named name (pin_rows vs i pe) j = [].
Proof.
  intros Hn. induction pe as [|q pe IH]; intros i j; simpl.
  - reflexivity.
  - destruct name; [congruence|]. simpl. apply IH.
Qed.

Lemma l1_policy_rows_not_psi (pbar : numvecvec) (vs : srect_vars) (pe : numvec) :
  forall j, rows_named "psi" (l1_policy_rows pbar vs pe) j = [].
Proof.
  intros j. unfold l1_policy_rows. destruct (is_empty pe).
  - reflexivity.
  - now apply pin_rows_not_named.
Qed.

Lemma l1_state_rows_psi (z w : numvecvec) (vs : srect_vars) (a : nat) (row0 : numvec) :
  forall s i j,
    length (rows_named "psi" (l1_state_rows z w vs a s i row0) j) = length row0.
Proof.
  induction row0 as [|p row0 IH]; intros s i j; simpl.
  - reflexivity.
  - now rewrite IH.
Qed.

Lemma l1_action_rows_psi (z w : numvecvec) (vs : srect_vars) (rows : numvecvec) :
  forall a i j,
    length (rows_named "psi" (l1_action_rows z w vs a i rows) j)
    = fold_left Nat.add (map (@length Q) rows) 0%nat.
Proof.
  induction rows as [|r rows IH]; intros a i j; simpl.
  - reflexivity.
  - rewrite rows_named_app, length_app, IH, l1_state_rows_psi.
    now rewrite (fold_left_add_shift _ (length r)).
Qed.

(** The L1 program has one row named "psi" for every pair (a, s). *)
Lemma l1_lp_psi_count (z pbar : numvecvec) (kappa : Q) (w : numvecvec) (pe : numvec) :
  length (rows_named "psi" (constrs (l1_lp z pbar kappa w pe)) 0)
  = nstateactions pbar.
Proof.
  unfold l1_lp. cbn [constrs].
  rewrite rows_named_app, l1_policy_rows_not_psi. cbn [app].
  apply l1_action_rows_psi.
Qed.

Lemma linf_state_rows_not_theta (z : numvecvec) (vs : srect_vars) (a : nat)
    (row0 : numvec) :
  forall s i j, rows_named "theta" (linf_state_rows z vs a s i row0) j = [].
Proof.
  induction row0 as [|p row0 IH]; intros s i j; simpl.
  - reflexivity.
  - apply IH.
Qed.

Lemma linf_action_rows_theta (z : numvecvec) (vs : srect_vars) (rows : numvecvec) :
  forall a i j,
    length (rows_named "theta" (linf_action_rows z vs a i rows) j) = length rows.
Proof.
  induction rows as [|r rows IH]; intros a i j; simpl.
  - reflexivity.
  - rewrite rows_named_app, linf_state_rows_not_theta. simpl. now rewrite IH.
Qed.

(** The L-infinity program has one row named "theta" for every action. *)
Lemma linf_lp_theta_count (z pbar : numvecvec) (kappa : Q) :
  length (rows_named "theta" (constrs (linf_lp z pbar kappa)) 0) = length pbar.
Proof.
  unfold linf_lp. cbn [constrs].
  rewrite rows_named_app, length_app, linf_action_rows_theta. simpl. lia.
Qed.

(** ** Backwards: what a returned triple consists of *)

Lemma at_Return {A} (v : list A) (i : nat) (a d : A) :
  at_ v i = Return a -> nth i v d = a.
Proof.
  unfold at_. destruct (nth_error v i) as [b|] eqn:E; [|discriminate].
  intros [= <-]. now apply nth_error_nth.
Qed.

Lemma retrieve_policy_Return (sol : GRBSolution) (d : list GRBVar) (n : nat) :
  forall i policy,
    retrieve_policy sol d i n = Return policy ->
    policy = map (fun a => val (attr_list (X sol)) (var_at d a)) (seq i n).
Proof.
  induction n as [|n IH]; intros i policy; simpl.
  - now intros [= <-].
  - destruct (at_ d i) as [d_i| | |] eqn:Ed; cbn [bind]; try discriminate.
    unfold get_X.
    destruct (get_attr (X sol) d_i) as [p| | |] eqn:Ep; cbn [bind]; try discriminate.
    destruct (retrieve_policy sol d (S i) n) as [rest| | |] eqn:E;
      cbn [bind]; try discriminate.
    intros [= <-]. apply (at_Return _ _ _ 0%nat) in Ed.
    apply get_attr_Return in Ep. destruct Ep as [_ <-].
    cbn [seq map]. subst d_i. f_equal. now apply IH.
Qed.

(** A triple returned by the L1 operation: the status was [GRB_OPTIMAL], the
    objective is the attribute [ObjVal], the policy holds the values of the
    columns [d] and the budgets the dual values of the rows named "psi". *)
Lemma srect_l1_solve_Return (optimize : GRBModel -> GRBSolution)
    (z pbar : numvecvec) (kappa : Q) (w : numvecvec) (pe : list float)
    (o : Q) (policy budgets : numvec) :
  shapes_ok z pbar w -> policy_eval_ok z pe ->
  srect_l1_solve_gurobi optimize z pbar kappa w pe = Return (o, policy, budgets) ->
  let m := l1_lp z pbar kappa w (double_values pe) in
  Status (optimize m) = GRB_OPTIMAL /\
  ObjVal (optimize m) = Some o /\
  policy = policy_of pbar (attr_list (X (optimize m))) /\
  budgets = duals_named "psi" (constrs m) (attr_list (Pi (optimize m))).
Proof.
  intros Hs Hpe. unfold srect_l1_solve_gurobi.
  rewrite srect_l1_model_closed by assumption. cbn [bind]. cbv zeta.
  set (m := l1_lp z pbar kappa w (double_values pe)). set (sol := optimize m).
  destruct (Status sol) eqn:Est; cbn [GRBStatus_eqb negb]; try discriminate.
  destruct (retrieve_policy sol (v_d (layout pbar)) 0 (length pbar))
    as [pol| | |] eqn:Epol; cbn [bind]; try discriminate.
  unfold l1_budgets.
  destruct (for_each (l1_budgets_body sol) 0 (constrs m) []) as [b| | |] eqn:Eb;
    cbn [bind]; try discriminate.
  unfold get_ObjVal. destruct (ObjVal sol) as [o'|]; cbn [bind]; try discriminate.
  intros [= <- <- <-].
  apply retrieve_policy_Return in Epol.
  apply l1_budgets_loop_Return in Eb. destruct Eb as [Eb _].
  repeat split; assumption.
Qed.

(** A triple returned by the L-infinity operation. *)
Lemma srect_linf_solve_Return (optimize : GRBModel -> GRBSolution)
    (z pbar : numvecvec) (kappa : Q) (w : numvecvec)
    (o : Q) (policy budgets : numvec) :
  covers pbar z -> (w = [] \/ length w = length z) ->
  srect_linf_solve_gurobi optimize z pbar kappa w = Return (o, policy, budgets) ->
  let m := linf_lp z pbar kappa in
  ObjVal (optimize m) = Some o /\
  policy = policy_of pbar (attr_list (X (optimize m))) /\
  budgets = duals_named "theta" (constrs m) (attr_list (Pi (optimize m))).
Proof.
  intros Hz Hw. unfold srect_linf_solve_gurobi.
  rewrite srect_linf_model_closed by assumption. cbn [bind]. cbv zeta.
  set (m := linf_lp z pbar kappa). set (sol := optimize m).
  destruct (retrieve_policy sol (v_d (layout pbar)) 0 (length pbar))
    as [pol| | |] eqn:Epol; cbn [bind]; try discriminate.
  unfold linf_budgets.
  destruct (for_each (linf_budgets_body sol) 0 (constrs m)
              (repeat 0 (length pbar), 0%nat)) as [[b idx]| | |] eqn:Eb;
    cbn [bind]; try discriminate.
  unfold get_ObjVal. destruct (ObjVal sol) as [o'|]; cbn [bind]; try discriminate.
  intros [= <- <- <-].
  apply retrieve_policy_Return in Epol.
  apply (linf_budgets_loop_Return sol (constrs m) 0 [] (repeat 0 (length pbar)))
    in Eb.
  cbv zeta in Eb. destruct Eb as (Eb & Hlen & _).
  repeat split; try assumption.
  rewrite Eb. cbn [app]. unfold duals_named.
  rewrite length_map, repeat_length in Hlen.
  assert (Hc := linf_lp_theta_count z pbar kappa). fold m in Hc.
  rewrite skipn_all2 by (rewrite length_map, repeat_length; lia).
  apply app_nil_r.
Qed.

(** ** Forwards: the operations return when the attributes are there *)

Lemma layout_d_in_range (pbar : numvecvec) (x : list Q) :
  length x = length (var_infos pbar) ->
  forall k, (k < length (v_d (layout pbar)))%nat ->
            (var_at (v_d (layout pbar)) k < length x)%nat.
Proof.
  intros Hx k Hk. unfold layout in *. cbn [v_d] in *. rewrite length_seq in Hk.
  unfold var_at. rewrite seq_nth by assumption.
  rewrite Hx, var_infos_length. lia.
Qed.

Lemma srect_l1_solve_attrs (optimize : GRBModel -> GRBSolution)
    (z pbar : numvecvec) (kappa : Q) (w : numvecvec) (pe : list float)
    (x pi : list Q) (o : Q) :
  shapes_ok z pbar w -> policy_eval_ok z pe ->
  let m := l1_lp z pbar kappa w (double_values pe) in
  Status (optimize m) = GRB_OPTIMAL ->
  X (optimize m) = Some x -> Pi (optimize m) = Some pi ->
  ObjVal (optimize m) = Some o ->
  length x = length (vars m) -> length pi = length (constrs m) ->
  srect_l1_solve_gurobi optimize z pbar kappa w pe
  = Return (o, policy_of pbar x, duals_named "psi" (constrs m) pi).
Proof.
  intros Hs Hpe m Hst HX HPi HO Hlx Hlpi. unfold srect_l1_solve_gurobi.
  rewrite srect_l1_model_closed by assumption. cbn [bind]. fold m.
  rewrite Hst. cbn [GRBStatus_eqb negb].
  rewrite (retrieve_policy_closed _ x _ _ HX).
  - cbn [bind]. unfold l1_budgets.
    rewrite (l1_budgets_loop_closed _ pi _ HPi) by lia.
    cbn [bind app]. unfold get_ObjVal. rewrite HO. reflexivity.
  - unfold layout; cbn [v_d]. rewrite length_seq. lia.
  - now apply layout_d_in_range.
Qed.

Lemma srect_linf_solve_attrs (optimize : GRBModel -> GRBSolution)
    (z pbar : numvecvec) (kappa : Q) (w : numvecvec)
    (x pi : list Q) (o : Q) :
  covers pbar z -> (w = [] \/ length w = length z) ->
  let m := linf_lp z pbar kappa in
  X (optimize m) = Some x -> Pi (optimize m) = Some pi ->
  ObjVal (optimize m) = Some o ->
  length x = length (vars m) -> length pi = length (constrs m) ->
  srect_linf_solve_gurobi optimize z pbar kappa w
  = Return (o, policy_of pbar x, duals_named "theta" (constrs m) pi).
Proof.
  intros Hz Hw m HX HPi HO Hlx Hlpi. unfold srect_linf_solve_gurobi.
  rewrite srect_linf_model_closed by assumption. cbn [bind]. fold m.
  rewrite (retrieve_policy_closed _ x _ _ HX).
  - cbn [bind]. unfold linf_budgets.
    assert (Hc := linf_lp_theta_count z pbar kappa). fold m in Hc.
    rewrite (linf_budgets_loop_closed _ pi _ HPi 0 [] (repeat 0 (length pbar)))
      by (rewrite ?repeat_length; lia).
    cbn [bind app]. unfold get_ObjVal. rewrite HO. cbn [bind].
    rewrite skipn_all2 by (rewrite length_map, repeat_length; lia).
    now rewrite app_nil_r.
  - unfold layout; cbn [v_d]. rewrite length_seq. lia.
  - now apply layout_d_in_range.
Qed.

(* ================================================================== *)
(** * The budget rows of the L-infinity program (C6) *)
(* ================================================================== *)

(** C6.  On every input that the L-infinity builder accepts, the program
    does not depend on [w]; it has exactly one row named "theta" per action;
    and a point satisfies its rows exactly when, for every action, it
    satisfies the rows [P] of the action's outcomes and
    [sum_s (yp_i + yn_i) <= lambda * 1], and the policy sums to 1.  The
    operation has no [policy_eval] argument, and no row pins the policy. *)
Theorem linf_budget_rows_per_action (z pbar : numvecvec) (kappa : Q)
    (w : numvecvec) :
  covers pbar z -> (w = [] \/ length w = length z) ->
  exists m,
    srect_linf_model z pbar kappa w = Return (m, layout pbar) /\
    srect_linf_model z pbar kappa [] = Return (m, layout pbar) /\
    length (rows_named "theta" (constrs m) 0) = length pbar /\
    forall tol v,
      Forall (constr_holds tol v) (constrs m)
      <-> all_actions (fun a i row =>
                         all_states (fun s i _ => P_holds tol z pbar v a s i) 0 i row
                         /\ theta_holds tol pbar v i row)
                      0 0 pbar
          /\ normalized tol pbar v.
Proof.
  intros Hz Hw. exists (linf_lp z pbar kappa).
  split; [now apply srect_linf_model_closed|].
  split; [apply srect_linf_model_closed; [assumption | now left]|].
  split; [apply linf_lp_theta_count|].
  intros tol v. unfold linf_lp. cbn [constrs].
  rewrite Forall_app, linf_action_rows_hold, Forall_cons_iff, ones_row_holds.
  split; [tauto|].
  intros [HA HN]. split; [exact HA | split; [exact HN | constructor]].
Qed.

Lemma linf_budget_rows_per_action_witness :
  covers pbar_scn z_scn /\
  exists m,
    srect_linf_model z_scn pbar_scn 0 [[1; 2]; [3; 4]] = Return (m, layout pbar_scn) /\
    srect_linf_model z_scn pbar_scn 0 [] = Return (m, layout pbar_scn) /\
    length (rows_named "theta" (constrs m) 0) = length pbar_scn /\
    forall tol v,
      Forall (constr_holds tol v) (constrs m)
      <-> all_actions (fun a i row =>
                         all_states (fun s i _ => P_holds tol z_scn pbar_scn v a s i)
                                    0 i row
                         /\ theta_holds tol pbar_scn v i row)
                      0 0 pbar_scn
          /\ normalized tol pbar_scn v.
Proof.
  assert (Hz : covers pbar_scn z_scn) by (repeat constructor).
  split; [exact Hz|].
  exact (linf_budget_rows_per_action z_scn pbar_scn 0 [[1; 2]; [3; 4]] Hz
           (or_intror eq_refl)).
Defined.

(* ================================================================== *)
(** * The policy rows of the L1 program (C5) *)
(* ================================================================== *)

Lemma pinned_policy (tol : Q) (pbar : numvecvec) (x : list Q) (pe : numvec) :
  forall i j,
    all_states (fun a _ q =>
                  val x (col_d pbar a) <= q + tol /\ q <= val x (col_d pbar a) + tol)
               i j pe ->
    Forall2 (fun p q => Qabs (p - q) <= tol)
            (map (fun a => val x (col_d pbar a)) (seq i (length pe))) pe.
Proof.
  induction pe as [|q pe IH]; intros i j; cbn [all_states length seq map].
  - constructor.
  - intros [[H1 H2] Hrest]. constructor.
    + apply Qabs_Qle_condition. split; lra.
    + now apply (IH (S i) (S j)).
Qed.

(** C5.  On every input that the L1 builder accepts, the policy rows are
    chosen by [policy_eval] being empty or not: with an empty [policy_eval]
    a point satisfies the rows of the program exactly when the policy sums
    to 1 and the rows of the loops hold; otherwise exactly when
    [d_a = policy_eval[a]] for every action and the rows of the loops hold.
    In the second case every returned policy is within [tol] of
    [policy_eval], [tol] being the tolerance up to which the solver's point
    satisfies the rows.  ([policy_eval] is the vector of binary64 numbers
    that the call gets; the rows and the comparison are about their
    values.) *)
Theorem l1_policy_rows_by_policy_eval (z pbar : numvecvec) (kappa : Q)
    (w : numvecvec) (policy_eval : list float) :
  shapes_ok z pbar w -> policy_eval_ok z policy_eval ->
  exists m,
    srect_l1_model z pbar kappa w policy_eval = Return (m, layout pbar) /\
    (forall tol v,
       let loops :=
         all_actions (fun a i row =>
                        all_states (fun s i _ => P_holds tol z pbar v a s i
                                                 /\ psi_holds tol pbar w v a s i)
                                   0 i row)
                     0 0 pbar in
       (policy_eval = [] ->
        (Forall (constr_holds tol v) (constrs m) <-> normalized tol pbar v /\ loops)) /\
       (policy_eval <> [] ->
        (Forall (constr_holds tol v) (constrs m)
         <-> pinned tol pbar v (double_values policy_eval) /\ loops))) /\
    (forall optimize tol o policy budgets,
       policy_eval <> [] ->
       srect_l1_solve_gurobi optimize z pbar kappa w policy_eval
       = Return (o, policy, budgets) ->
       feasible_within tol m (attr_list (X (optimize m))) ->
       Forall2 (fun p q => Qabs (p - q) <= tol) policy (double_values policy_eval)).
Proof.
  intros Hs Hpe. exists (l1_lp z pbar kappa w (double_values policy_eval)).
  split; [now apply srect_l1_model_closed|]. split.
  - intros tol v. cbv zeta.
    assert (Hrows := l1_feasible_iff tol z pbar kappa w (double_values policy_eval) v).
    unfold feasible_within in Hrows.
    unfold l1_lp. cbn [constrs].
    rewrite Forall_app, l1_action_rows_hold. unfold l1_policy_rows.
    split; intros Hc.
    + subst policy_eval. cbn [double_values map is_empty].
      rewrite Forall_cons_iff, ones_row_holds. split; [tauto|].
      intros [HN HA]. split; [split; [exact HN | constructor] | exact HA].
    + destruct policy_eval as [|q pe]; [congruence|].
      cbn [double_values map is_empty].
      unfold pinned.
      now rewrite (pin_rows_hold tol pbar v (double_value q :: map double_value pe) 0 0).
  - intros optimize tol o policy budgets Hne Hret Hfeas.
    apply srect_l1_solve_Return in Hret; try assumption.
    cbv zeta in Hret. destruct Hret as (_ & _ & -> & _).
    apply l1_feasible_iff in Hfeas. destruct Hfeas as (_ & Hpol & _).
    destruct policy_eval as [|q pe]; [congruence|].
    cbn [double_values map is_empty] in Hpol |- *.
    destruct Hpe as [Hpe|[Hlen _]]; [discriminate|].
    unfold policy_of. destruct Hs as [Hz _].
    rewrite (covers_length _ _ Hz), <- Hlen.
    replace (length (q :: pe)) with (length (double_value q :: map double_value pe))
      by (cbn [length]; now rewrite length_map).
    now apply (pinned_policy tol pbar _ (double_value q :: map double_value pe) 0 0).
Qed.

(* ================================================================== *)
(** * The length of the budgets (C8) *)
(* ================================================================== *)

(** The budgets returned by the L1 operation are the dual values of the
    rows named "psi", one per pair (a, s) of an action and one of its
    outcomes; those returned by the L-infinity operation are the dual values
    of the rows named "theta", one per action. *)
Theorem budgets_length (optimize : GRBModel -> GRBSolution)
    (z pbar : numvecvec) (kappa : Q) (w : numvecvec) (policy_eval : list float) :
  shapes_ok z pbar w ->
  (policy_eval_ok z policy_eval ->
   forall o policy budgets,
     srect_l1_solve_gurobi optimize z pbar kappa w policy_eval
     = Return (o, policy, budgets) ->
     let m := l1_lp z pbar kappa w (double_values policy_eval) in
     budgets = duals_named "psi" (constrs m) (attr_list (Pi (optimize m))) /\
     length budgets = nstateactions pbar) /\
  (forall o policy budgets,
     srect_linf_solve_gurobi optimize z pbar kappa w = Return (o, policy, budgets) ->
     let m := linf_lp z pbar kappa in
     budgets = duals_named "theta" (constrs m) (attr_list (Pi (optimize m))) /\
     length budgets = length pbar).
Proof.
  intros Hs. split; [intros Hpe|]; intros o policy budgets Hret; cbv zeta.
  - apply srect_l1_solve_Return in Hret; try assumption.
    cbv zeta in Hret. destruct Hret as (_ & _ & _ & ->).
    split; [reflexivity|]. unfold duals_named.
    rewrite length_map. apply l1_lp_psi_count.
  - destruct Hs as [Hz Hw].
    apply srect_linf_solve_Return in Hret; try assumption.
    + cbv zeta in Hret. destruct Hret as (_ & _ & ->).
      split; [reflexivity|]. unfold duals_named.
      rewrite length_map. apply linf_lp_theta_count.
    + destruct Hw as [->|Hw]; [now left | right].
      now rewrite <- (covers_length _ _ Hw), (covers_length _ _ Hz).
Qed.

(* ================================================================== *)
(** * Checking optimality conditions by computation *)
(* ================================================================== *)

Lemma forall2b_Forall2 {A B} (f : A -> B -> bool) (P : A -> B -> Prop)
    (l1 : list A) (l2 : list B) :
  (forall a b, f a b = true -> P a b) ->
  forallb (fun _ => true) l1 = true ->
  forall2b f l1 l2 = true -> Forall2 P l1 l2.
Proof.
  intros HfP _. revert l2; induction l1 as [|a l1 IH]; intros [|b l2]; simpl;
    try discriminate.
  - constructor.
  - intros H. apply andb_true_iff in H. destruct H as [H1 H2].
    constructor; [now apply HfP | now apply IH].
Qed.

Lemma bounds_holdb_sound (vi : GRBVarInfo) (q : Q) :
  bounds_holdb vi q = true -> bounds_hold 0 vi q.
Proof.
  unfold bounds_holdb, bounds_hold, lb_holds, ub_holds. intros H.
  apply andb_true_iff in H. destruct H as [Hl Hu]. split.
  - destruct (LB vi); [exact I | now apply Qle_bool_iff | discriminate].
  - destruct (UB vi); [discriminate | now apply Qle_bool_iff | exact I].
Qed.

Lemma constr_holdsb_sound (v : list Q) (c : GRBConstr) :
  constr_holdsb v c = true -> constr_holds 0 v c.
Proof.
  unfold constr_holdsb, constr_holds, sense_holds. destruct (Sense c); intros H.
  - now apply Qle_bool_iff.
  - apply andb_true_iff in H. destruct H. split; now apply Qle_bool_iff.
  - now apply Qle_bool_iff.
Qed.

Lemma dual_signb_sound (c : GRBConstr) (p : Q) :
  dual_signb c p = true -> dual_sign c p.
Proof.
  unfold dual_signb, dual_sign. destruct (Sense c); intros H;
    [now apply Qle_bool_iff | exact I | now apply Qle_bool_iff].
Qed.

Lemma rc_complb_sound (vi : GRBVarInfo) (xj rc : Q) :
  rc_complb vi xj rc = true -> rc_compl vi xj rc.
Proof.
  unfold rc_complb, rc_compl. intros H.
  apply andb_true_iff in H. destruct H as [Hp Hn]. split; intros Hrc.
  - apply Qltb_true in Hrc. rewrite Hrc in Hp.
    destruct (UB vi); try discriminate. now apply Qeq_bool_iff.
  - apply Qltb_true in Hrc. rewrite Hrc in Hn.
    destruct (LB vi); try discriminate. now apply Qeq_bool_iff.
Qed.

Lemma rc_compl_allb_sound (m : GRBModel) (pi x : list Q) (vs : list GRBVarInfo) :
  forall j, rc_compl_allb m pi x vs j = true -> rc_compl_all m pi x vs j.
Proof.
  induction vs as [|vi vs IH]; intros j; simpl.
  - trivial.
  - intros H. apply andb_true_iff in H. destruct H as [H1 H2].
    split; [now apply rc_complb_sound | now apply IH].
Qed.

(** What [optimality_check] accepts satisfies the optimality conditions. *)
Theorem optimality_check_sound (m : GRBModel) (x pi : list Q) (o : Q) :
  optimality_check m x pi o = true -> optimality_conditions m x pi o.
Proof.
  unfold optimality_check. intros H.
  repeat (apply andb_true_iff in H; destruct H as [H ?]).
  constructor.
  - destruct (ModelSense m); [discriminate | reflexivity].
  - split.
    + eapply forall2b_Forall2; [apply bounds_holdb_sound | | eassumption].
      apply forallb_forall. reflexivity.
    + apply Forall_forall. intros c Hc. apply constr_holdsb_sound.
      eapply forallb_forall; eassumption.
  - eapply forall2b_Forall2; [apply dual_signb_sound | | eassumption].
    apply forallb_forall. reflexivity.
  - eapply forall2b_Forall2; [| | eassumption].
    + intros c p Hcp. unfold slack_complb in Hcp. now apply Qeq_bool_iff.
    + apply forallb_forall. reflexivity.
  - now apply rc_compl_allb_sound.
  - now apply Qeq_bool_iff.
Qed.

(** The outcomes of [scenario_solver] are optimal for the four programs of
    the scenario. *)
Lemma scenario_solver_optimal :
  grb_optimal (l1_lp z_scn pbar_scn 0 [] []) (scenario_solver (l1_lp z_scn pbar_scn 0 [] [])) /\
  grb_optimal (l1_lp z_scn pbar_scn 1 [] []) (scenario_solver (l1_lp z_scn pbar_scn 1 [] [])) /\
  grb_optimal (linf_lp z_scn pbar_scn 0) (scenario_solver (linf_lp z_scn pbar_scn 0)) /\
  grb_optimal (linf_lp z_scn pbar_scn 1) (scenario_solver (linf_lp z_scn pbar_scn 1)).
Proof.
  repeat split; try reflexivity;
    eexists; eexists; eexists;
    (split; [reflexivity|]); (split; [reflexivity|]); (split; [reflexivity|]);
    apply optimality_check_sound; vm_compute; reflexivity.
Qed.

(* ================================================================== *)
(** * The programs are well formed *)
(* ================================================================== *)

Lemma var_at_seq_lt (b n i N : nat) :
  (b + n <= N)%nat -> (0 < N)%nat -> (var_at (seq b n) i < N)%nat.
Proof.
  intros Hb HN. unfold var_at.
  destruct (Nat.lt_ge_cases i n) as [Hi|Hi].
  - rewrite seq_nth by assumption. lia.
  - rewrite nth_overflow by (rewrite length_seq; lia). assumption.
Qed.

Lemma layout_cols_lt (pbar : numvecvec) :
  let N := length (var_infos pbar) in
  (forall a, (var_at (v_x (layout pbar)) a < N)%nat) /\
  (forall i, (var_at (v_yp (layout pbar)) i < N)%nat) /\
  (forall i, (var_at (v_yn (layout pbar)) i < N)%nat) /\
  (v_lambda (layout pbar) < N)%nat /\
  (forall a, (var_at (v_d (layout pbar)) a < N)%nat).
Proof.
  cbv zeta. rewrite var_infos_length. unfold layout.
  cbn [v_x v_yp v_yn v_lambda v_d].
  repeat split; intros; try apply var_at_seq_lt; lia.
Qed.

Section WellFormed.
Variables (z pbar w : numvecvec).
Let N := length (var_infos pbar).
Let L := layout pbar.

Ltac wf_terms :=
  destruct (layout_cols_lt pbar) as (Hx & Hyp & Hyn & Hl & Hd);
  repeat constructor; simpl; auto.

Lemma P_row_wf (a s i : nat) : terms_wf N (row (P_row z L a s i)).
Proof. wf_terms. Qed.

Lemma psi_row_wf (a s i : nat) : terms_wf N (row (psi_row w L a s i)).
Proof. wf_terms. Qed.

Lemma state_terms_wf (row0 : numvec) : forall i, terms_wf N (state_terms L i row0).
Proof.
  destruct (layout_cols_lt pbar) as (Hx & Hyp & Hyn & Hl & Hd).
  induction row0 as [|p row0 IH]; intros i; simpl.
  - constructor.
  - constructor; [apply Hyp|]. constructor; [apply Hyn|]. apply IH.
Qed.

Lemma action_terms_wf (rows : numvecvec) : forall a i, terms_wf N (action_terms L a i rows).
Proof.
  destruct (layout_cols_lt pbar) as (Hx & Hyp & Hyn & Hl & Hd).
  induction rows as [|r rows IH]; intros a i; simpl.
  - constructor.
  - constructor; [apply Hx|]. apply Forall_app. split; [apply state_terms_wf | apply IH].
Qed.

Lemma z_dual_terms_wf (row0 : numvec) : forall i, terms_wf N (z_dual_terms L i row0).
Proof.
  destruct (layout_cols_lt pbar) as (Hx & Hyp & Hyn & Hl & Hd).
  induction row0 as [|p row0 IH]; intros i; simpl.
  - constructor.
  - constructor; [apply Hyp|]. constructor; [apply Hyn|]. apply IH.
Qed.

Lemma theta_row_wf (i : nat) (row0 : numvec) : terms_wf N (row (theta_row L i row0)).
Proof.
  destruct (layout_cols_lt pbar) as (Hx & Hyp & Hyn & Hl & Hd).
  unfold theta_row, mk_row, theta_constr.
  cbn [row t_lhs t_rhs tc_le le_terms le_sub le_add le_scale le_neg_var le_dbl map app].
  rewrite app_nil_r. constructor; [exact Hl | apply z_dual_terms_wf].
Qed.

Lemma ones_row_wf (name : string) : terms_wf N (row (ones_row pbar L name)).
Proof.
  destruct (layout_cols_lt pbar) as (Hx & Hyp & Hyn & Hl & Hd).
  unfold ones_row, mk_row, addTerms.
  cbn [row t_lhs t_rhs le_terms le_sub le_add le_scale le_dbl le_zero map app].
  rewrite app_nil_r. apply Forall_forall. intros [c j] Hin.
  assert (Hin' : In (c, j) (combine (repeat 1 (length pbar)) (v_d L))).
  { rewrite <- (firstn_skipn (length pbar)). apply in_or_app. now left. }
  clear Hin. rename Hin' into Hin.
  apply in_combine_r in Hin. cbn [snd].
  apply (In_nth _ _ 0%nat) in Hin. destruct Hin as (k & _ & <-). apply Hd.
Qed.

Lemma pin_rows_wf (pe : numvec) :
  forall i, Forall (fun c => terms_wf N (row c)) (pin_rows L i pe).
Proof.
  destruct (layout_cols_lt pbar) as (Hx & Hyp & Hyn & Hl & Hd).
  induction pe as [|q pe IH]; intros i; simpl.
  - constructor.
  - constructor; [|apply IH]. repeat constructor. apply Hd.
Qed.

Lemma l1_state_rows_wf (a : nat) (row0 : numvec) :
  forall s i, Forall (fun c => terms_wf N (row c)) (l1_state_rows z w L a s i row0).
Proof.
  induction row0 as [|p row0 IH]; intros s i; simpl.
  - constructor.
  - constructor; [apply P_row_wf|]. constructor; [apply psi_row_wf | apply IH].
Qed.

Lemma l1_action_rows_wf (rows : numvecvec) :
  forall a i, Forall (fun c => terms_wf N (row c)) (l1_action_rows z w L a i rows).
Proof.
  induction rows as [|r rows IH]; intros a i; simpl.
  - constructor.
  - apply Forall_app. split; [apply l1_state_rows_wf | apply IH].
Qed.

Lemma linf_state_rows_wf (a : nat) (row0 : numvec) :
  forall s i, Forall (fun c => terms_wf N (row c)) (linf_state_rows z L a s i row0).
Proof.
  induction row0 as [|p row0 IH]; intros s i; simpl.
  - constructor.
  - constructor; [apply P_row_wf | apply IH].
Qed.

Lemma linf_action_rows_wf (rows : numvecvec) :
  forall a i, Forall (fun c => terms_wf N (row c)) (linf_action_rows z L a i rows).
Proof.
  induction rows as [|r rows IH]; intros a i; simpl.
  - constructor.
  - apply Forall_app. split; [apply linf_state_rows_wf|].
    constructor; [apply theta_row_wf | apply IH].
Qed.

Lemma srect_objective_wf (kappa : Q) :
  terms_wf N (le_terms (srect_objective pbar kappa)).
Proof.
  destruct (layout_cols_lt pbar) as (Hx & Hyp & Hyn & Hl & Hd).
  unfold srect_objective. cbn [le_terms]. apply Forall_app. split.
  - apply action_terms_wf.
  - repeat constructor. exact Hl.
Qed.

Lemma l1_lp_wf (kappa : Q) (pe : numvec) : model_wf (l1_lp z pbar kappa w pe).
Proof.
  split; cbn [l1_lp vars constrs objective].
  - apply srect_objective_wf.
  - apply Forall_app. split; [|apply l1_action_rows_wf].
    unfold l1_policy_rows. destruct (is_empty pe).
    + constructor; [apply ones_row_wf | constructor].
    + apply pin_rows_wf.
Qed.

Lemma linf_lp_wf (kappa : Q) : model_wf (linf_lp z pbar kappa).
Proof.
  split; cbn [linf_lp vars constrs objective].
  - apply srect_objective_wf.
  - apply Forall_app. split; [apply linf_action_rows_wf|].
    constructor; [apply ones_row_wf | constructor].
Qed.
End WellFormed.

(* ================================================================== *)
(** * With an optimal solution the operations return *)
(* ================================================================== *)

Lemma grb_optimal_unpack (m : GRBModel) (sol : GRBSolution) :
  grb_optimal m sol ->
  exists x pi o,
    Status sol = GRB_OPTIMAL /\ X sol = Some x /\ Pi sol = Some pi /\
    ObjVal sol = Some o /\ optimality_conditions m x pi o /\
    length x = length (vars m) /\ length pi = length (constrs m).
Proof.
  intros (Hst & x & pi & o & HX & HPi & HO & Hoc).
  exists x, pi, o. do 5 (split; [assumption|]). split.
  - destruct Hoc as [_ [Hb _] _ _ _ _]. symmetry. exact (Forall2_length Hb).
  - destruct Hoc as [_ _ Hs _ _ _]. symmetry. exact (Forall2_length Hs).
Qed.

Lemma srect_l1_solve_optimal (optimize : GRBModel -> GRBSolution)
    (z pbar : numvecvec) (kappa : Q) (w : numvecvec) (pe : list float) :
  shapes_ok z pbar w -> policy_eval_ok z pe ->
  let m := l1_lp z pbar kappa w (double_values pe) in
  grb_optimal m (optimize m) ->
  exists x pi o,
    X (optimize m) = Some x /\ Pi (optimize m) = Some pi /\
    optimality_conditions m x pi o /\
    srect_l1_solve_gurobi optimize z pbar kappa w pe
    = Return (o, policy_of pbar x, duals_named "psi" (constrs m) pi).
Proof.
  intros Hs Hpe m Hopt.
  destruct (grb_optimal_unpack _ _ Hopt)
    as (x & pi & o & Hst & HX & HPi & HO & Hoc & Hlx & Hlpi).
  exists x, pi, o. do 3 (split; [assumption|]).
  now apply srect_l1_solve_attrs.
Qed.

Lemma srect_linf_solve_optimal (optimize : GRBModel -> GRBSolution)
    (z pbar : numvecvec) (kappa : Q) (w : numvecvec) :
  shapes_ok z pbar w ->
  let m := linf_lp z pbar kappa in
  grb_optimal m (optimize m) ->
  exists x pi o,
    X (optimize m) = Some x /\ Pi (optimize m) = Some pi /\
    optimality_conditions m x pi o /\
    srect_linf_solve_gurobi optimize z pbar kappa w
    = Return (o, policy_of pbar x, duals_named "theta" (constrs m) pi).
Proof.
  intros [Hz Hw] m Hopt.
  destruct (grb_optimal_unpack _ _ Hopt)
    as (x & pi & o & Hst & HX & HPi & HO & Hoc & Hlx & Hlpi).
  exists x, pi, o. do 3 (split; [assumption|]).
  apply srect_linf_solve_attrs; try assumption.
  destruct Hw as [->|Hw]; [now left | right].
  now rewrite <- (covers_length _ _ Hw), (covers_length _ _ Hz).
Qed.

(* ================================================================== *)
(** * The objective does not increase with the budget (C7) *)
(* ================================================================== *)



Lemma scenario_shapes : shapes_ok z_scn pbar_scn [] /\ policy_eval_ok z_scn [].
Proof. split; [split; [repeat constructor | now left] | now left]. Qed.


(* ================================================================== *)
(** * The budgets as dual values (C9) *)
(* ================================================================== *)

Lemma skipn_val (pi : list Q) (j : nat) :
  (j < length pi)%nat -> skipn j pi = val pi j :: skipn (S j) pi.
Proof.
  revert j; induction pi as [|p pi IH]; intros j Hj; simpl in *.
  - lia.
  - destruct j as [|j]; [reflexivity|]. unfold val. simpl.
    apply IH. lia.
Qed.

Lemma rows_named_pick (name : string) (pi : list Q) (cs : list GRBConstr) :
  forall j,
    (j + length cs <= length pi)%nat ->
    map (val pi) (rows_named name cs j) = pick_named name cs (skipn j pi).
Proof.
  induction cs as [|c cs IH]; intros j Hj; simpl in *.
  - reflexivity.
  - rewrite (skipn_val pi j) by lia.
    destruct (String.eqb (ConstrName c) name); simpl; rewrite IH by lia; reflexivity.
Qed.

Lemma duals_named_pick (name : string) (cs : list GRBConstr) (pi : list Q) :
  (length cs <= length pi)%nat ->
  duals_named name cs pi = pick_named name cs pi.
Proof. intros H. unfold duals_named. now rewrite rows_named_pick. Qed.

Lemma pick_named_app (name : string) (cs1 cs2 : list GRBConstr) :
  forall pi,
    pick_named name (cs1 ++ cs2) pi
    = pick_named name cs1 pi ++ pick_named name cs2 (skipn (length cs1) pi).
Proof.
  induction cs1 as [|c cs1 IH]; intros pi; simpl.
  - reflexivity.
  - destruct pi as [|p pi].
    + now destruct cs2.
    + rewrite IH. now destruct (String.eqb (ConstrName c) name).
Qed.

Lemma col_price_app (cs1 cs2 : list GRBConstr) (j : GRBVar) :
  forall pi,
    col_price (cs1 ++ cs2) pi j
    == col_price cs1 pi j + col_price cs2 (skipn (length cs1) pi) j.
Proof.
  induction cs1 as [|c cs1 IH]; intros pi; simpl.
  - lra.
  - destruct pi as [|p pi].
    + destruct cs2; simpl; lra.
    + rewrite IH. lra.
Qed.



Lemma coef_cons_ne (c : Q) (k j : GRBVar) (ts : list (Q * GRBVar)) :
  k <> j -> coef ((c, k) :: ts) j == coef ts j.
Proof.
  intros Hne. simpl. apply Nat.eqb_neq in Hne. rewrite Hne. lra.
Qed.

Lemma coef_cons_eq (c : Q) (j : GRBVar) (ts : list (Q * GRBVar)) :
  coef ((c, j) :: ts) j == c + coef ts j.
Proof. simpl. rewrite Nat.eqb_refl. lra. Qed.

Lemma coef_app (t1 t2 : list (Q * GRBVar)) (j : GRBVar) :
  coef (t1 ++ t2) j == coef t1 j + coef t2 j.
Proof.
  induction t1 as [|[c k] t1 IH]; simpl.
  - lra.
  - rewrite IH. lra.
Qed.



Section LambdaColumn.
Variables (z pbar w : numvecvec).

Lemma P_row_lambda (a s i : nat) :
  (a < length pbar)%nat -> (i < nstateactions pbar)%nat -> coef (row (P_row z (layout pbar) a s i)) (col_lambda pbar) == 0.
Proof.
  intros Ha Hi. destruct (layout_cols pbar) as (Hx & Hyp & Hyn & Hl & Hd).
  unfold P_row, mk_row, P_constr.
  cbn [row t_lhs t_rhs tc_le le_terms le_sub le_add le_scale le_var le_mul map app fst snd].
  fold (col_x pbar a) (col_yp pbar i) (col_yn pbar i) (col_d pbar a).
  rewrite (Hx a Ha), (Hyp i Hi), (Hyn i Hi), (Hd a Ha), Hl.
  rewrite !coef_cons_ne by lia. reflexivity.
Qed.


Lemma state_terms_lambda (row0 : numvec) :
  forall i, (i + length row0 <= nstateactions pbar)%nat -> coef (state_terms (layout pbar) i row0) (col_lambda pbar) == 0.
Proof.
  destruct (layout_cols pbar) as (Hx & Hyp & Hyn & Hl & Hd).
  induction row0 as [|p row0 IH]; intros i Hi; cbn [state_terms length] in *.
  - reflexivity.
  - fold (col_yp pbar i) (col_yn pbar i).
    rewrite (Hyp i), (Hyn i), Hl by lia.
    rewrite !coef_cons_ne by lia. apply IH. lia.
Qed.

Lemma action_terms_lambda (rows : numvecvec) :
  forall a i,
    (a + length rows <= length pbar)%nat ->
    (i + fold_left Nat.add (map (@length Q) rows) 0 <= nstateactions pbar)%nat ->
    coef (action_terms (layout pbar) a i rows) (col_lambda pbar) == 0.
Proof.
  destruct (layout_cols pbar) as (Hx & Hyp & Hyn & Hl & Hd).
  induction rows as [|r rows IH]; intros a i Ha Hi;
    cbn [action_terms length map fold_left] in *.
  - reflexivity.
  - rewrite fold_left_add_shift in Hi. cbn [Nat.add] in Hi.
    fold (col_x pbar a). rewrite (Hx a), Hl by lia.
    rewrite coef_cons_ne by lia.
    rewrite coef_app, state_terms_lambda, IH by lia. lra.
Qed.

(** The objective coefficient of [lambda] is [-kappa]. *)
Lemma objective_lambda (kappa : Q) :
  coef (le_terms (srect_objective pbar kappa)) (col_lambda pbar) == - kappa.
Proof.
  unfold srect_objective. cbn [le_terms].
  rewrite coef_app, action_terms_lambda.
  - fold (col_lambda pbar). rewrite coef_cons_eq. simpl. ring.
  - simpl. lia.
  - simpl. unfold nstateactions, statecounts. lia.
Qed.







Lemma ones_terms_lambda (n : nat) :
  forall b, ((col_lambda pbar) < b)%nat ->
    coef (firstn n (combine (repeat 1 n) (seq b n))) (col_lambda pbar) == 0.
Proof.
  induction n as [|n IH]; intros b Hb; simpl.
  - reflexivity.
  - destruct (Nat.eqb_spec b (col_lambda pbar)); [lia|]. rewrite IH by lia. lra.
Qed.

Lemma ones_row_lambda (name : string) :
  coef (row (ones_row pbar (layout pbar) name)) (col_lambda pbar) == 0.
Proof.
  destruct (layout_cols pbar) as (Hx & Hyp & Hyn & Hl & Hd).
  unfold ones_row, mk_row, addTerms.
  cbn [row t_lhs t_rhs le_terms le_sub le_add le_scale le_dbl le_zero map app].
  rewrite app_nil_r. unfold layout at 1. cbn [v_d].
  apply ones_terms_lambda. rewrite Hl. lia.
Qed.


End LambdaColumn.










(* ================================================================== *)
(** * The theorems at the scenario of the specification *)
(* ================================================================== *)

Lemma l1_policy_rows_by_policy_eval_witness :
  shapes_ok z_scn pbar_scn [] /\ policy_eval_ok z_scn [0.5%float; 0.5%float] /\
  exists m,
    srect_l1_model z_scn pbar_scn 0 [] [0.5%float; 0.5%float] = Return (m, layout pbar_scn) /\
    (forall tol v,
       let loops :=
         all_actions (fun a i row =>
                        all_states (fun s i _ => P_holds tol z_scn pbar_scn v a s i
                                                 /\ psi_holds tol pbar_scn [] v a s i)
                                   0 i row)
                     0 0 pbar_scn in
       ([0.5%float; 0.5%float] = [] ->
        (Forall (constr_holds tol v) (constrs m)
         <-> normalized tol pbar_scn v /\ loops)) /\
       ([0.5%float; 0.5%float] <> [] ->
        (Forall (constr_holds tol v) (constrs m)
         <-> pinned tol pbar_scn v (double_values [0.5%float; 0.5%float]) /\ loops))) /\
    (forall optimize tol o policy budgets,
       [0.5%float; 0.5%float] <> [] ->
       srect_l1_solve_gurobi optimize z_scn pbar_scn 0 [] [0.5%float; 0.5%float]
       = Return (o, policy, budgets) ->
       feasible_within tol m (attr_list (X (optimize m))) ->
       Forall2 (fun p q => Qabs (p - q) <= tol) policy (double_values [0.5%float; 0.5%float])).
Proof.
  assert (Hs : shapes_ok z_scn pbar_scn []) by apply scenario_shapes.
  assert (Hpe : policy_eval_ok z_scn [0.5%float; 0.5%float]) by (right; split; reflexivity).
  split; [exact Hs|]. split; [exact Hpe|].
  exact (l1_policy_rows_by_policy_eval z_scn pbar_scn 0 [] [0.5%float; 0.5%float] Hs Hpe).
Defined.

Lemma budgets_length_witness :
  (forall o policy budgets,
     srect_l1_solve_gurobi scenario_solver z_scn pbar_scn 0 [] []
     = Return (o, policy, budgets) ->
     let m := l1_lp z_scn pbar_scn 0 [] [] in
     budgets = duals_named "psi" (constrs m) (attr_list (Pi (scenario_solver m))) /\
     length budgets = nstateactions pbar_scn) /\
  (forall o policy budgets,
     srect_linf_solve_gurobi scenario_solver z_scn pbar_scn 0 []
     = Return (o, policy, budgets) ->
     let m := linf_lp z_scn pbar_scn 0 in
     budgets = duals_named "theta" (constrs m) (attr_list (Pi (scenario_solver m))) /\
     length budgets = length pbar_scn).
Proof.
  destruct (budgets_length scenario_solver z_scn pbar_scn 0 [] []) as [H1 Hinf].
  - apply scenario_shapes.
  - split; [apply H1; apply scenario_shapes | exact Hinf].
Defined.

(** C8, the L1 operation does not return one budget per action.  Its
    description announces "the individual budgets xi_a", and the L-infinity
    operation sizes its budgets by the number of actions; the L1 operation
    pushes one entry for every row named "psi", and there is one such row
    for every pair of an action and one of its outcomes.  On the scenario (2
    actions with 2 outcomes each) and an optimal solution of each program,
    the L1 operation returns 4 budgets where the L-infinity operation
    returns 2. *)
Theorem srect_l1_budgets_per_outcome :
  length pbar_scn = 2%nat /\
  grb_optimal (l1_lp z_scn pbar_scn 0 [] [])
              (scenario_solver (l1_lp z_scn pbar_scn 0 [] [])) /\
  grb_optimal (linf_lp z_scn pbar_scn 0)
              (scenario_solver (linf_lp z_scn pbar_scn 0)) /\
  srect_l1_solve_gurobi scenario_solver z_scn pbar_scn 0 [] []
  = Return (1 # 2, [1; 0], [0; 0; 0; 0]) /\
  length [0; 0; 0; 0] <> length pbar_scn /\
  srect_linf_solve_gurobi scenario_solver z_scn pbar_scn 0 []
  = Return (1 # 2, [1; 0], [0; 0]).
Proof.
  split; [reflexivity|].
  split; [apply scenario_solver_optimal|].
  split; [apply scenario_solver_optimal|].
  split; [vm_compute; reflexivity|].
  split; [discriminate|].
  vm_compute. reflexivity.
Qed.

(* ================================================================== *)
(** * Loops with counters, read by index *)
(* ================================================================== *)

Lemma nstateactions_cons (r : numvec) (rows : numvecvec) :
  nstateactions (r :: rows) = (length r + nstateactions rows)%nat.
Proof.
  unfold nstateactions, statecounts. simpl. apply fold_left_add_shift.
Qed.

Lemma nstateactions_nil : nstateactions [] = 0%nat.
Proof. reflexivity. Qed.

Lemma firstn_S_cons {A} (a : nat) (r : A) (rows : list A) :
  firstn (S a) (r :: rows) = r :: firstn a rows.
Proof. reflexivity. Qed.

Lemma offset_0 (pbar : numvecvec) : offset pbar 0 = 0%nat.
Proof. reflexivity. Qed.

Lemma offset_cons (r : numvec) (rows : numvecvec) (a : nat) :
  offset (r :: rows) (S a) = (length r + offset rows a)%nat.
Proof. unfold offset. now rewrite firstn_S_cons, nstateactions_cons. Qed.

Lemma offset_S (pbar : numvecvec) (a : nat) :
  (a < length pbar)%nat ->
  offset pbar (S a) = (offset pbar a + length (nth a pbar []))%nat.
Proof.
  revert a; induction pbar as [|r rows IH]; intros a Ha.
  - simpl in Ha. lia.
  - rewrite offset_cons. destruct a as [|a].
    + rewrite !offset_0. simpl. lia.
    + rewrite offset_cons, IH by (simpl in Ha; lia). simpl. lia.
Qed.

Lemma offset_bound (pbar : numvecvec) (a : nat) :
  (a < length pbar)%nat ->
  (offset pbar a + length (nth a pbar []) <= nstateactions pbar)%nat.
Proof.
  revert a; induction pbar as [|r rows IH]; intros a Ha.
  - simpl in Ha. lia.
  - rewrite nstateactions_cons. destruct a as [|a].
    + rewrite offset_0. simpl. lia.
    + rewrite offset_cons. specialize (IH a ltac:(simpl in Ha; lia)). simpl. lia.
Qed.

Lemma all_states_iff (P : nat -> nat -> Q -> Prop) (row : numvec) :
  forall s i,
    all_states P s i row
    <-> forall k, (k < length row)%nat -> P (s + k)%nat (i + k)%nat (nth k row 0).
Proof.
  induction row as [|p row IH]; intros s i; simpl.
  - split; [intros _ k Hk; lia | trivial].
  - rewrite IH. split.
    + intros [H0 Hr] [|k] Hk.
      * now rewrite !Nat.add_0_r.
      * replace (s + S k)%nat with (S s + k)%nat by lia.
        replace (i + S k)%nat with (S i + k)%nat by lia. apply Hr. lia.
    + intros H. split.
      * specialize (H 0%nat ltac:(lia)). now rewrite !Nat.add_0_r in H.
      * intros k Hk. specialize (H (S k) ltac:(lia)).
        replace (s + S k)%nat with (S s + k)%nat in H by lia.
        now replace (i + S k)%nat with (S i + k)%nat in H by lia.
Qed.

Lemma all_actions_iff (P : nat -> nat -> numvec -> Prop) (rows : numvecvec) :
  forall a i,
    all_actions P a i rows
    <-> forall k, (k < length rows)%nat ->
                  P (a + k)%nat (i + offset rows k)%nat (nth k rows []).
Proof.
  induction rows as [|r rows IH]; intros a i; cbn [all_actions length].
  - split; [intros _ k Hk; lia | trivial].
  - rewrite IH. split.
    + intros [H0 Hr] [|k] Hk.
      * rewrite offset_0, !Nat.add_0_r. exact H0.
      * rewrite offset_cons. cbn [nth].
        replace (a + S k)%nat with (S a + k)%nat by lia.
        rewrite Nat.add_assoc. apply Hr. lia.
    + intros H. split.
      * specialize (H 0%nat ltac:(lia)).
        now rewrite offset_0, !Nat.add_0_r in H.
      * intros k Hk. specialize (H (S k) ltac:(lia)).
        rewrite offset_cons in H. cbn [nth] in H.
        replace (a + S k)%nat with (S a + k)%nat in H by lia.
        now rewrite Nat.add_assoc in H.
Qed.

Lemma sum_states_range (f : nat -> Q -> Q) (row : numvec) :
  forall i,
    sum_states f i row
    == sum_range 0 (length row) (fun k => f (i + k)%nat (nth k row 0)).
Proof.
  induction row as [|p row IH]; intros i; simpl.
  - reflexivity.
  - rewrite IH, Nat.add_0_r.
    rewrite (sum_range_shift 1 (length row)).
    apply Qplus_comp; [reflexivity|].
    apply sum_range_ext. intros k _. simpl.
    now replace (i + S k)%nat with (S i + k)%nat by lia.
Qed.

Lemma sum_actions_range (f : nat -> nat -> numvec -> Q) (rows : numvecvec) :
  forall a i,
    sum_actions f a i rows
    == sum_range 0 (length rows)
         (fun k => f (a + k)%nat (i + offset rows k)%nat (nth k rows [])).
Proof.
  induction rows as [|r rows IH]; intros a i; cbn [sum_actions length sum_range].
  - reflexivity.
  - rewrite IH, offset_0, !Nat.add_0_r. cbn [nth].
    rewrite (sum_range_shift 1 (length rows)).
    apply Qplus_comp; [reflexivity|].
    apply sum_range_ext. intros k _. cbn [Nat.add nth].
    rewrite offset_cons.
    replace (a + S k)%nat with (S a + k)%nat by lia.
    now rewrite Nat.add_assoc.
Qed.

Lemma sum_range_le (j n : nat) (f g : nat -> Q) :
  (forall k, (j <= k < j + n)%nat -> f k <= g k) ->
  sum_range j n f <= sum_range j n g.
Proof.
  revert j; induction n as [|n IH]; intros j Hfg; simpl.
  - lra.
  - assert (f j <= g j) by (apply Hfg; lia).
    assert (sum_range (S j) n f <= sum_range (S j) n g)
      by (apply IH; intros k Hk; apply Hfg; lia).
    lra.
Qed.

Lemma sum_range_nonneg (j n : nat) (f : nat -> Q) :
  (forall k, (j <= k < j + n)%nat -> 0 <= f k) -> 0 <= sum_range j n f.
Proof.
  revert j; induction n as [|n IH]; intros j Hf; simpl.
  - lra.
  - assert (0 <= f j) by (apply Hf; lia).
    assert (0 <= sum_range (S j) n f) by (apply IH; intros k Hk; apply Hf; lia).
    lra.
Qed.

(** A sum of non-negative terms is at least each of them. *)
Lemma sum_range_term (j n k : nat) (f : nat -> Q) :
  (forall i, (j <= i < j + n)%nat -> 0 <= f i) ->
  (j <= k < j + n)%nat -> f k <= sum_range j n f.
Proof.
  revert j; induction n as [|n IH]; intros j Hf Hk; simpl.
  - lia.
  - assert (0 <= f j) by (apply Hf; lia).
    assert (0 <= sum_range (S j) n f)
      by (apply sum_range_nonneg; intros i Hi; apply Hf; lia).
    destruct (Nat.eq_dec k j) as [->|Hne].
    + lra.
    + assert (f k <= sum_range (S j) n f)
        by (apply IH; [intros i Hi; apply Hf; lia | lia]).
      lra.
Qed.

Lemma locate_offset (rows : numvecvec) :
  forall a0 a s,
    (a < length rows)%nat -> (s < length (nth a rows []))%nat ->
    locate rows a0 (offset rows a + s) = ((a0 + a)%nat, s).
Proof.
  induction rows as [|r rows IH]; intros a0 a s Ha Hs.
  - simpl in Ha. lia.
  - destruct a as [|a].
    + rewrite offset_0. cbn [locate nth Nat.add] in *.
      destruct (Nat.ltb_spec s (length r)); [|lia]. now rewrite Nat.add_0_r.
    + rewrite offset_cons. cbn [locate nth] in *.
      destruct (Nat.ltb_spec (length r + offset rows a + s) (length r)); [lia|].
      replace (length r + offset rows a + s - length r)%nat
        with (offset rows a + s)%nat by lia.
      rewrite IH by (simpl in Ha; lia). f_equal. lia.
Qed.

Lemma locate_inv (rows : numvecvec) :
  forall a0 i,
    (i < nstateactions rows)%nat ->
    exists a s,
      locate rows a0 i = ((a0 + a)%nat, s) /\ (a < length rows)%nat /\
      (s < length (nth a rows []))%nat /\ i = (offset rows a + s)%nat.
Proof.
  induction rows as [|r rows IH]; intros a0 i Hi.
  - unfold nstateactions in Hi; simpl in Hi. lia.
  - rewrite nstateactions_cons in Hi. cbn [locate].
    destruct (Nat.ltb_spec i (length r)) as [Hlt|Hge].
    + exists 0%nat, i. rewrite offset_0, Nat.add_0_r. cbn [nth length].
      repeat split; lia.
    + destruct (IH (S a0) (i - length r)%nat ltac:(lia)) as (a & s & Hl & Ha & Hs & Hi').
      exists (S a), s. rewrite Hl, offset_cons. cbn [nth length].
      repeat split; try lia. f_equal. lia.
Qed.

(* ================================================================== *)
(** * The value at [kappa = 0]: upper bound *)
(* ================================================================== *)

Lemma nth_map_seq (f : nat -> Q) (n j : nat) :
  (j < n)%nat -> nth j (map f (seq 0 n)) 0 = f j.
Proof.
  intros Hj. rewrite (nth_indep _ 0 (f 0%nat)) by now rewrite length_map, length_seq.
  rewrite map_nth, seq_nth by assumption. reflexivity.
Qed.

Lemma sumQ_map_seq (f : nat -> Q) (n : nat) :
  forall b, sumQ (map f (seq b n)) == sum_range b n f.
Proof.
  induction n as [|n IH]; intros b; simpl.
  - reflexivity.
  - now rewrite IH.
Qed.

Lemma sumQ_range (l : numvec) :
  sumQ l == sum_range 0 (length l) (fun k => nth k l 0).
Proof.
  induction l as [|q l IH]; simpl.
  - reflexivity.
  - rewrite IH, (sum_range_shift 1). reflexivity.
Qed.

Lemma Forall_nth_nonneg (l : numvec) (k : nat) :
  Forall (fun q => 0 <= q) l -> 0 <= nth k l 0.
Proof.
  intros HF. destruct (Nat.lt_ge_cases k (length l)) as [Hk|Hk].
  - rewrite Forall_forall in HF. apply HF. now apply nth_In.
  - rewrite nth_overflow by assumption. lra.
Qed.

Lemma policy_of_nth (pbar : numvecvec) (v : list Q) (a : nat) :
  (a < length pbar)%nat -> nth a (policy_of pbar v) 0 = val v (col_d pbar a).
Proof. intros Ha. unfold policy_of. now rewrite nth_map_seq. Qed.

Lemma policy_of_length (pbar : numvecvec) (v : list Q) :
  length (policy_of pbar v) = length pbar.
Proof. unfold policy_of. now rewrite length_map, length_seq. Qed.

(** The policy of a feasible point is a distribution. *)
Lemma policy_of_distribution (pbar : numvecvec) (v : list Q) :
  bounds_ok 0 pbar v -> normalized 0 pbar v -> is_distribution (policy_of pbar v).
Proof.
  intros Hb [Hn1 Hn2]. split.
  - unfold policy_of. apply Forall_forall. intros q Hin.
    apply in_map_iff in Hin. destruct Hin as (a & <- & Ha). apply in_seq in Ha.
    destruct (bounds_ok_nonneg 0 pbar v Hb) as (_ & _ & Hd).
    specialize (Hd a ltac:(lia)). fold (col_d pbar a). lra.
  - unfold policy_of. rewrite sumQ_map_seq.
    unfold col_d in Hn1, Hn2. apply Qle_antisym; lra.
Qed.

Section UpperBound.
Variables (z pbar : numvecvec) (v : list Q).
Hypothesis Hrows : forall a, (a < length pbar)%nat -> is_distribution (nth a pbar []).
Hypothesis HP :
  all_actions (fun a i row => all_states (fun s i _ => P_holds 0 z pbar v a s i) 0 i row)
              0 0 pbar.

Lemma action_upper_bound (a : nat) :
  (a < length pbar)%nat ->
  val v (col_x pbar a)
  + sum_states (fun i' p => p * (val v (col_yn pbar i') - val v (col_yp pbar i')))
               (offset pbar a) (nth a pbar [])
  <= val v (col_d pbar a) * nominal_value z pbar a.
Proof.
  intros Ha. destruct (Hrows a Ha) as [Hnn Hsum].
  rewrite sumQ_range in Hsum.
  assert (HPa := proj1 (all_actions_iff _ pbar 0 0) HP a Ha).
  cbn [Nat.add] in HPa.
  assert (HPs := proj1 (all_states_iff _ (nth a pbar []) 0 (offset pbar a)) HPa).
  cbn [Nat.add] in HPs. unfold P_holds in HPs.
  unfold nominal_value. rewrite !sum_states_range.
  set (row := nth a pbar []) in *. set (n := length row) in *.
  set (xa := val v (col_x pbar a)) in *. set (da := val v (col_d pbar a)) in *.
  assert (E1 : xa == sum_range 0 n (fun k => nth k row 0 * xa)).
  { rewrite (sum_range_ext 0 n _ (fun k => xa * nth k row 0)) by (intros; ring).
    rewrite sum_range_scale, Hsum. ring. }
  assert (E2 : da * sum_range 0 n (fun k => zval z a (0 + k) * nth k row 0)
               == sum_range 0 n (fun k => nth k row 0 * (da * zval z a k))).
  { rewrite <- sum_range_scale. apply sum_range_ext. intros k _. simpl. ring. }
  rewrite E2. rewrite E1 at 1. rewrite <- sum_range_plus.
  apply sum_range_le. intros k Hk.
  specialize (HPs k ltac:(lia)).
  assert (Hp : 0 <= nth k row 0) by now apply Forall_nth_nonneg.
  set (p := nth k row 0) in *.
  set (yn := val v (col_yn pbar (offset pbar a + k))) in *.
  set (yp := val v (col_yp pbar (offset pbar a + k))) in *.
  assert (Hd : 0 <= da * zval z a k - (xa - yp + yn)) by lra.
  assert (0 <= p * (da * zval z a k - (xa - yp + yn))) by (apply Qmult_le_0_compat; assumption).
  lra.
Qed.

(** At [kappa = 0] the objective at a point that satisfies the rows [P] is
    at most the nominal value of the point's policy. *)
Lemma objective_upper_bound :
  code_objective pbar 0 v <= policy_value z pbar (policy_of pbar v).
Proof.
  unfold code_objective, policy_value. rewrite sum_actions_range.
  assert (E : forall s, s - 0 * val v (col_lambda pbar) == s) by (intros; ring).
  rewrite E. apply sum_range_le. intros a Ha. cbn [Nat.add].
  rewrite policy_of_nth by lia. apply action_upper_bound. lia.
Qed.
End UpperBound.

(* ================================================================== *)
(** * The value at [kappa = 0]: a feasible point for every policy *)
(* ================================================================== *)

Lemma nth_app_skip {A} (l1 l2 : list A) (n i : nat) (d : A) :
  length l1 = n -> nth (n + i) (l1 ++ l2) d = nth i l2 d.
Proof.
  intros Hl. rewrite app_nth2 by lia. f_equal. lia.
Qed.

Section Assemble.
Variables (pbar : numvecvec) (fx fyp fyn : nat -> Q) (lam : Q) (fd : nat -> Q).
Let v := assemble pbar fx fyp fyn lam fd.

Lemma assemble_length : length v = length (var_infos pbar).
Proof.
  unfold v, assemble. rewrite var_infos_length, !length_app, !length_map, !length_seq.
  simpl. lia.
Qed.

Lemma assemble_x (a : nat) : (a < length pbar)%nat -> val v (col_x pbar a) = fx a.
Proof.
  intros Ha. destruct (layout_cols pbar) as (Hx & _). rewrite (Hx a Ha).
  unfold val, v, assemble.
  rewrite app_nth1 by now rewrite length_map, length_seq.
  now apply nth_map_seq.
Qed.

Lemma assemble_yp (i : nat) :
  (i < nstateactions pbar)%nat -> val v (col_yp pbar i) = fyp i.
Proof.
  intros Hi. destruct (layout_cols pbar) as (_ & Hyp & _). rewrite (Hyp i Hi).
  unfold val, v, assemble.
  rewrite nth_app_skip by now rewrite length_map, length_seq.
  rewrite app_nth1 by now rewrite length_map, length_seq.
  now apply nth_map_seq.
Qed.

Lemma assemble_yn (i : nat) :
  (i < nstateactions pbar)%nat -> val v (col_yn pbar i) = fyn i.
Proof.
  intros Hi. destruct (layout_cols pbar) as (_ & _ & Hyn & _). rewrite (Hyn i Hi).
  unfold val, v, assemble.
  rewrite <- Nat.add_assoc.
  rewrite nth_app_skip by now rewrite length_map, length_seq.
  rewrite nth_app_skip by now rewrite length_map, length_seq.
  rewrite app_nth1 by now rewrite length_map, length_seq.
  now apply nth_map_seq.
Qed.

Lemma assemble_lambda : val v (col_lambda pbar) = lam.
Proof.
  destruct (layout_cols pbar) as (_ & _ & _ & Hl & _). rewrite Hl.
  unfold val, v, assemble.
  replace (length pbar + nstateactions pbar + nstateactions pbar)%nat
    with (length pbar + (nstateactions pbar + (nstateactions pbar + 0)))%nat by lia.
  rewrite nth_app_skip by now rewrite length_map, length_seq.
  rewrite nth_app_skip by now rewrite length_map, length_seq.
  rewrite nth_app_skip by now rewrite length_map, length_seq.
  reflexivity.
Qed.

Lemma assemble_d (a : nat) : (a < length pbar)%nat -> val v (col_d pbar a) = fd a.
Proof.
  intros Ha. destruct (layout_cols pbar) as (_ & _ & _ & _ & Hd). rewrite (Hd a Ha).
  unfold val, v, assemble.
  replace (length pbar + nstateactions pbar + nstateactions pbar + 1 + a)%nat
    with (length pbar + (nstateactions pbar + (nstateactions pbar + (1 + a))))%nat
    by lia.
  rewrite nth_app_skip by now rewrite length_map, length_seq.
  rewrite nth_app_skip by now rewrite length_map, length_seq.
  rewrite nth_app_skip by now rewrite length_map, length_seq.
  rewrite (nth_app_skip [lam]) by reflexivity.
  now apply nth_map_seq.
Qed.

Lemma assemble_bounds :
  (forall i, (i < nstateactions pbar)%nat -> 0 <= fyp i) ->
  (forall i, (i < nstateactions pbar)%nat -> 0 <= fyn i) ->
  0 <= lam ->
  (forall a, (a < length pbar)%nat -> 0 <= fd a) ->
  bounds_ok 0 pbar v.
Proof.
  intros Hyp Hyn Hlam Hd. split; [apply assemble_length|].
  rewrite var_infos_length. intros j Hj.
  destruct (layout_cols pbar) as (_ & Cyp & Cyn & Cl & Cd).
  set (nA := length pbar) in *. set (nSA := nstateactions pbar) in *.
  assert (E0 : forall q, 0 <= q -> 0 <= q + 0) by (intros; lra). apply E0.
  destruct (Nat.lt_ge_cases j (nA + nSA)) as [H1|H1].
  - replace j with (col_yp pbar (j - nA)) by (rewrite Cyp; lia).
    rewrite assemble_yp by (fold nSA; lia). apply Hyp. fold nSA. lia.
  - destruct (Nat.lt_ge_cases j (nA + nSA + nSA)) as [H2|H2].
    + replace j with (col_yn pbar (j - nA - nSA)) by (rewrite Cyn; lia).
      rewrite assemble_yn by (fold nSA; lia). apply Hyn. fold nSA. lia.
    + destruct (Nat.eq_dec j (nA + nSA + nSA)) as [H3|H3].
      * replace j with (col_lambda pbar) by (rewrite Cl; lia).
        now rewrite assemble_lambda.
      * replace j with (col_d pbar (j - nA - nSA - nSA - 1)) by (rewrite Cd; lia).
        rewrite assemble_d by (fold nA; lia). apply Hd. fold nA. lia.
Qed.
End Assemble.

Section AttainProofs.
Variables (z pbar w : numvecvec) (d : numvec).
Hypothesis Hlen : length d = length pbar.
Hypothesis Hd : is_distribution d.
Hypothesis Hrows : forall a, (a < length pbar)%nat -> is_distribution (nth a pbar []).

Lemma index_in_range (a s : nat) :
  (a < length pbar)%nat -> (s < length (nth a pbar []))%nat ->
  (offset pbar a + s < nstateactions pbar)%nat.
Proof. intros Ha Hs. assert (H := offset_bound pbar a Ha). lia. Qed.

Lemma att_t_at (a s : nat) :
  (a < length pbar)%nat -> (s < length (nth a pbar []))%nat ->
  att_t z pbar d (offset pbar a + s) = att_x z pbar d a - nth a d 0 * zval z a s.
Proof. intros Ha Hs. unfold att_t. now rewrite locate_offset. Qed.

Lemma att_w_at (a s : nat) :
  (a < length pbar)%nat -> (s < length (nth a pbar []))%nat ->
  att_w pbar w (offset pbar a + s) = weight_of w a s.
Proof. intros Ha Hs. unfold att_w. now rewrite locate_offset. Qed.

Lemma att_yp_nonneg (i : nat) : 0 <= att_yp z pbar d i.
Proof. unfold att_yp. set (t := att_t z pbar d i). nra. Qed.

Lemma att_yn_nonneg (i : nat) : 0 <= att_yn z pbar d i.
Proof. unfold att_yn. set (t := att_t z pbar d i). nra. Qed.

Lemma att_d_nonneg (a : nat) : 0 <= nth a d 0.
Proof. apply Forall_nth_nonneg, Hd. Qed.

Lemma att_d_sum : sum_range 0 (length pbar) (fun a => nth a d 0) == 1.
Proof. rewrite <- Hlen, <- sumQ_range. apply Hd. Qed.

(** The rows [P] hold with equality. *)
Lemma att_P_holds (v : list Q) (lam : Q) :
  v = assemble pbar (att_x z pbar d) (att_yp z pbar d) (att_yn z pbar d) lam
               (fun a => nth a d 0) ->
  all_actions (fun a i row => all_states (fun s i _ => P_holds 0 z pbar v a s i) 0 i row)
              0 0 pbar.
Proof.
  intros ->. apply all_actions_iff. intros a Ha. cbn [Nat.add].
  apply all_states_iff. intros s Hs. cbn [Nat.add]. unfold P_holds.
  assert (Hi := index_in_range a s Ha Hs).
  rewrite assemble_x, assemble_yp, assemble_yn, assemble_d by assumption.
  unfold att_yp, att_yn. rewrite (att_t_at a s Ha Hs).
  apply Qle_lteq. right. ring.
Qed.

(** The objective of the point is the nominal value of the policy. *)
Lemma att_objective (v : list Q) (lam : Q) :
  v = assemble pbar (att_x z pbar d) (att_yp z pbar d) (att_yn z pbar d) lam
               (fun a => nth a d 0) ->
  code_objective pbar 0 v == policy_value z pbar d.
Proof.
  intros ->. unfold code_objective, policy_value. rewrite sum_actions_range.
  assert (E : forall s, s - 0 * val (assemble pbar (att_x z pbar d) (att_yp z pbar d)
                                       (att_yn z pbar d) lam (fun a => nth a d 0))
                                    (col_lambda pbar) == s) by (intros; ring).
  rewrite E. apply sum_range_ext. intros a Ha. cbn [Nat.add].
  assert (Ha' : (a < length pbar)%nat) by lia.
  rewrite assemble_x by assumption.
  rewrite sum_states_range.
  destruct (Hrows a Ha') as [Hnn Hsum]. rewrite sumQ_range in Hsum.
  set (row := nth a pbar []) in *. set (n := length row) in *.
  set (da := nth a d 0).
  assert (E1 : sum_range 0 n
                 (fun k => nth k row 0
                           * (val (assemble pbar (att_x z pbar d) (att_yp z pbar d)
                                     (att_yn z pbar d) lam (fun a => nth a d 0))
                                  (col_yn pbar (offset pbar a + k))
                              - val (assemble pbar (att_x z pbar d) (att_yp z pbar d)
                                       (att_yn z pbar d) lam (fun a => nth a d 0))
                                    (col_yp pbar (offset pbar a + k))))
               == sum_range 0 n
                    (fun k => da * (zval z a k * nth k row 0)
                              + (- att_x z pbar d a) * nth k row 0)).
  { apply sum_range_ext. intros k Hk.
    assert (Hk' : (k < length (nth a pbar []))%nat) by (fold row; fold n; lia).
    assert (Hi := index_in_range a k Ha' Hk').
    rewrite assemble_yp, assemble_yn by assumption.
    unfold att_yp, att_yn. rewrite (att_t_at a k Ha' Hk'). fold da. ring. }
  rewrite E1, sum_range_plus, !sum_range_scale, Hsum.
  unfold att_x at 1 2. fold da. unfold nominal_value. fold row.
  rewrite sum_states_range. fold n.
  rewrite (sum_range_ext 0 n (fun k => zval z a (0 + k) * nth k row 0)
             (fun k => zval z a k * nth k row 0)) by (intros; reflexivity).
  ring.
Qed.

(** ** L1 *)

Hypothesis Hw : weights_positive w pbar.

Lemma att_w_pos (i : nat) :
  (i < nstateactions pbar)%nat -> 0 < att_w pbar w i.
Proof.
  intros Hi. destruct (locate_inv pbar 0 i Hi) as (a & s & Hl & Ha & Hs & ->).
  rewrite att_w_at by assumption. now apply Hw.
Qed.

Lemma att_term_nonneg (i : nat) :
  (i < nstateactions pbar)%nat ->
  0 <= (att_yp z pbar d i + att_yn z pbar d i) / att_w pbar w i.
Proof.
  intros Hi. assert (H1 := att_yp_nonneg i). assert (H2 := att_yn_nonneg i).
  assert (H3 := att_w_pos i Hi).
  apply Qle_shift_div_l; [assumption | lra].
Qed.

Lemma att_lambda_l1_nonneg : 0 <= att_lambda_l1 z pbar w d.
Proof.
  unfold att_lambda_l1. apply sum_range_nonneg. intros k Hk.
  apply att_term_nonneg. lia.
Qed.

Lemma att_psi_holds :
  all_actions (fun a i row =>
                 all_states (fun s i _ => psi_holds 0 pbar w (att_point_l1 z pbar w d) a s i)
                            0 i row)
              0 0 pbar.
Proof.
  apply all_actions_iff. intros a Ha. cbn [Nat.add].
  apply all_states_iff. intros s Hs. cbn [Nat.add]. unfold psi_holds, att_point_l1.
  assert (Hi := index_in_range a s Ha Hs).
  rewrite assemble_lambda, assemble_yp, assemble_yn by assumption.
  set (i := (offset pbar a + s)%nat) in *.
  assert (Hterm : (att_yp z pbar d i + att_yn z pbar d i) / att_w pbar w i
                  <= att_lambda_l1 z pbar w d).
  { unfold att_lambda_l1.
    apply (sum_range_term 0 (nstateactions pbar) i
             (fun i => (att_yp z pbar d i + att_yn z pbar d i) / att_w pbar w i)).
    - intros k Hk. apply att_term_nonneg. lia.
    - lia. }
  assert (Hpos := att_w_pos i Hi).
  unfold i in Hpos, Hterm. rewrite (att_w_at a s Ha Hs) in Hpos, Hterm. fold i in Hterm.
  set (om := weight_of w a s) in *.
  set (S := att_yp z pbar d i + att_yn z pbar d i) in *.
  assert (HS : att_yp z pbar d i + att_yn z pbar d i == S) by reflexivity.
  set (lam := att_lambda_l1 z pbar w d) in *.
  assert (E2 : S == (S / om) * om) by (field; lra).
  assert (H3 : (S / om) * om <= lam * om) by (apply Qmult_le_compat_r; lra).
  assert (E : - lam * om + att_yp z pbar d i + att_yn z pbar d i == S - lam * om)
    by (unfold S; ring).
  rewrite E. lra.
Qed.

(** The point is feasible for the L1 program without [policy_eval]. *)
Lemma att_point_l1_feasible (kappa : Q) :
  feasible (l1_lp z pbar kappa w []) (att_point_l1 z pbar w d).
Proof.
  apply l1_feasible_iff. split; [|split].
  - apply assemble_bounds.
    + intros; apply att_yp_nonneg.
    + intros; apply att_yn_nonneg.
    + apply att_lambda_l1_nonneg.
    + intros; apply att_d_nonneg.
  - cbn [is_empty]. unfold normalized.
    assert (E : sum_range 0 (length pbar)
                  (fun a => val (att_point_l1 z pbar w d) (col_d pbar a)) == 1).
    { rewrite <- att_d_sum. apply sum_range_ext. intros a Ha.
      unfold att_point_l1. rewrite assemble_d by lia. reflexivity. }
    rewrite E. split; lra.
  - assert (HP := att_P_holds (att_point_l1 z pbar w d) _ eq_refl).
    assert (Hpsi := att_psi_holds).
    rewrite all_actions_iff in *. intros a Ha.
    specialize (HP a Ha). specialize (Hpsi a Ha).
    rewrite all_states_iff in *. intros s Hs. split; [now apply HP | now apply Hpsi].
Qed.
End AttainProofs.

(** ** L-infinity *)

Lemma sum_range_split (j n1 n2 : nat) (f : nat -> Q) :
  sum_range j (n1 + n2) f == sum_range j n1 f + sum_range (j + n1) n2 f.
Proof.
  revert j; induction n1 as [|n1 IH]; intros j; simpl.
  - rewrite Nat.add_0_r. lra.
  - rewrite IH. replace (S j + n1)%nat with (j + S n1)%nat by lia. lra.
Qed.

(** A sum of non-negative terms over part of a range is at most the sum
    over the range. *)
Lemma sum_range_part (b n N : nat) (f : nat -> Q) :
  (forall k, (k < N)%nat -> 0 <= f k) -> (b + n <= N)%nat ->
  sum_range b n f <= sum_range 0 N f.
Proof.
  intros Hf Hb.
  replace N with (b + (n + (N - b - n)))%nat by lia.
  rewrite sum_range_split, sum_range_split. cbn [Nat.add].
  assert (0 <= sum_range 0 b f)
    by (apply sum_range_nonneg; intros k Hk; apply Hf; lia).
  assert (0 <= sum_range (b + n) (N - b - n) f)
    by (apply sum_range_nonneg; intros k Hk; apply Hf; lia).
  lra.
Qed.

Section AttainLinf.
Variables (z pbar : numvecvec) (d : numvec).
Hypothesis Hlen : length d = length pbar.
Hypothesis Hd : is_distribution d.

Lemma att_lambda_linf_nonneg : 0 <= att_lambda_linf z pbar d.
Proof.
  unfold att_lambda_linf. apply sum_range_nonneg. intros k Hk.
  assert (H1 := att_yp_nonneg z pbar d k). assert (H2 := att_yn_nonneg z pbar d k). lra.
Qed.

Lemma att_theta_holds :
  all_actions (fun a i row => theta_holds 0 pbar (att_point_linf z pbar d) i row)
              0 0 pbar.
Proof.
  apply all_actions_iff. intros a Ha. cbn [Nat.add]. unfold theta_holds, att_point_linf.
  rewrite assemble_lambda, sum_states_range.
  set (n := length (nth a pbar [])).
  assert (Hb := offset_bound pbar a Ha). fold n in Hb.
  rewrite (sum_range_ext 0 n _
             (fun k => att_yp z pbar d (offset pbar a + k)
                       + att_yn z pbar d (offset pbar a + k))).
  - rewrite <- (sum_range_shift (offset pbar a) n
                  (fun i => att_yp z pbar d i + att_yn z pbar d i)).
    assert (Hpart := sum_range_part (offset pbar a) n (nstateactions pbar)
                       (fun i => att_yp z pbar d i + att_yn z pbar d i)).
    unfold att_lambda_linf.
    assert (Hle : sum_range (offset pbar a) n
                    (fun i => att_yp z pbar d i + att_yn z pbar d i)
                  <= sum_range 0 (nstateactions pbar)
                       (fun i => att_yp z pbar d i + att_yn z pbar d i)).
    { apply Hpart; [|lia]. intros k _.
      assert (H1 := att_yp_nonneg z pbar d k).
      assert (H2 := att_yn_nonneg z pbar d k). lra. }
    lra.
  - intros k Hk. rewrite assemble_yp, assemble_yn by lia. reflexivity.
Qed.

(** The point is feasible for the L-infinity program. *)
Lemma att_point_linf_feasible (kappa : Q) :
  feasible (linf_lp z pbar kappa) (att_point_linf z pbar d).
Proof.
  apply linf_feasible_iff. split; [|split].
  - apply assemble_bounds.
    + intros; apply att_yp_nonneg.
    + intros; apply att_yn_nonneg.
    + apply att_lambda_linf_nonneg.
    + intros; now apply att_d_nonneg.
  - assert (HP := att_P_holds z pbar d Hlen (att_point_linf z pbar d) _ eq_refl).
    assert (Hth := att_theta_holds).
    rewrite all_actions_iff in *. intros a Ha.
    split; [now apply HP | now apply Hth].
  - unfold normalized.
    assert (E : sum_range 0 (length pbar)
                  (fun a => val (att_point_linf z pbar d) (col_d pbar a)) == 1).
    { rewrite <- (att_d_sum pbar d Hlen Hd). apply sum_range_ext. intros a Ha.
      unfold att_point_linf. rewrite assemble_d by lia. reflexivity. }
    rewrite E. split; lra.
Qed.
End AttainLinf.

(* ================================================================== *)
(** * The value at [kappa = 0] is the non-robust value (C2) *)
(* ================================================================== *)

Lemma rows_distributions (pbar : numvecvec) :
  Forall is_distribution pbar ->
  forall a, (a < length pbar)%nat -> is_distribution (nth a pbar []).
Proof.
  intros HF a Ha. rewrite Forall_forall in HF. apply HF. now apply nth_In.
Qed.

(** The optimum of a program whose feasible points satisfy the bounds, the
    normalization and the rows [P], that has the objective of the source at
    [kappa = 0], and that contains a point of objective [policy_value d] for
    every distribution [d]. *)
Lemma optimum_is_nonrobust (m : GRBModel) (z pbar : numvecvec)
    (x pi : list Q) (o : Q) :
  model_wf m ->
  objective m = srect_objective pbar 0 ->
  Forall is_distribution pbar ->
  (forall v, feasible m v ->
     bounds_ok 0 pbar v /\ normalized 0 pbar v /\
     all_actions (fun a i row => all_states (fun s i _ => P_holds 0 z pbar v a s i) 0 i row)
                 0 0 pbar) ->
  (forall d, length d = length pbar -> is_distribution d ->
     exists v, feasible m v /\ code_objective pbar 0 v == policy_value z pbar d) ->
  optimality_conditions m x pi o ->
  nonrobust_value z pbar o.
Proof.
  intros Hwf Hobj Hrows Hfeas Hatt Hoc.
  assert (Hmax : forall d, length d = length pbar -> is_distribution d ->
                           policy_value z pbar d <= o).
  { intros d Hlen Hd. destruct (Hatt d Hlen Hd) as (v & Hv & Ev).
    assert (Hle := optimal_is_maximal m x pi o v Hwf Hoc Hv).
    rewrite Hobj, eval_srect_objective, Ev in Hle. exact Hle. }
  split; [exact Hmax|].
  assert (Hx : feasible m x) by apply Hoc.
  destruct (Hfeas x Hx) as (Hb & Hn & HP).
  exists (policy_of pbar x).
  assert (Hdist := policy_of_distribution pbar x Hb Hn).
  split; [apply policy_of_length|]. split; [exact Hdist|].
  assert (Ho := oc_objval _ _ _ _ Hoc).
  rewrite Hobj, eval_srect_objective in Ho.
  assert (Hub := objective_upper_bound z pbar x (rows_distributions pbar Hrows) HP).
  assert (Hlb := Hmax (policy_of pbar x) (policy_of_length pbar x) Hdist).
  apply Qle_antisym; lra.
Qed.

(** The L1 operation at [kappa = 0], without [policy_eval] and with positive
    weights. *)
Lemma zero_budget_l1 (optimize : GRBModel -> GRBSolution) (z pbar w : numvecvec) :
  shapes_ok z pbar w -> Forall is_distribution pbar -> weights_positive w pbar ->
  grb_optimal (l1_lp z pbar 0 w []) (optimize (l1_lp z pbar 0 w [])) ->
  exists o policy budgets,
    srect_l1_solve_gurobi optimize z pbar 0 w [] = Return (o, policy, budgets) /\
    nonrobust_value z pbar o.
Proof.
  intros Hs Hrows Hw Hopt.
  destruct (srect_l1_solve_optimal optimize z pbar 0 w [] Hs (or_introl eq_refl) Hopt)
    as (x & pi & o & _ & _ & Hoc & Hr).
  do 3 eexists. split; [exact Hr|].
  apply (optimum_is_nonrobust (l1_lp z pbar 0 w []) z pbar x pi o);
    try assumption.
  - apply l1_lp_wf.
  - reflexivity.
  - intros v Hv. apply l1_feasible_iff in Hv. cbn [is_empty] in Hv.
    destruct Hv as (Hb & Hn & Hloops). split; [exact Hb|]. split; [exact Hn|].
    rewrite all_actions_iff in *. intros a Ha. specialize (Hloops a Ha).
    rewrite all_states_iff in *. intros s Hs'. now apply Hloops.
  - intros d Hlen Hd. exists (att_point_l1 z pbar w d). split.
    + now apply att_point_l1_feasible.
    + apply (att_objective z pbar d Hlen (rows_distributions pbar Hrows) _ _ eq_refl).
Qed.

(** The L-infinity operation at [kappa = 0]. *)
Lemma zero_budget_linf (optimize : GRBModel -> GRBSolution) (z pbar w : numvecvec) :
  shapes_ok z pbar w -> Forall is_distribution pbar ->
  grb_optimal (linf_lp z pbar 0) (optimize (linf_lp z pbar 0)) ->
  exists o policy budgets,
    srect_linf_solve_gurobi optimize z pbar 0 w = Return (o, policy, budgets) /\
    nonrobust_value z pbar o.
Proof.
  intros Hs Hrows Hopt.
  destruct (srect_linf_solve_optimal optimize z pbar 0 w Hs Hopt)
    as (x & pi & o & _ & _ & Hoc & Hr).
  do 3 eexists. split; [exact Hr|].
  apply (optimum_is_nonrobust (linf_lp z pbar 0) z pbar x pi o);
    try assumption.
  - apply linf_lp_wf.
  - reflexivity.
  - intros v Hv. apply linf_feasible_iff in Hv.
    destruct Hv as (Hb & Hloops & Hn). split; [exact Hb|]. split; [exact Hn|].
    rewrite all_actions_iff in *. intros a Ha. now apply Hloops.
  - intros d Hlen Hd. exists (att_point_linf z pbar d). split.
    + now apply att_point_linf_feasible.
    + apply (att_objective z pbar d Hlen (rows_distributions pbar Hrows) _ _ eq_refl).
Qed.

Lemma scenario_rows : Forall is_distribution pbar_scn.
Proof. repeat constructor; try (unfold Qle; simpl; lia); reflexivity. Qed.

Lemma nonrobust_value_unique (z pbar : numvecvec) (V V' : Q) :
  nonrobust_value z pbar V -> nonrobust_value z pbar V' -> V == V'.
Proof.
  intros [Hmax (d & Hl & Hd & Ed)] [Hmax' (d' & Hl' & Hd' & Ed')].
  assert (H1 := Hmax d' Hl' Hd'). assert (H2 := Hmax' d Hl Hd).
  apply Qle_antisym; lra.
Qed.

(** The non-robust value of the scenario is 1/2. *)
Lemma scenario_nonrobust_value : nonrobust_value z_scn pbar_scn (1 # 2).
Proof.
  destruct (zero_budget_linf scenario_solver z_scn pbar_scn []
              (proj1 scenario_shapes) scenario_rows (proj1 (proj2 (proj2 scenario_solver_optimal))))
    as (o & pol & b & Hr & Hv).
  vm_compute in Hr. injection Hr as <- _ _. exact Hv.
Qed.

(** C2, amended.  For [kappa = 0], rows of [pbar] that are distributions
    and an optimal solution from the solver, both operations return, and the
    objective they return is the non-robust value
    [max_d sum_a d_a * (z[a] . pbar[a])]: for the L1 operation called
    without [policy_eval] and with weights that are all positive (as they
    are without [w]), for the L-infinity operation always.  On the scenario
    [z = [[1,0],[0,1]]], [pbar = [[0.5,0.5],[0.5,0.5]]] that value is 1/2. *)
Theorem zero_budget_is_nonrobust (optimize : GRBModel -> GRBSolution)
    (z pbar w : numvecvec) :
  shapes_ok z pbar w -> Forall is_distribution pbar ->
  (weights_positive w pbar ->
   grb_optimal (l1_lp z pbar 0 w []) (optimize (l1_lp z pbar 0 w [])) ->
   exists o policy budgets,
     srect_l1_solve_gurobi optimize z pbar 0 w [] = Return (o, policy, budgets) /\
     nonrobust_value z pbar o) /\
  (grb_optimal (linf_lp z pbar 0) (optimize (linf_lp z pbar 0)) ->
   exists o policy budgets,
     srect_linf_solve_gurobi optimize z pbar 0 w = Return (o, policy, budgets) /\
     nonrobust_value z pbar o) /\
  nonrobust_value z_scn pbar_scn (1 # 2).
Proof.
  intros Hs Hrows. split; [|split].
  - intros Hw Hopt. now apply zero_budget_l1.
  - intros Hopt. now apply zero_budget_linf.
  - exact scenario_nonrobust_value.
Qed.

Lemma zero_budget_is_nonrobust_witness :
  shapes_ok z_scn pbar_scn [] /\ Forall is_distribution pbar_scn /\
  (exists o policy budgets,
     srect_l1_solve_gurobi scenario_solver z_scn pbar_scn 0 [] []
     = Return (o, policy, budgets) /\
     nonrobust_value z_scn pbar_scn o) /\
  (exists o policy budgets,
     srect_linf_solve_gurobi scenario_solver z_scn pbar_scn 0 []
     = Return (o, policy, budgets) /\
     nonrobust_value z_scn pbar_scn o).
Proof.
  assert (Hs : shapes_ok z_scn pbar_scn []) by apply scenario_shapes.
  split; [exact Hs|]. split; [exact scenario_rows|].
  destruct (zero_budget_is_nonrobust scenario_solver z_scn pbar_scn [] Hs scenario_rows)
    as (H1 & H2 & _).
  split.
  - apply H1.
    + intros a s _ _. reflexivity.
    + apply scenario_solver_optimal.
  - apply H2. apply scenario_solver_optimal.
Defined.

(** On the scenario, every optimal solution makes both operations return the
    objective 1/2. *)
Corollary scenario_objective_is_half (optimize : GRBModel -> GRBSolution) :
  (grb_optimal (l1_lp z_scn pbar_scn 0 [] []) (optimize (l1_lp z_scn pbar_scn 0 [] [])) ->
   exists o policy budgets,
     srect_l1_solve_gurobi optimize z_scn pbar_scn 0 [] [] = Return (o, policy, budgets) /\
     o == 1 # 2) /\
  (grb_optimal (linf_lp z_scn pbar_scn 0) (optimize (linf_lp z_scn pbar_scn 0)) ->
   exists o policy budgets,
     srect_linf_solve_gurobi optimize z_scn pbar_scn 0 [] = Return (o, policy, budgets) /\
     o == 1 # 2).
Proof.
  split.
  - intros Hopt.
    destruct (zero_budget_l1 optimize z_scn pbar_scn [] (proj1 scenario_shapes) scenario_rows
                (fun a s _ _ => eq_refl) Hopt) as (o & pol & b & Hr & Hv).
    exists o, pol, b. split; [exact Hr|].
    exact (nonrobust_value_unique _ _ _ _ Hv scenario_nonrobust_value).
  - intros Hopt.
    destruct (zero_budget_linf optimize z_scn pbar_scn [] (proj1 scenario_shapes) scenario_rows Hopt)
      as (o & pol & b & Hr & Hv).
    exists o, pol, b. split; [exact Hr|].
    exact (nonrobust_value_unique _ _ _ _ Hv scenario_nonrobust_value).
Qed.

(** C2, as stated, fails for the L1 operation with weights that are zero:
    on the scenario with [w = 0] an optimal solution has the objective 0,
    not the non-robust value 1/2. *)
Lemma zero_weights_counterexample :
  shapes_ok z_scn pbar_scn w_zero /\ Forall is_distribution pbar_scn /\
  grb_optimal (l1_lp z_scn pbar_scn 0 w_zero []) sol_l1_w_zero /\
  srect_l1_solve_gurobi (fun _ => sol_l1_w_zero) z_scn pbar_scn 0 w_zero []
  = Return (0, [1; 0], [1 # 2; 1 # 2; 1 # 2; 1 # 2]) /\
  ~ nonrobust_value z_scn pbar_scn 0.
Proof.
  split; [split; [repeat constructor | right; repeat constructor]|].
  split; [exact scenario_rows|].
  split.
  { split; [reflexivity|]. do 3 eexists.
    do 3 (split; [reflexivity|]).
    apply optimality_check_sound. vm_compute. reflexivity. }
  split; [vm_compute; reflexivity|].
  intros H. assert (E := nonrobust_value_unique _ _ _ _ H scenario_nonrobust_value).
  vm_compute in E. discriminate.
Qed.

(* ================================================================== *)
(** * The helpers of craam/definitions.hpp *)
(* ================================================================== *)

#[local] Arguments at_ {A} v i : simpl never.

Lemma at_middle {A} (pre suf : list A) (a : A) :
  at_ (pre ++ a :: suf) (length pre) = Return a.
Proof.
  unfold at_. rewrite nth_error_app2 by lia. now rewrite Nat.sub_diag.
Qed.

Lemma at_beyond {A} (v : list A) (i : nat) :
  (length v <= i)%nat -> at_ v i = OutOfRange.
Proof.
  intros Hi. unfold at_. now rewrite (proj2 (nth_error_None v i) Hi).
Qed.

Lemma skipn_step {A} (v : list A) (i : nat) :
  (i < length v)%nat ->
  exists b, at_ v i = Return b /\ skipn i v = b :: skipn (S i) v.
Proof.
  revert i; induction v as [|x v IH]; intros i Hi; simpl in Hi; [lia|].
  destruct i as [|i].
  - exists x. split; reflexivity.
  - destruct (IH i ltac:(lia)) as (b & Hb & Hs). exists b. split.
    + exact Hb.
    + exact Hs.
Qed.

Section L1Norm.
Context {T : Type} `{PrecOps T}.

Lemma l1norm_loop_returns (p1 p2 : list T) :
  (length p1 <= length p2)%nat ->
  forall (suf pre : list T) (acc : T),
    p1 = pre ++ suf ->
    for_each (fun i (_ : T) result =>
                a <- at_ p1 i ;;
                b <- at_ p2 i ;;
                Return (p_add result (p_abs (p_sub a b))))
             (length pre) suf acc
    = Return (l1norm_acc acc suf (skipn (length pre) p2)).
Proof.
  intros Hlen. induction suf as [|a suf IH]; intros pre acc Hp; cbn [for_each].
  - reflexivity.
  - assert (Hpre : (length pre < length p2)%nat).
    { rewrite Hp, length_app in Hlen. simpl in Hlen. lia. }
    destruct (skipn_step p2 (length pre) Hpre) as (b & Hb & Hs).
    assert (Ha : at_ p1 (length pre) = Return a) by (rewrite Hp; apply at_middle).
    rewrite Ha, Hb. cbn [bind].
    rewrite Hs. cbn [l1norm_acc].
    specialize (IH (pre ++ [a]) (p_add acc (p_abs (p_sub a b)))).
    rewrite length_app, Nat.add_1_r in IH.
    apply IH. rewrite <- app_assoc. exact Hp.
Qed.

Lemma l1norm_loop_overruns (p1 p2 : list T) :
  (length p2 < length p1)%nat ->
  forall (suf pre : list T) (acc : T),
    p1 = pre ++ suf -> (length pre <= length p2)%nat ->
    for_each (fun i (_ : T) result =>
                a <- at_ p1 i ;;
                b <- at_ p2 i ;;
                Return (p_add result (p_abs (p_sub a b))))
             (length pre) suf acc
    = OutOfRange.
Proof.
  intros Hlen. induction suf as [|a suf IH]; intros pre acc Hp Hpre; cbn [for_each].
  - rewrite Hp, app_nil_r in Hlen. lia.
  - assert (Ha : at_ p1 (length pre) = Return a) by (rewrite Hp; apply at_middle).
    rewrite Ha. cbn [bind].
    destruct (Nat.eq_dec (length pre) (length p2)) as [E|E].
    + rewrite (at_beyond p2) by lia. reflexivity.
    + destruct (skipn_step p2 (length pre) ltac:(lia)) as (b & Hb & _).
      rewrite Hb. cbn [bind].
      specialize (IH (pre ++ [a]) (p_add acc (p_abs (p_sub a b)))).
      rewrite length_app, Nat.add_1_r in IH.
      apply IH; [rewrite <- app_assoc; exact Hp | lia].
Qed.

Lemma l1norm_closed (p1 p2 : list T) :
  (length p1 <= length p2)%nat ->
  l1norm p1 p2 = Return (l1norm_acc p_zero p1 p2).
Proof.
  intros Hlen. exact (l1norm_loop_returns p1 p2 Hlen p1 [] p_zero eq_refl).
Qed.

Lemma l1norm_acc_firstn (p1 p2 : list T) :
  forall acc, l1norm_acc acc p1 (firstn (length p1) p2) = l1norm_acc acc p1 p2.
Proof.
  revert p2; induction p1 as [|a p1 IH]; intros p2 acc.
  - reflexivity.
  - destruct p2 as [|b p2]; [reflexivity|]. simpl. apply IH.
Qed.

(** X1.  [l1norm] reads [p2] at every position of [p1]: it runs outside
    [p2] exactly when [p2] is the shorter one; otherwise it returns, and
    what [p2] holds past the length of [p1] does not count. *)
Theorem l1norm_reads_positions_of_p1 (p1 p2 : list T) :
  (l1norm p1 p2 = OutOfRange <-> (length p2 < length p1)%nat) /\
  ((length p1 <= length p2)%nat ->
   (exists r, l1norm p1 p2 = Return r) /\
   l1norm p1 p2 = l1norm p1 (firstn (length p1) p2)).
Proof.
  split.
  - split.
    + intros Hr. destruct (Nat.lt_ge_cases (length p2) (length p1)) as [Hlt|Hge];
        [exact Hlt|].
      rewrite (l1norm_closed p1 p2 Hge) in Hr. discriminate.
    + intros Hlt. exact (l1norm_loop_overruns p1 p2 Hlt p1 [] p_zero eq_refl (Nat.le_0_l _)).
  - intros Hle. split.
    + eexists. apply (l1norm_closed p1 p2 Hle).
    + rewrite (l1norm_closed p1 p2 Hle).
      rewrite l1norm_closed.
      * now rewrite l1norm_acc_firstn.
      * rewrite length_firstn. lia.
Qed.
End L1Norm.

Lemma l1norm_reads_positions_of_p1_witness :
  l1norm [1; 2] [1; 3; 5] = l1norm [1; 2] [1; 3] /\
  l1norm [1; 2; 3] [1; 2] = OutOfRange.
Proof.
  destruct (l1norm_reads_positions_of_p1 [1; 2] [1; 3; 5]) as [_ Hret].
  destruct (l1norm_reads_positions_of_p1 [1; 2; 3] [1; 2]) as [[_ Hout] _].
  split.
  - apply Hret. simpl. lia.
  - apply Hout. simpl. lia.
Defined.

(** ** [multiply], [multiply_inplace] *)

#[local] Arguments at_ {A} v i : simpl never.

Lemma int_of_size_small (n : nat) :
  (Z.of_nat n < 2 ^ 31)%Z -> Z.to_nat (int_of_size n) = n.
Proof.
  intros Hn. unfold int_of_size.
  rewrite Z.mod_small by (change (2 ^ 32)%Z with (2 ^ 31 + 2 ^ 31)%Z; lia).
  replace (Z.of_nat n + 2 ^ 31 - 2 ^ 31)%Z with (Z.of_nat n) by lia.
  apply Znat.Nat2Z.id.
Qed.

Section Multiply.
Context {T : Type} `{PrecArith T}.

Lemma multiply_loop (value : T) :
  forall (m k : nat) (pre suf : list T),
    length pre = k -> (m <= length suf)%nat ->
    for_each (fun i (_ : nat) vct => multiply_body value i vct) k (seq k m) (pre ++ suf)
    = Return (pre ++ map (fun x => p_mul x value) (firstn m suf) ++ skipn m suf).
Proof.
  induction m as [|m IH]; intros k pre suf Hk Hm.
  - reflexivity.
  - destruct suf as [|x suf]; [simpl in Hm; lia|].
    cbn [seq for_each]. unfold multiply_body at 1. subst k.
    rewrite at_middle. cbn [bind]. rewrite store_middle. cbn [bind].
    replace (pre ++ p_mul x value :: suf) with ((pre ++ [p_mul x value]) ++ suf)
      by (rewrite <- app_assoc; reflexivity).
    rewrite (IH (S (length pre)) (pre ++ [p_mul x value]) suf).
    + rewrite <- app_assoc. reflexivity.
    + rewrite length_app. simpl. lia.
    + simpl in Hm. lia.
Qed.

Lemma multiply_closed (vct : list T) (value : T) :
  (Z.of_nat (length vct) < 2 ^ 31)%Z ->
  multiply vct value = Return (map (fun x => p_mul x value) vct).
Proof.
  intros Hn. unfold multiply. rewrite (int_of_size_small _ Hn).
  assert (E := multiply_loop value (length vct) 0 [] vct eq_refl (Nat.le_refl _)).
  cbn [app] in E. rewrite E.
  rewrite firstn_all, skipn_all, app_nil_r. reflexivity.
Qed.

(** X4.  On a vector of fewer than [2^31] entries (the loop counter is an
    [int]) [multiply] returns every entry times [value], in place and order,
    and [multiply_inplace] leaves the same vector behind. *)
Theorem multiply_scales_every_entry (vct : list T) (value : T) :
  (Z.of_nat (length vct) < 2 ^ 31)%Z ->
  multiply vct value = Return (map (fun x => p_mul x value) vct) /\
  multiply_inplace vct value = multiply vct value.
Proof.
  intros Hn. split; [now apply multiply_closed | reflexivity].
Qed.
End Multiply.

Lemma multiply_scales_every_entry_witness :
  multiply [1; 2; 3] (1 # 2) = Return (map (fun x => x * (1 # 2)) [1; 2; 3]) /\
  multiply_inplace [1; 2; 3] (1 # 2) = multiply [1; 2; 3] (1 # 2).
Proof.
  exact (multiply_scales_every_entry [1; 2; 3] (1 # 2) ltac:(simpl; lia)).
Defined.

(** ** [linspace] *)

Section Linspace.
Context {T : Type} `{PrecOps T} `{PrecArith T}.

Lemma linspace_loop_length (xs : list T) :
  forall val h, length (linspace_loop val h xs) = length xs.
Proof.
  induction xs as [|x xs IH]; intros val h; simpl; [reflexivity|].
  now rewrite IH.
Qed.

(** X7.  [linspace(a, b, N)] has [N] points; with [N = 0] it is empty, with
    [N = 1] it is [a] alone whatever [b] is (the step, a division by zero,
    is not used), and for [N >= 1] it starts with [a]. *)
Theorem linspace_shape (a b : T) (N : nat) :
  length (linspace a b N) = N /\
  linspace a b 0 = [] /\
  linspace a b 1 = [a] /\
  hd_error (linspace a b (S N)) = Some a.
Proof.
  split; [|split; [|split]]; try reflexivity.
  unfold linspace. rewrite linspace_loop_length. apply repeat_length.
Qed.
End Linspace.

(** ** [zip] and [unzip] *)

#[local] Arguments at_ {A} v i : simpl never.

Section ZipProofs.
Context {T1 T2 : Type}.
Variables (init1 : T1) (init2 : T2).

Lemma zip_loop (v1 : list T1) (v2 : list T2) :
  forall (suf1 pre1 : list T1) (suf2 pre2 : list T2) (done rest : list (T1 * T2)),
    v1 = pre1 ++ suf1 -> v2 = pre2 ++ suf2 ->
    length pre2 = length pre1 -> length done = length pre1 ->
    length rest = length suf1 -> length suf2 = length suf1 ->
    for_each (fun i (_ : T1) result =>
                a <- at_ v1 i ;;
                b <- at_ v2 i ;;
                store result i (a, b))
             (length pre1) suf1 (done ++ rest)
    = Return (done ++ combine suf1 suf2).
Proof.
  induction suf1 as [|a suf1 IH]; intros pre1 suf2 pre2 done rest H1 H2 Hp Hd Hr Hs.
  - destruct rest; [|discriminate]. reflexivity.
  - destruct suf2 as [|b suf2]; [discriminate|].
    destruct rest as [|r rest]; [discriminate|].
    cbn [for_each combine].
    assert (Ha : at_ v1 (length pre1) = Return a) by (rewrite H1; apply at_middle).
    assert (Hb : at_ v2 (length pre1) = Return b)
      by (rewrite H2, <- Hp; apply at_middle).
    rewrite Ha, Hb. cbn [bind]. rewrite <- Hd, store_middle. cbn [bind].
    rewrite Hd.
    replace (done ++ (a, b) :: rest) with ((done ++ [(a, b)]) ++ rest)
      by (rewrite <- app_assoc; reflexivity).
    replace (S (length pre1)) with (length (pre1 ++ [a]))
      by (rewrite length_app; simpl; lia).
    rewrite (IH (pre1 ++ [a]) suf2 (pre2 ++ [b]) (done ++ [(a, b)]) rest).
    + rewrite <- app_assoc. reflexivity.
    + rewrite <- app_assoc. exact H1.
    + rewrite <- app_assoc. exact H2.
    + rewrite !length_app. simpl. lia.
    + rewrite !length_app. simpl. lia.
    + simpl in Hr. lia.
    + simpl in Hs. lia.
Qed.

Lemma zip_closed (v1 : list T1) (v2 : list T2) :
  zip init1 init2 v1 v2
  = if (length v1 =? length v2)%nat then Return (combine v1 v2) else AssertionFailed.
Proof.
  unfold zip. destruct (length v1 =? length v2)%nat eqn:E; [|reflexivity].
  apply Nat.eqb_eq in E. cbn [assert bind].
  exact (zip_loop v1 v2 v1 [] v2 [] [] (repeat (init1, init2) (length v1))
           eq_refl eq_refl eq_refl eq_refl (repeat_length _ _) (eq_sym E)).
Qed.

(** X9.  [zip] of two vectors fails its assertion exactly when the sizes
    differ; otherwise it returns the pairs position by position, and no
    default-constructed pair is left in the result. *)
Theorem zip_pairs_positions (v1 : list T1) (v2 : list T2) :
  zip init1 init2 v1 v2
  = if (length v1 =? length v2)%nat then Return (combine v1 v2) else AssertionFailed.
Proof.
  unfold zip. destruct (Nat.eqb_spec (length v1) (length v2)) as [E|E];
    cbn [assert bind]; [|reflexivity].
  exact (zip_loop v1 v2 v1 [] v2 [] [] (repeat (init1, init2) (length v1))
           eq_refl eq_refl eq_refl eq_refl (repeat_length _ _) (eq_sym E)).
Qed.

Lemma unzip_acc (values : list (T1 * T2)) :
  forall (first : list T1) (second : list T2),
    fold_left (fun '(first, second) x => (first ++ [fst x], second ++ [snd x]))
              values (first, second)
    = (first ++ map fst values, second ++ map snd values).
Proof.
  induction values as [|x values IH]; intros first second; cbn [fold_left map].
  - now rewrite !app_nil_r.
  - rewrite IH, <- !app_assoc. reflexivity.
Qed.

Lemma unzip_closed (values : list (T1 * T2)) :
  unzip values = (map fst values, map snd values).
Proof. unfold unzip. now rewrite unzip_acc. Qed.

Lemma combine_fst_snd (values : list (T1 * T2)) :
  combine (map fst values) (map snd values) = values.
Proof.
  induction values as [|[a b] values IH]; cbn [map combine fst snd]; [reflexivity|].
  now rewrite IH.
Qed.

Lemma fst_snd_combine (v1 : list T1) :
  forall (v2 : list T2), length v1 = length v2 ->
    map fst (combine v1 v2) = v1 /\ map snd (combine v1 v2) = v2.
Proof.
  induction v1 as [|a v1 IH]; intros [|b v2] Hl; try discriminate.
  - split; reflexivity.
  - cbn [combine map fst snd]. destruct (IH v2) as [E1 E2]; [simpl in Hl; lia|].
    now rewrite E1, E2.
Qed.

(** X10.  [zip] and [unzip] undo each other: the two vectors of [unzip]
    always zip back to the pairs, and for two vectors of one size the pairs
    of [zip] unzip to the vectors. *)
Theorem zip_unzip_round_trip (values : list (T1 * T2)) (v1 : list T1) (v2 : list T2) :
  zip init1 init2 (fst (unzip values)) (snd (unzip values)) = Return values /\
  (length v1 = length v2 ->
   exists r, zip init1 init2 v1 v2 = Return r /\ unzip r = (v1, v2)).
Proof.
  split.
  - rewrite zip_closed, unzip_closed. cbn [fst snd].
    rewrite !length_map, Nat.eqb_refl. now rewrite combine_fst_snd.
  - intros Hl. exists (combine v1 v2). split.
    + rewrite zip_closed, Hl, Nat.eqb_refl. reflexivity.
    + rewrite unzip_closed. destruct (fst_snd_combine v1 v2 Hl) as [E1 E2].
      now rewrite E1, E2.
Qed.

Lemma zip_value_loop (c : T1) (v2 : list T2) :
  forall (suf2 pre2 : list T2) (done rest : list (T1 * T2)),
    v2 = pre2 ++ suf2 -> length done = length pre2 -> length rest = length suf2 ->
    for_each (fun i (_ : T2) result =>
                b <- at_ v2 i ;;
                store result i (c, b))
             (length pre2) suf2 (done ++ rest)
    = Return (done ++ map (pair c) suf2).
Proof.
  induction suf2 as [|b suf2 IH]; intros pre2 done rest H2 Hd Hr.
  - destruct rest; [|discriminate]. reflexivity.
  - destruct rest as [|r rest]; [discriminate|].
    cbn [for_each map].
    assert (Hb : at_ v2 (length pre2) = Return b) by (rewrite H2; apply at_middle).
    rewrite Hb. cbn [bind]. rewrite <- Hd, store_middle. cbn [bind].
    rewrite Hd.
    replace (done ++ (c, b) :: rest) with ((done ++ [(c, b)]) ++ rest)
      by (rewrite <- app_assoc; reflexivity).
    replace (S (length pre2)) with (length (pre2 ++ [b]))
      by (rewrite length_app; simpl; lia).
    rewrite (IH (pre2 ++ [b]) (done ++ [(c, b)]) rest).
    + rewrite <- app_assoc. reflexivity.
    + rewrite <- app_assoc. exact H2.
    + rewrite !length_app. simpl. lia.
    + simpl in Hr. lia.
Qed.

Lemma zip_value_closed (c : T1) (v2 : list T2) :
  zip_value init1 init2 c v2 = Return (map (pair c) v2).
Proof.
  exact (zip_value_loop c v2 v2 [] [] (repeat (init1, init2) (length v2))
           eq_refl eq_refl (repeat_length _ _)).
Qed.

Lemma zip_value_rows_loop (c : T1) (v2 : list (list T2)) :
  forall (suf2 pre2 : list (list T2)) (done rest : list (list (T1 * T2))),
    v2 = pre2 ++ suf2 -> length done = length pre2 -> length rest = length suf2 ->
    for_each (fun i (_ : list T2) result =>
                b <- at_ v2 i ;;
                r <- zip_value init1 init2 c b ;;
                store result i r)
             (length pre2) suf2 (done ++ rest)
    = Return (done ++ map (map (pair c)) suf2).
Proof.
  induction suf2 as [|b suf2 IH]; intros pre2 done rest H2 Hd Hr.
  - destruct rest; [|discriminate]. reflexivity.
  - destruct rest as [|r rest]; [discriminate|].
    cbn [for_each map].
    assert (Hb : at_ v2 (length pre2) = Return b) by (rewrite H2; apply at_middle).
    rewrite Hb. cbn [bind]. rewrite zip_value_closed. cbn [bind].
    rewrite <- Hd, store_middle. cbn [bind].
    rewrite Hd.
    replace (done ++ map (pair c) b :: rest)
      with ((done ++ [map (pair c) b]) ++ rest)
      by (rewrite <- app_assoc; reflexivity).
    replace (S (length pre2)) with (length (pre2 ++ [b]))
      by (rewrite length_app; simpl; lia).
    rewrite (IH (pre2 ++ [b]) (done ++ [map (pair c) b]) rest).
    + rewrite <- app_assoc. reflexivity.
    + rewrite <- app_assoc. exact H2.
    + rewrite !length_app. simpl. lia.
    + simpl in Hr. lia.
Qed.

(** X11.  [zip] of one value with a vector, or with a vector of vectors,
    never fails: it pairs the value with every entry, keeping the shape, and
    [unzip] gives back the value repeated and the vector. *)
Theorem zip_value_pairs_every_entry (c : T1) (v2 : list T2) (rows : list (list T2)) :
  zip_value init1 init2 c v2 = Return (map (pair c) v2) /\
  unzip (map (pair c) v2) = (repeat c (length v2), v2) /\
  zip_value_rows init1 init2 c rows = Return (map (map (pair c)) rows).
Proof.
  split; [apply zip_value_closed|]. split.
  - rewrite unzip_closed. f_equal.
    + induction v2 as [|b v2 IH]; cbn [map repeat length fst]; [reflexivity|].
      now rewrite IH.
    + induction v2 as [|b v2 IH]; cbn [map snd]; [reflexivity|]. now rewrite IH.
  - exact (zip_value_rows_loop c rows rows [] [] (repeat [] (length rows))
             eq_refl eq_refl (repeat_length _ _)).
Qed.

Lemma zip_rows_loop (v1 : list (list T1)) (v2 : list (list T2)) :
  forall (suf1 pre1 : list (list T1)) (suf2 pre2 : list (list T2))
         (done rest : list (list (T1 * T2))),
    v1 = pre1 ++ suf1 -> v2 = pre2 ++ suf2 ->
    length pre2 = length pre1 -> length done = length pre1 ->
    length rest = length suf1 -> length suf2 = length suf1 ->
    for_each (fun i (_ : list T1) result =>
                a <- at_ v1 i ;;
                b <- at_ v2 i ;;
                r <- zip init1 init2 a b ;;
                store result i r)
             (length pre1) suf1 (done ++ rest)
    = if forallb (fun '(a, b) => (length a =? length b)%nat) (combine suf1 suf2)
      then Return (done ++ map (fun '(a, b) => combine a b) (combine suf1 suf2))
      else AssertionFailed.
Proof.
  induction suf1 as [|a suf1 IH]; intros pre1 suf2 pre2 done rest H1 H2 Hp Hd Hr Hs.
  - destruct rest; [|discriminate]. reflexivity.
  - destruct suf2 as [|b suf2]; [discriminate|].
    destruct rest as [|r rest]; [discriminate|].
    cbn [for_each combine forallb map].
    assert (Ha : at_ v1 (length pre1) = Return a) by (rewrite H1; apply at_middle).
    assert (Hb : at_ v2 (length pre1) = Return b)
      by (rewrite H2, <- Hp; apply at_middle).
    rewrite Ha, Hb. cbn [bind]. rewrite zip_closed.
    destruct (length a =? length b)%nat; [|reflexivity].
    cbn [bind andb]. rewrite <- Hd, store_middle. cbn [bind].
    rewrite Hd.
    replace (done ++ combine a b :: rest) with ((done ++ [combine a b]) ++ rest)
      by (rewrite <- app_assoc; reflexivity).
    replace (S (length pre1)) with (length (pre1 ++ [a]))
      by (rewrite length_app; simpl; lia).
    rewrite (IH (pre1 ++ [a]) suf2 (pre2 ++ [b]) (done ++ [combine a b]) rest).
    + rewrite <- app_assoc. reflexivity.
    + rewrite <- app_assoc. exact H1.
    + rewrite <- app_assoc. exact H2.
    + rewrite !length_app. simpl. lia.
    + rewrite !length_app. simpl. lia.
    + simpl in Hr. lia.
    + simpl in Hs. lia.
Qed.

(** X12.  [zip] of two vectors of vectors returns exactly when the two have
    the same number of rows and every two rows at one position have the
    same size, and then it zips row by row; in every other case it ends in
    a failed assertion (its own or that of the row), never outside a
    vector. *)
Theorem zip_rows_checks_every_row (v1 : list (list T1)) (v2 : list (list T2)) :
  zip_rows init1 init2 v1 v2
  = if ((length v1 =? length v2)%nat
        && forallb (fun '(a, b) => (length a =? length b)%nat) (combine v1 v2))%bool
    then Return (map (fun '(a, b) => combine a b) (combine v1 v2))
    else AssertionFailed.
Proof.
  unfold zip_rows. destruct (length v1 =? length v2)%nat eqn:E; [|reflexivity].
  apply Nat.eqb_eq in E. cbn [assert bind andb].
  exact (zip_rows_loop v1 v2 v1 [] v2 [] [] (repeat [] (length v1))
           eq_refl eq_refl eq_refl eq_refl (repeat_length _ _) (eq_sym E)).
Qed.
End ZipProofs.

Lemma zip_unzip_round_trip_witness :
  zip 0%nat false (fst (unzip [(1%nat, true); (2%nat, false)]))
      (snd (unzip [(1%nat, true); (2%nat, false)]))
  = Return [(1%nat, true); (2%nat, false)] /\
  exists r, zip 0%nat false [1%nat; 2%nat] [true; false] = Return r /\
            unzip r = ([1%nat; 2%nat], [true; false]).
Proof.
  destruct (zip_unzip_round_trip 0%nat false [(1%nat, true); (2%nat, false)]
              [1%nat; 2%nat] [true; false]) as [Hback Hforth].
  split; [exact Hback|]. apply Hforth. reflexivity.
Defined.

(** ** [clamp] *)

Lemma clamp_closed (v lo hi : Z) :
  clamp v lo hi
  = if (hi <? lo)%Z then AssertionFailed else Return (Z.max lo (Z.min v hi)).
Proof.
  unfold clamp, clamp_comp.
  destruct (hi <? lo)%Z eqn:Ehl; cbn [negb assert bind]; [reflexivity|].
  apply Z.ltb_ge in Ehl.
  destruct (v <? lo)%Z eqn:Evl; [apply Z.ltb_lt in Evl | apply Z.ltb_ge in Evl].
  - f_equal. lia.
  - destruct (hi <? v)%Z eqn:Ehv; [apply Z.ltb_lt in Ehv | apply Z.ltb_ge in Ehv];
      f_equal; lia.
Qed.

(** X13.  [clamp(v, lo, hi)] fails its assertion when [hi < lo]; otherwise
    it returns [max(lo, min(v, hi))]: a value between [lo] and [hi], which
    is [v] itself when [v] is between them. *)
Theorem clamp_is_max_min (v lo hi : Z) :
  clamp v lo hi
  = (if (hi <? lo)%Z then AssertionFailed else Return (Z.max lo (Z.min v hi))) /\
  ((lo <= hi)%Z ->
   exists r, clamp v lo hi = Return r /\ (lo <= r <= hi)%Z /\
             ((lo <= v <= hi)%Z -> r = v)).
Proof.
  split; [apply clamp_closed|].
  intros Hle. exists (Z.max lo (Z.min v hi)). rewrite clamp_closed.
  destruct (hi <? lo)%Z eqn:Ehl; [apply Z.ltb_lt in Ehl; lia|].
  split; [reflexivity|]. split; lia.
Qed.

Lemma clamp_is_max_min_witness :
  exists r, clamp 7 0 5 = Return r /\ (0 <= r <= 5)%Z /\ ((0 <= 7 <= 5)%Z -> r = 7%Z).
Proof.
  destruct (clamp_is_max_min 7 0 5) as [_ H]. apply H. lia.
Defined.

(** ** [to_string] *)

Lemma string_of_list_ascii_app (l1 l2 : list Ascii.ascii) :
  string_of_list_ascii (l1 ++ l2)
  = (string_of_list_ascii l1 ++ string_of_list_ascii l2)%string.
Proof.
  induction l1 as [|c l1 IH]; simpl; [reflexivity|]. now rewrite IH.
Qed.

Lemma list_ascii_of_string_append (s1 s2 : string) :
  list_ascii_of_string (s1 ++ s2)%string
  = list_ascii_of_string s1 ++ list_ascii_of_string s2.
Proof.
  induction s1 as [|c s1 IH]; simpl; [reflexivity|]. now rewrite IH.
Qed.

Lemma ss_put_at_end (buf : list Ascii.ascii) (s : string) :
  ss_put (mkStream buf (length buf) false) s
  = mkStream (buf ++ list_ascii_of_string s)
             (length (buf ++ list_ascii_of_string s)) false.
Proof.
  unfold ss_put. cbn [ss_fail ss_pos ss_buf].
  rewrite firstn_all, skipn_all2 by lia. now rewrite app_nil_r, length_app.
Qed.

Section ToString.
Context {T : Type}.
Variable show : T -> string.

Lemma to_string_loop (v : list T) :
  forall buf,
    fold_left (fun ss x => ss_put (ss_put ss (show x)) ",") v
              (mkStream buf (length buf) false)
    = mkStream
        (buf ++ concat (map (fun x => list_ascii_of_string (show x)
                                      ++ list_ascii_of_string ",") v))
        (length (buf ++ concat (map (fun x => list_ascii_of_string (show x)
                                              ++ list_ascii_of_string ",") v)))
        false.
Proof.
  induction v as [|x v IH]; intros buf; cbn [fold_left map concat].
  - now rewrite app_nil_r.
  - rewrite !ss_put_at_end, IH, <- !app_assoc. reflexivity.
Qed.

Lemma joined_chars (x : T) (v : list T) :
  concat (map (fun x => list_ascii_of_string (show x) ++ list_ascii_of_string ",")
              (x :: v))
  = list_ascii_of_string (String.concat "," (map show (x :: v)))
    ++ list_ascii_of_string ",".
Proof.
  revert x; induction v as [|y v IH]; intros x.
  - cbn [map concat String.concat]. now rewrite app_nil_r.
  - change (map show (x :: y :: v)) with (show x :: map show (y :: v)).
    change (String.concat "," (show x :: map show (y :: v)))
      with (show x ++ "," ++ String.concat "," (map show (y :: v)))%string.
    rewrite !list_ascii_of_string_append.
    change (concat (map (fun x => list_ascii_of_string (show x)
                                  ++ list_ascii_of_string ",") (x :: y :: v)))
      with ((list_ascii_of_string (show x) ++ list_ascii_of_string ",")
            ++ concat (map (fun x => list_ascii_of_string (show x)
                                     ++ list_ascii_of_string ",") (y :: v))).
    rewrite IH, <- !app_assoc. reflexivity.
Qed.

Lemma overwrite_last (body : list Ascii.ascii) (c d : Ascii.ascii) (s : string) :
  str (ss_put (seekp (mkStream (body ++ [c]) (length (body ++ [c])) false)
                     (tellp (mkStream (body ++ [c]) (length (body ++ [c])) false) - 1))
              (String d s))
  = (string_of_list_ascii body ++ String d s)%string.
Proof.
  unfold tellp, seekp. cbn [ss_fail ss_buf ss_pos].
  rewrite length_app. cbn [length].
  assert (Hin : ((0 <=? Z.of_nat (length body + 1) - 1)
                 && (Z.of_nat (length body + 1) - 1 <=? Z.of_nat (length body + 1)))%Z
                = true).
  { apply andb_true_iff. split; apply Z.leb_le; lia. }
  rewrite Hin.
  replace (Z.to_nat (Z.of_nat (length body + 1) - 1)) with (length body) by lia.
  unfold ss_put, str. cbn [ss_fail ss_buf ss_pos].
  rewrite firstn_app, firstn_all, Nat.sub_diag. cbn [firstn]. rewrite app_nil_r.
  rewrite skipn_all2
    by (rewrite length_app; cbn [list_ascii_of_string length]; lia).
  rewrite app_nil_r, string_of_list_ascii_app, string_of_list_ascii_of_string.
  reflexivity.
Qed.

(** X14.  [to_string] of a vector that is not empty is the elements
    separated by commas between brackets, the comma after the last element
    being overwritten by the closing bracket; on the empty vector the
    closing bracket overwrites the opening one, and the result is the one
    character [[]]]. *)
Theorem to_string_brackets (v : list T) :
  to_string show [] = "]"%string /\
  (v <> [] ->
   to_string show v = ("[" ++ String.concat "," (map show v) ++ "]")%string).
Proof.
  split; [reflexivity|].
  intros Hv. destruct v as [|x v]; [congruence|].
  unfold to_string.
  change (ss_put ss_new "[") with (mkStream (list_ascii_of_string "[")
                                      (length (list_ascii_of_string "[")) false).
  rewrite to_string_loop, joined_chars, app_assoc.
  change (list_ascii_of_string ",") with [Ascii.Ascii false false true true false true false false].
  rewrite overwrite_last, string_of_list_ascii_app, !string_of_list_ascii_of_string.
  reflexivity.
Qed.
End ToString.

Lemma to_string_brackets_witness :
  to_string (fun b : bool => if b then "1" else "0")%string [true; false; true]
  = "[1,0,1]"%string.
Proof.
  destruct (to_string_brackets (fun b : bool => if b then "1" else "0")%string
              [true; false; true]) as [_ H].
  rewrite H; [reflexivity | discriminate].
Defined.

(** ** What [is_probability_dist] accepts *)

Section ProbabilityDist.
Context {T : Type} `{PrecOps T}.

Lemma is_probability_dist_loop_spec (rest : list T) :
  forall sum : T,
    is_probability_dist_loop sum rest = true
    <-> Forall (fun x => p_ltb x p_zero = false) rest /\
        p_ltb (p_abs (p_sub (fold_left p_add rest sum) p_one)) p_EPSILON = true.
Proof.
  induction rest as [|x rest IH]; intros sum; cbn [is_probability_dist_loop fold_left].
  - split; [intros Hs; split; [constructor | exact Hs] | intros [_ Hs]; exact Hs].
  - destruct (p_ltb x p_zero) eqn:Ex.
    + split; [discriminate|]. intros [Hall _].
      inversion Hall as [|? ? Hx _]; subst. congruence.
    + rewrite IH. split.
      * intros [Hall Hs]. split; [constructor; assumption | exact Hs].
      * intros [Hall Hs]. inversion Hall; subst. split; assumption.
Qed.

(** X15.  [is_probability_dist] accepts exactly the vectors that are not
    empty, none of whose entries after the first compares below zero, and
    whose entries, added from left to right in the arithmetic of [prec_t],
    give a sum [s] with [abs(s - 1.0) < EPSILON].  The first entry is added
    to the sum without a look at its sign.  The comparisons and the sum are
    those of the type: in binary64 every addition rounds and a NaN compares
    below nothing. *)
Theorem is_probability_dist_accepts_exactly (v : list T) :
  is_probability_dist v = true
  <-> exists first rest,
        v = first :: rest /\
        Forall (fun x => p_ltb x p_zero = false) rest /\
        p_ltb (p_abs (p_sub (fold_left p_add rest first) p_one)) p_EPSILON = true.
Proof.
  destruct v as [|first rest].
  - split; [discriminate | intros (f & r & E & _); discriminate].
  - cbn [is_probability_dist]. rewrite is_probability_dist_loop_spec.
    split.
    + intros [Hall Hs]. exists first, rest. split; [reflexivity|].
      split; [exact Hall | exact Hs].
    + intros (f & r & [= <- <-] & Hall & Hs). split; [exact Hall | exact Hs].
Qed.
End ProbabilityDist.

(* ================================================================== *)
(** * More on the two operations of srect_gurobi.hpp *)
(* ================================================================== *)

Lemma code_objective_kappa (pbar : numvecvec) (kappa : Q) (v : list Q) :
  code_objective pbar kappa v
  == code_objective pbar 0 v - kappa * val v (col_lambda pbar).
Proof. unfold code_objective. ring. Qed.

Lemma l1_feasible_parts (z pbar : numvecvec) (kappa : Q) (w : numvecvec)
    (pe : numvec) (v : list Q) :
  feasible (l1_lp z pbar kappa w pe) v ->
  bounds_ok 0 pbar v /\
  all_actions (fun a i row => all_states (fun s i _ => P_holds 0 z pbar v a s i) 0 i row)
              0 0 pbar.
Proof.
  intros Hv. apply l1_feasible_iff in Hv. destruct Hv as (Hb & _ & Hloops).
  split; [exact Hb|].
  rewrite all_actions_iff in *. intros a Ha. specialize (Hloops a Ha).
  rewrite all_states_iff in *. intros s Hs. now apply Hloops.
Qed.

Lemma linf_feasible_parts (z pbar : numvecvec) (kappa : Q) (v : list Q) :
  feasible (linf_lp z pbar kappa) v ->
  bounds_ok 0 pbar v /\
  all_actions (fun a i row => all_states (fun s i _ => P_holds 0 z pbar v a s i) 0 i row)
              0 0 pbar.
Proof.
  intros Hv. apply linf_feasible_iff in Hv. destruct Hv as (Hb & Hloops & _).
  split; [exact Hb|].
  rewrite all_actions_iff in *. intros a Ha. now apply Hloops.
Qed.

(** X16.  With an optimal solution from the solver, the policy returned by
    the L1 operation without [policy_eval] and by the L-infinity operation
    has one entry per action, no entry is negative and the entries sum
    to 1. *)
Theorem returned_policy_is_distribution (optimize : GRBModel -> GRBSolution)
    (z pbar : numvecvec) (kappa : Q) (w : numvecvec) :
  shapes_ok z pbar w ->
  (grb_optimal (l1_lp z pbar kappa w []) (optimize (l1_lp z pbar kappa w [])) ->
   exists o policy budgets,
     srect_l1_solve_gurobi optimize z pbar kappa w [] = Return (o, policy, budgets) /\
     length policy = length pbar /\ is_distribution policy) /\
  (grb_optimal (linf_lp z pbar kappa) (optimize (linf_lp z pbar kappa)) ->
   exists o policy budgets,
     srect_linf_solve_gurobi optimize z pbar kappa w = Return (o, policy, budgets) /\
     length policy = length pbar /\ is_distribution policy).
Proof.
  intros Hs. split; intros Hopt.
  - destruct (srect_l1_solve_optimal optimize z pbar kappa w [] Hs (or_introl eq_refl) Hopt)
      as (x & pi & o & _ & _ & Hoc & Hr).
    do 3 eexists. split; [exact Hr|]. split; [apply policy_of_length|].
    assert (Hx : feasible (l1_lp z pbar kappa w []) x) by apply Hoc.
    apply l1_feasible_iff in Hx. cbn [is_empty] in Hx.
    destruct Hx as (Hb & Hn & _). now apply policy_of_distribution.
  - destruct (srect_linf_solve_optimal optimize z pbar kappa w Hs Hopt)
      as (x & pi & o & _ & _ & Hoc & Hr).
    do 3 eexists. split; [exact Hr|]. split; [apply policy_of_length|].
    assert (Hx : feasible (linf_lp z pbar kappa) x) by apply Hoc.
    apply linf_feasible_iff in Hx.
    destruct Hx as (Hb & _ & Hn). now apply policy_of_distribution.
Qed.

Lemma returned_policy_is_distribution_witness :
  (exists o policy budgets,
     srect_l1_solve_gurobi scenario_solver z_scn pbar_scn 1 [] []
     = Return (o, policy, budgets) /\
     length policy = length pbar_scn /\ is_distribution policy) /\
  (exists o policy budgets,
     srect_linf_solve_gurobi scenario_solver z_scn pbar_scn 1 []
     = Return (o, policy, budgets) /\
     length policy = length pbar_scn /\ is_distribution policy).
Proof.
  destruct (returned_policy_is_distribution scenario_solver z_scn pbar_scn 1 []
              (proj1 scenario_shapes)) as [H1 H2].
  split; [apply H1 | apply H2]; apply scenario_solver_optimal.
Defined.

(** The objective of an optimal solution is at most the nominal value of
    its policy. *)
Lemma optimum_at_most_nominal (m : GRBModel) (z pbar : numvecvec) (kappa : Q)
    (x pi : list Q) (o : Q) :
  objective m = srect_objective pbar kappa ->
  Forall is_distribution pbar -> 0 <= kappa ->
  (bounds_ok 0 pbar x /\
   all_actions (fun a i row => all_states (fun s i _ => P_holds 0 z pbar x a s i) 0 i row)
               0 0 pbar) ->
  optimality_conditions m x pi o ->
  o <= policy_value z pbar (policy_of pbar x).
Proof.
  intros Hobj Hrows Hk [Hb HP] Hoc.
  assert (Ho := oc_objval _ _ _ _ Hoc).
  rewrite Hobj, eval_srect_objective, code_objective_kappa in Ho.
  assert (Hub := objective_upper_bound z pbar x (rows_distributions pbar Hrows) HP).
  destruct (bounds_ok_nonneg 0 pbar x Hb) as (Hl & _).
  assert (0 <= kappa * val x (col_lambda pbar))
    by (apply Qmult_le_0_compat; lra).
  lra.
Qed.

(** X17.  For a budget that is not negative and rows of [pbar] that are
    distributions, the objective that either operation returns is at most
    the nominal value [sum_a policy_a * (z[a] . pbar[a])] of the policy it
    returns with it: the robust value never exceeds the nominal one. *)
Theorem objective_at_most_nominal_value (optimize : GRBModel -> GRBSolution)
    (z pbar : numvecvec) (kappa : Q) (w : numvecvec) (policy_eval : list float) :
  shapes_ok z pbar w -> policy_eval_ok z policy_eval ->
  Forall is_distribution pbar -> 0 <= kappa ->
  (grb_optimal (l1_lp z pbar kappa w (double_values policy_eval))
               (optimize (l1_lp z pbar kappa w (double_values policy_eval))) ->
   exists o policy budgets,
     srect_l1_solve_gurobi optimize z pbar kappa w policy_eval
     = Return (o, policy, budgets) /\
     o <= policy_value z pbar policy) /\
  (grb_optimal (linf_lp z pbar kappa) (optimize (linf_lp z pbar kappa)) ->
   exists o policy budgets,
     srect_linf_solve_gurobi optimize z pbar kappa w = Return (o, policy, budgets) /\
     o <= policy_value z pbar policy).
Proof.
  intros Hs Hpe Hrows Hk. split; intros Hopt.
  - destruct (srect_l1_solve_optimal optimize z pbar kappa w policy_eval Hs Hpe Hopt)
      as (x & pi & o & _ & _ & Hoc & Hr).
    do 3 eexists. split; [exact Hr|].
    apply (optimum_at_most_nominal (l1_lp z pbar kappa w (double_values policy_eval))
             z pbar kappa x pi o);
      try assumption; [reflexivity|].
    apply (l1_feasible_parts z pbar kappa w (double_values policy_eval)). apply Hoc.
  - destruct (srect_linf_solve_optimal optimize z pbar kappa w Hs Hopt)
      as (x & pi & o & _ & _ & Hoc & Hr).
    do 3 eexists. split; [exact Hr|].
    apply (optimum_at_most_nominal (linf_lp z pbar kappa) z pbar kappa x pi o);
      try assumption; [reflexivity|].
    apply (linf_feasible_parts z pbar kappa). apply Hoc.
Qed.

Lemma objective_at_most_nominal_value_witness :
  (exists o policy budgets,
     srect_l1_solve_gurobi scenario_solver z_scn pbar_scn 1 [] []
     = Return (o, policy, budgets) /\
     o <= policy_value z_scn pbar_scn policy) /\
  (exists o policy budgets,
     srect_linf_solve_gurobi scenario_solver z_scn pbar_scn 1 []
     = Return (o, policy, budgets) /\
     o <= policy_value z_scn pbar_scn policy).
Proof.
  destruct (objective_at_most_nominal_value scenario_solver z_scn pbar_scn 1 [] []
              (proj1 scenario_shapes) (proj2 scenario_shapes) scenario_rows)
    as [H1 H2]; [unfold Qle; simpl; lia|].
  split; [apply H1 | apply H2]; apply scenario_solver_optimal.
Defined.

(** An optimal point of the L-infinity program is feasible for the L1
    program when no weight is below 1. *)
Lemma linf_point_l1_feasible (z pbar : numvecvec) (kappa : Q) (w : numvecvec)
    (v : list Q) :
  (forall a s, (a < length pbar)%nat -> (s < length (nth a pbar []))%nat ->
               1 <= weight_of w a s) ->
  feasible (linf_lp z pbar kappa) v -> feasible (l1_lp z pbar kappa w []) v.
Proof.
  intros Hw Hv. apply linf_feasible_iff in Hv. destruct Hv as (Hb & Hloops & Hn).
  apply l1_feasible_iff. cbn [is_empty]. split; [exact Hb|]. split; [exact Hn|].
  destruct (bounds_ok_nonneg 0 pbar v Hb) as (Hl & Hy & _).
  rewrite all_actions_iff in *. intros a Ha. specialize (Hloops a Ha).
  cbn [Nat.add] in *. destruct Hloops as [HP Hth].
  rewrite all_states_iff in *. intros s Hs. split; [now apply HP|].
  cbn [Nat.add]. unfold psi_holds. unfold theta_holds in Hth.
  rewrite sum_states_range in Hth.
  assert (Hoff := offset_bound pbar a Ha).
  assert (Hterm := sum_range_term 0 (length (nth a pbar [])) s
            (fun k => val v (col_yp pbar (offset pbar a + k))
                      + val v (col_yn pbar (offset pbar a + k)))).
  cbv beta in Hterm.
  assert (Hle : val v (col_yp pbar (offset pbar a + s))
                + val v (col_yn pbar (offset pbar a + s))
                <= sum_range 0 (length (nth a pbar []))
                     (fun k => val v (col_yp pbar (offset pbar a + k))
                               + val v (col_yn pbar (offset pbar a + k)))).
  { apply Hterm; [|lia]. intros k Hk.
    destruct (Hy (offset pbar a + k)%nat ltac:(lia)) as [H1 H2]. lra. }
  specialize (Hw a s Ha Hs).
  assert (val v (col_lambda pbar) * 1 <= val v (col_lambda pbar) * weight_of w a s).
  { rewrite !(Qmult_comm (val v (col_lambda pbar))).
    apply Qmult_le_compat_r; lra. }
  lra.
Qed.

(** X18.  On one input with no weight below 1 (as without [w]) the
    objective of the L-infinity operation is at most the objective of the
    L1 operation. *)
Theorem linf_objective_at_most_l1 (optimize : GRBModel -> GRBSolution)
    (z pbar : numvecvec) (kappa : Q) (w : numvecvec) :
  shapes_ok z pbar w ->
  (forall a s, (a < length pbar)%nat -> (s < length (nth a pbar []))%nat ->
               1 <= weight_of w a s) ->
  grb_optimal (l1_lp z pbar kappa w []) (optimize (l1_lp z pbar kappa w [])) ->
  grb_optimal (linf_lp z pbar kappa) (optimize (linf_lp z pbar kappa)) ->
  exists o1 policy1 budgets1 oinf policyinf budgetsinf,
    srect_l1_solve_gurobi optimize z pbar kappa w [] = Return (o1, policy1, budgets1) /\
    srect_linf_solve_gurobi optimize z pbar kappa w
    = Return (oinf, policyinf, budgetsinf) /\
    oinf <= o1.
Proof.
  intros Hs Hw H1 Hinf.
  destruct (srect_l1_solve_optimal optimize z pbar kappa w [] Hs (or_introl eq_refl) H1)
    as (x1 & pi1 & o1 & _ & _ & Hoc1 & Hr1).
  destruct (srect_linf_solve_optimal optimize z pbar kappa w Hs Hinf)
    as (xi & pii & oi & _ & _ & Hoci & Hri).
  do 6 eexists. split; [exact Hr1|]. split; [exact Hri|].
  assert (Hfi : feasible (linf_lp z pbar kappa) xi) by apply Hoci.
  assert (Hmax := optimal_is_maximal (l1_lp z pbar kappa w []) x1 pi1 o1 xi
                    (l1_lp_wf z pbar w kappa []) Hoc1
                    (linf_point_l1_feasible z pbar kappa w xi Hw Hfi)).
  assert (Ho := oc_objval _ _ _ _ Hoci).
  change (objective (l1_lp z pbar kappa w [])) with (srect_objective pbar kappa) in Hmax.
  change (objective (linf_lp z pbar kappa)) with (srect_objective pbar kappa) in Ho.
  lra.
Qed.

Lemma linf_objective_at_most_l1_witness :
  exists o1 policy1 budgets1 oinf policyinf budgetsinf,
    srect_l1_solve_gurobi scenario_solver z_scn pbar_scn 1 [] []
    = Return (o1, policy1, budgets1) /\
    srect_linf_solve_gurobi scenario_solver z_scn pbar_scn 1 []
    = Return (oinf, policyinf, budgetsinf) /\
    oinf <= o1.
Proof.
  apply (linf_objective_at_most_l1 scenario_solver z_scn pbar_scn 1 []).
  - exact (proj1 scenario_shapes).
  - intros a s _ _. unfold weight_of. simpl. unfold Qle. simpl. lia.
  - apply scenario_solver_optimal.
  - apply scenario_solver_optimal.
Defined.

(** X19.  The L-infinity operation never reads the weights: a [w] that
    passes the assertion on its size gives the result of the call without
    [w], whatever it holds; one that does not pass ends the call. *)
Theorem linf_never_reads_weights (optimize : GRBModel -> GRBSolution)
    (z pbar : numvecvec) (kappa : Q) (w : numvecvec) :
  srect_linf_solve_gurobi optimize z pbar kappa w
  = if (is_empty w || (length w =? length z)%nat)%bool
    then srect_linf_solve_gurobi optimize z pbar kappa []
    else AssertionFailed.
Proof.
  unfold srect_linf_solve_gurobi, srect_linf_model.
  destruct (length pbar =? length z)%nat; cbn [assert bind].
  - destruct (is_empty w || (length w =? length z)%nat)%bool; reflexivity.
  - destruct (is_empty w || (length w =? length z)%nat)%bool; reflexivity.
Qed.

(** X20.  Whatever the solver reports besides its status, the L1 operation
    throws [invalid_argument] with the message of the source as soon as the
    status is not [GRB_OPTIMAL]: no objective, policy or budgets come
    back. *)
Theorem l1_throws_on_every_other_status (optimize : GRBModel -> GRBSolution)
    (z pbar : numvecvec) (kappa : Q) (w : numvecvec) (policy_eval : list float) :
  shapes_ok z pbar w -> policy_eval_ok z policy_eval ->
  Status (optimize (l1_lp z pbar kappa w (double_values policy_eval))) <> GRB_OPTIMAL ->
  srect_l1_solve_gurobi optimize z pbar kappa w policy_eval
  = Throw (invalid_argument "Failed to solve the LP.").
Proof.
  intros Hs Hpe Hst. now apply srect_l1_throws_unless_optimal.
Qed.

Lemma l1_throws_on_every_other_status_witness :
  srect_l1_solve_gurobi (fun m => with_status GRB_UNBOUNDED (scenario_solver m))
                        z_scn pbar_scn 1 [] []
  = Throw (invalid_argument "Failed to solve the LP.").
Proof.
  apply (l1_throws_on_every_other_status
           (fun m => with_status GRB_UNBOUNDED (scenario_solver m))
           z_scn pbar_scn 1 [] []).
  - exact (proj1 scenario_shapes).
  - exact (proj2 scenario_shapes).
  - discriminate.
Defined.

(** ** The weights *)

Lemma l1_state_rows_weights (z w w' : numvecvec) (vs : srect_vars) (a : nat)
    (row0 : numvec) :
  forall s i,
    (forall k, (k < length row0)%nat -> weight_of w a (s + k) = weight_of w' a (s + k)) ->
    l1_state_rows z w vs a s i row0 = l1_state_rows z w' vs a s i row0.
Proof.
  induction row0 as [|p row0 IH]; intros s i Hw; cbn [l1_state_rows].
  - reflexivity.
  - assert (E : weight_of w a s = weight_of w' a s).
    { specialize (Hw 0%nat ltac:(simpl; lia)). now rewrite Nat.add_0_r in Hw. }
    unfold psi_row. rewrite E.
    do 2 f_equal. apply IH. intros k Hk.
    specialize (Hw (S k) ltac:(simpl; lia)).
    now replace (s + S k)%nat with (S s + k)%nat in Hw by lia.
Qed.

Lemma l1_action_rows_weights (z w w' : numvecvec) (vs : srect_vars)
    (rows : numvecvec) :
  forall a i,
    (forall k s, (k < length rows)%nat -> (s < length (nth k rows []))%nat ->
                 weight_of w (a + k) s = weight_of w' (a + k) s) ->
    l1_action_rows z w vs a i rows = l1_action_rows z w' vs a i rows.
Proof.
  induction rows as [|r rows IH]; intros a i Hw; cbn [l1_action_rows].
  - reflexivity.
  - f_equal.
    + apply l1_state_rows_weights. intros k Hk.
      specialize (Hw 0%nat k ltac:(simpl; lia) Hk). now rewrite Nat.add_0_r in Hw.
    + apply IH. intros k s Hk Hs.
      specialize (Hw (S k) s ltac:(simpl; lia) Hs).
      now replace (a + S k)%nat with (S a + k)%nat in Hw by lia.
Qed.

Lemma weight_of_ones (pbar : numvecvec) (a s : nat) :
  (a < length pbar)%nat -> (s < length (nth a pbar []))%nat ->
  weight_of (map (map (fun _ => 1)) pbar) a s = 1.
Proof.
  intros Ha Hs. unfold weight_of. rewrite length_map.
  assert (Hp : (0 <? length pbar)%nat = true) by (apply Nat.ltb_lt; lia).
  rewrite Hp.
  assert (E1 := map_nth (map (fun _ : Q => 1)) pbar [] a). cbn [map] in E1.
  rewrite E1.
  rewrite (nth_indep (map (fun _ : Q => 1) (nth a pbar [])) 0 1)
    by (rewrite length_map; exact Hs).
  assert (E2 := map_nth (fun _ : Q => 1) (nth a pbar []) 0 s). cbv beta in E2.
  exact E2.
Qed.

Lemma covers_ones (pbar : numvecvec) : covers pbar (map (map (fun _ => 1)) pbar).
Proof.
  unfold covers. induction pbar as [|r pbar IH]; cbn [map]; constructor.
  - rewrite length_map. lia.
  - exact IH.
Qed.

(** X21.  Leaving [w] out is the same as passing weights that are all 1
    in the shape of [pbar]: the L1 operation builds the same program and
    ends the same way. *)
Theorem l1_default_weights_are_ones (optimize : GRBModel -> GRBSolution)
    (z pbar : numvecvec) (kappa : Q) (policy_eval : list float) :
  covers pbar z -> policy_eval_ok z policy_eval ->
  l1_lp z pbar kappa (map (map (fun _ => 1)) pbar) (double_values policy_eval)
  = l1_lp z pbar kappa [] (double_values policy_eval) /\
  srect_l1_solve_gurobi optimize z pbar kappa (map (map (fun _ => 1)) pbar) policy_eval
  = srect_l1_solve_gurobi optimize z pbar kappa [] policy_eval.
Proof.
  intros Hz Hpe.
  assert (Hm : l1_lp z pbar kappa (map (map (fun _ => 1)) pbar) (double_values policy_eval)
               = l1_lp z pbar kappa [] (double_values policy_eval)).
  { unfold l1_lp. do 2 f_equal. apply l1_action_rows_weights.
    intros k s Hk Hs. cbn [Nat.add]. now rewrite weight_of_ones. }
  split; [exact Hm|].
  unfold srect_l1_solve_gurobi.
  rewrite (srect_l1_model_closed z pbar kappa [] policy_eval)
    by (try split; auto).
  rewrite (srect_l1_model_closed z pbar kappa (map (map (fun _ => 1)) pbar) policy_eval)
    by (try split; auto using covers_ones).
  now rewrite Hm.
Qed.

Lemma l1_default_weights_are_ones_witness :
  srect_l1_solve_gurobi scenario_solver z_scn pbar_scn 1 [[1; 1]; [1; 1]] []
  = srect_l1_solve_gurobi scenario_solver z_scn pbar_scn 1 [] [].
Proof.
  exact (proj2 (l1_default_weights_are_ones scenario_solver z_scn pbar_scn 1 []
                  (proj1 (proj1 scenario_shapes)) (proj2 scenario_shapes))).
Defined.

(** ** The budgets of the L-infinity operation *)

Section LambdaColumnLinf.
Variables (z pbar : numvecvec).

Lemma z_dual_terms_lambda (row0 : numvec) :
  forall i, (i + length row0 <= nstateactions pbar)%nat ->
            coef (z_dual_terms (layout pbar) i row0) (col_lambda pbar) == 0.
Proof.
  destruct (layout_cols pbar) as (Hx & Hyp & Hyn & Hl & Hd).
  induction row0 as [|p row0 IH]; intros i Hi; cbn [z_dual_terms length] in *.
  - reflexivity.
  - fold (col_yp pbar i) (col_yn pbar i).
    rewrite (Hyp i), (Hyn i), Hl by lia.
    rewrite !coef_cons_ne by lia. rewrite <- Hl. apply IH. lia.
Qed.

Lemma theta_row_lambda (i : nat) (row0 : numvec) :
  (i + length row0 <= nstateactions pbar)%nat ->
  coef (row (theta_row (layout pbar) i row0)) (col_lambda pbar) == - (1).
Proof.
  intros Hi. unfold theta_row, mk_row, theta_constr.
  cbn [row t_lhs t_rhs tc_le le_terms le_sub le_add le_scale le_var le_neg_var
       le_dbl map app fst snd].
  fold (col_lambda pbar). rewrite coef_cons_eq, app_nil_r.
  rewrite z_dual_terms_lambda by exact Hi. simpl. ring.
Qed.

Lemma linf_state_rows_price (a : nat) (row0 : numvec) :
  forall s i pi,
    (a < length pbar)%nat -> (i + length row0 <= nstateactions pbar)%nat ->
    col_price (linf_state_rows z (layout pbar) a s i row0) pi (col_lambda pbar) == 0.
Proof.
  induction row0 as [|p row0 IH]; intros s i pi Ha Hi;
    cbn [linf_state_rows length] in *.
  - destruct pi; reflexivity.
  - destruct pi as [|p1 pi]; [reflexivity|]. cbn [col_price].
    rewrite P_row_lambda by lia. rewrite (IH (S s) (S i)) by lia. ring.
Qed.

Lemma linf_state_rows_length (a : nat) (row0 : numvec) :
  forall s i, length (linf_state_rows z (layout pbar) a s i row0) = length row0.
Proof.
  induction row0 as [|p row0 IH]; intros s i; simpl; [reflexivity|]. now rewrite IH.
Qed.

Lemma linf_state_rows_no_theta (a : nat) (row0 : numvec) :
  forall s i pi, pick_named "theta" (linf_state_rows z (layout pbar) a s i row0) pi = [].
Proof.
  induction row0 as [|p row0 IH]; intros s i pi; cbn [linf_state_rows].
  - destruct pi; reflexivity.
  - destruct pi as [|p1 pi]; [reflexivity|]. cbn [pick_named].
    change (String.eqb (ConstrName (P_row z (layout pbar) a s i)) "theta") with false.
    cbv iota. apply IH.
Qed.

Lemma linf_action_rows_length (rows : numvecvec) :
  forall a i,
    length (linf_action_rows z (layout pbar) a i rows)
    = (fold_left Nat.add (map (@length Q) rows) 0 + length rows)%nat.
Proof.
  induction rows as [|r rows IH]; intros a i; cbn [linf_action_rows map fold_left length].
  - reflexivity.
  - rewrite !length_app, linf_state_rows_length, IH,
      (fold_left_add_shift _ (0 + length r)).
    simpl. lia.
Qed.

Lemma linf_action_rows_price (rows : numvecvec) :
  forall a i pi,
    (a + length rows <= length pbar)%nat ->
    (i + fold_left Nat.add (map (@length Q) rows) 0 <= nstateactions pbar)%nat ->
    (fold_left Nat.add (map (@length Q) rows) 0 + length rows <= length pi)%nat ->
    col_price (linf_action_rows z (layout pbar) a i rows) pi (col_lambda pbar)
    == - sumQ (pick_named "theta" (linf_action_rows z (layout pbar) a i rows) pi).
Proof.
  induction rows as [|r rows IH]; intros a i pi Ha Hi Hpi;
    cbn [linf_action_rows length map fold_left] in *.
  - destruct pi; simpl; lra.
  - rewrite fold_left_add_shift in Hi, Hpi. cbn [Nat.add] in Hi, Hpi.
    rewrite col_price_app, pick_named_app, linf_state_rows_length.
    rewrite linf_state_rows_price, linf_state_rows_no_theta by lia.
    cbn [app].
    destruct (skipn (length r) pi) as [|p1 rest] eqn:Esk.
    { assert (Hl := length_skipn (length r) pi). rewrite Esk in Hl. simpl in Hl. lia. }
    assert (Hrest : (fold_left Nat.add (map (@length Q) rows) 0 + length rows
                     <= length rest)%nat).
    { assert (Hl := length_skipn (length r) pi). rewrite Esk in Hl. simpl in Hl. lia. }
    cbn [app col_price pick_named].
    change (String.eqb (ConstrName (theta_row (layout pbar) i r)) "theta") with true.
    cbv iota. change (sumQ (p1 :: ?l)) with (p1 + sumQ l).
    rewrite theta_row_lambda by lia.
    rewrite (IH (S a) (i + length r)%nat rest) by lia.
    change (sumQ (p1 :: pick_named "theta"
                    (linf_action_rows z (layout pbar) (S a) (i + length r) rows) rest))
      with (p1 + sumQ (pick_named "theta"
                    (linf_action_rows z (layout pbar) (S a) (i + length r) rows) rest)).
    ring.
Qed.

(** The reduced cost of [lambda] in the L-infinity program is the sum of the
    dual values of the rows "theta" minus [kappa]. *)
Lemma linf_lp_reduced_cost_lambda (kappa : Q) (pi : list Q) :
  length pi = length (constrs (linf_lp z pbar kappa)) ->
  reduced_cost (linf_lp z pbar kappa) pi (col_lambda pbar)
  == sumQ (duals_named "theta" (constrs (linf_lp z pbar kappa)) pi) - kappa.
Proof.
  intros Hpi. unfold reduced_cost.
  rewrite duals_named_pick by lia.
  unfold linf_lp in *. cbn [objective constrs] in *.
  rewrite length_app, linf_action_rows_length in Hpi. cbn [length] in Hpi.
  rewrite objective_lambda, col_price_app, pick_named_app.
  rewrite linf_action_rows_price.
  - rewrite linf_action_rows_length.
    destruct (skipn (fold_left Nat.add (map (@length Q) pbar) 0%nat + length pbar)%nat pi)
      as [|p1 rest] eqn:Esk.
    { assert (Hl := length_skipn
                      (fold_left Nat.add (map (@length Q) pbar) 0%nat + length pbar)%nat pi).
      rewrite Esk in Hl. simpl in Hl. lia. }
    destruct rest; cbn [col_price pick_named];
      change (String.eqb (ConstrName (ones_row pbar (layout pbar) "policy")) "theta")
        with false;
      cbv iota; rewrite ones_row_lambda, app_nil_r; ring.
  - simpl. lia.
  - simpl. unfold nstateactions, statecounts. lia.
  - lia.
Qed.
End LambdaColumnLinf.

(** X22.  With an optimal solution from the solver, the budgets that the
    L-infinity operation returns (the dual values of the rows "theta", one
    per action) sum to at most [kappa], and to [kappa] when [lambda] is
    positive at the optimum. *)
Theorem linf_budgets_within_kappa (optimize : GRBModel -> GRBSolution)
    (z pbar : numvecvec) (kappa : Q) (w : numvecvec) :
  shapes_ok z pbar w ->
  grb_optimal (linf_lp z pbar kappa) (optimize (linf_lp z pbar kappa)) ->
  exists o policy budgets x,
    srect_linf_solve_gurobi optimize z pbar kappa w = Return (o, policy, budgets) /\
    X (optimize (linf_lp z pbar kappa)) = Some x /\
    length budgets = length pbar /\
    sumQ budgets <= kappa /\
    (0 < val x (col_lambda pbar) -> sumQ budgets == kappa).
Proof.
  intros Hs Hopt.
  destruct (srect_linf_solve_optimal optimize z pbar kappa w Hs Hopt)
    as (x & pi & o & HX & _ & Hoc & Hr).
  set (m := linf_lp z pbar kappa) in *.
  exists o, (policy_of pbar x), (duals_named "theta" (constrs m) pi), x.
  split; [exact Hr|]. split; [exact HX|].
  split; [unfold duals_named; rewrite length_map; apply linf_lp_theta_count|].
  assert (Hlpi : length pi = length (constrs m)).
  { destruct Hoc as [_ _ Hsg _ _ _]. symmetry. exact (Forall2_length Hsg). }
  assert (Hrc := linf_lp_reduced_cost_lambda z pbar kappa pi Hlpi). fold m in Hrc.
  destruct (layout_cols pbar) as (_ & _ & _ & Hl & _).
  assert (HlN : (col_lambda pbar < length (var_infos pbar))%nat)
    by (rewrite Hl, var_infos_length; lia).
  assert (Hc := rc_compl_all_nth m pi x (vars m) 0 (col_lambda pbar) free_var
                  (oc_rc _ _ _ _ Hoc) HlN).
  cbn [Nat.add] in Hc. change (vars m) with (var_infos pbar) in Hc.
  destruct (var_infos_nth pbar _ HlN) as [_ Hnn].
  destruct (Hnn ltac:(rewrite Hl; lia)) as [HLB HUB].
  destruct Hc as [Hpos Hneg]. rewrite HUB in Hpos. rewrite HLB in Hneg.
  set (rc := reduced_cost m pi (col_lambda pbar)) in *.
  assert (Hrc0 : rc <= 0).
  { destruct (Qlt_le_dec 0 rc) as [Hp|Hp]; [destruct (Hpos Hp) | exact Hp]. }
  split; [lra|].
  intros Hlam. destruct (Qlt_le_dec rc 0) as [Hn|Hn].
  - specialize (Hneg Hn). lra.
  - lra.
Qed.

Lemma linf_budgets_within_kappa_witness :
  exists o policy budgets x,
    srect_linf_solve_gurobi scenario_solver z_scn pbar_scn 1 []
    = Return (o, policy, budgets) /\
    X (scenario_solver (linf_lp z_scn pbar_scn 1)) = Some x /\
    length budgets = length pbar_scn /\
    sumQ budgets <= 1 /\
    (0 < val x (col_lambda pbar_scn) -> sumQ budgets == 1).
Proof.
  apply (linf_budgets_within_kappa scenario_solver z_scn pbar_scn 1 []).
  - exact (proj1 scenario_shapes).
  - apply scenario_solver_optimal.
Defined.

(** ** The value with a pinned policy at [kappa = 0] *)

Lemma policy_value_ext (z pbar : numvecvec) (d d' : numvec) :
  (forall a, (a < length pbar)%nat -> nth a d 0 == nth a d' 0) ->
  policy_value z pbar d == policy_value z pbar d'.
Proof.
  intros Hd. unfold policy_value. apply sum_range_ext. intros a Ha.
  rewrite (Hd a) by lia. reflexivity.
Qed.

Lemma att_point_l1_pinned_feasible (z pbar w : numvecvec) (pe : numvec) (kappa : Q) :
  length pe = length pbar -> pe <> [] ->
  (forall a, (a < length pbar)%nat -> 0 <= nth a pe 0) ->
  weights_positive w pbar ->
  feasible (l1_lp z pbar kappa w pe) (att_point_l1 z pbar w pe).
Proof.
  intros Hlen Hne Hnn Hw. apply l1_feasible_iff.
  assert (He : is_empty pe = false) by (destruct pe; [congruence | reflexivity]).
  rewrite He. split; [|split].
  - apply assemble_bounds.
    + intros; apply att_yp_nonneg.
    + intros; apply att_yn_nonneg.
    + now apply att_lambda_l1_nonneg.
    + exact Hnn.
  - unfold pinned. apply all_states_iff. intros k Hk. cbn [Nat.add].
    unfold att_point_l1. rewrite assemble_d by lia. split; lra.
  - assert (HP := att_P_holds z pbar pe Hlen (att_point_l1 z pbar w pe) _ eq_refl).
    assert (Hpsi := att_psi_holds z pbar w pe Hlen Hw).
    rewrite all_actions_iff in *. intros a Ha.
    specialize (HP a Ha). specialize (Hpsi a Ha).
    rewrite all_states_iff in *. intros s Hs. split; [now apply HP | now apply Hpsi].
Qed.

(** X23.  With [policy_eval] supplied, [kappa = 0], rows of [pbar] that are
    distributions and positive weights, the objective that the L1 operation
    returns is the nominal value of that policy,
    [sum_a policy_eval[a] * (z[a] . pbar[a])]. *)
Theorem pinned_zero_budget_is_policy_value (optimize : GRBModel -> GRBSolution)
    (z pbar w : numvecvec) (policy_eval : list float) :
  shapes_ok z pbar w ->
  length policy_eval = length z -> is_probability_dist policy_eval = true ->
  Forall is_distribution pbar -> weights_positive w pbar ->
  grb_optimal (l1_lp z pbar 0 w (double_values policy_eval))
              (optimize (l1_lp z pbar 0 w (double_values policy_eval))) ->
  exists o policy budgets,
    srect_l1_solve_gurobi optimize z pbar 0 w policy_eval = Return (o, policy, budgets) /\
    o == policy_value z pbar (double_values policy_eval).
Proof.
  intros Hs Hl Hp Hrows Hw Hopt.
  destruct (srect_l1_solve_optimal optimize z pbar 0 w policy_eval Hs
              (or_intror (conj Hl Hp)) Hopt) as (x & pi & o & _ & _ & Hoc & Hr).
  do 3 eexists. split; [exact Hr|].
  assert (Hne : double_values policy_eval <> [])
    by (destruct policy_eval; [discriminate Hp | discriminate]).
  assert (Hlen : length (double_values policy_eval) = length pbar).
  { unfold double_values. rewrite length_map, (covers_length _ _ (proj1 Hs)).
    exact Hl. }
  revert Hoc Hne Hlen. generalize (double_values policy_eval). intros pe Hoc Hne Hlen.
  assert (Hx : feasible (l1_lp z pbar 0 w pe) x) by apply Hoc.
  assert (Hparts := l1_feasible_parts z pbar 0 w pe x Hx).
  apply l1_feasible_iff in Hx.
  assert (He : is_empty pe = false)
    by (destruct pe; [congruence | reflexivity]).
  rewrite He in Hx. destruct Hx as (Hb & Hpin & _).
  unfold pinned in Hpin. rewrite all_states_iff in Hpin. cbn [Nat.add] in Hpin.
  assert (Heq : forall a, (a < length pbar)%nat ->
                          val x (col_d pbar a) == nth a pe 0).
  { intros a Ha. destruct (Hpin a ltac:(lia)) as [H1 H2]. apply Qle_antisym; lra. }
  assert (Hnn : forall a, (a < length pbar)%nat -> 0 <= nth a pe 0).
  { intros a Ha. destruct (bounds_ok_nonneg 0 pbar x Hb) as (_ & _ & Hd).
    specialize (Hd a Ha). rewrite <- (Heq a Ha). lra. }
  apply Qle_antisym.
  - assert (Hub := optimum_at_most_nominal (l1_lp z pbar 0 w pe) z pbar 0
                     x pi o eq_refl Hrows (Qle_refl 0) Hparts Hoc).
    rewrite (policy_value_ext z pbar (policy_of pbar x) pe) in Hub; [exact Hub|].
    intros a Ha. rewrite policy_of_nth by exact Ha. now apply Heq.
  - assert (Hmax := optimal_is_maximal (l1_lp z pbar 0 w pe) x pi o
                      (att_point_l1 z pbar w pe)
                      (l1_lp_wf z pbar w 0 pe) Hoc
                      (att_point_l1_pinned_feasible z pbar w pe 0
                         Hlen Hne Hnn Hw)).
    change (objective (l1_lp z pbar 0 w pe)) with (srect_objective pbar 0) in Hmax.
    rewrite eval_srect_objective in Hmax.
    assert (Eo := att_objective z pbar pe Hlen (rows_distributions pbar Hrows)
                    (att_point_l1 z pbar w pe) _ eq_refl).
    lra.
Qed.

Lemma sol_l1_pinned_optimal :
  grb_optimal (l1_lp z_scn pbar_scn 0 [] [1 # 2; 1 # 2]) sol_l1_pinned.
Proof.
  split; [reflexivity|]. do 3 eexists.
  do 3 (split; [reflexivity|]).
  apply optimality_check_sound. vm_compute. reflexivity.
Qed.

Lemma pinned_zero_budget_is_policy_value_witness :
  exists o policy budgets,
    srect_l1_solve_gurobi (fun _ => sol_l1_pinned) z_scn pbar_scn 0 []
                          [0.5%float; 0.5%float]
    = Return (o, policy, budgets) /\
    o == policy_value z_scn pbar_scn (double_values [0.5%float; 0.5%float]).
Proof.
  apply (pinned_zero_budget_is_policy_value (fun _ => sol_l1_pinned)
           z_scn pbar_scn [] [0.5%float; 0.5%float]).
  - exact (proj1 scenario_shapes).
  - reflexivity.
  - vm_compute. reflexivity.
  - exact scenario_rows.
  - intros a s _ _. reflexivity.
  - exact sol_l1_pinned_optimal.
Defined.

(** ** A lower bound: the worst return of one action *)

Section SingleAction.
Variables (z pbar : numvecvec) (a : nat) (m : Q).
Hypothesis Ha : (a < length pbar)%nat.
Hypothesis Hm : forall s, (s < length (nth a pbar []))%nat -> m <= zval z a s.






End SingleAction.



(* ================================================================== *)
(** * The population simulator *)
(* ================================================================== *)

Section PopulationProofs.
Context {T : Type} `{PrecOps T} `{PrecArith T} `{PrecConv T}.
Variable engine : Type.
Variable normal : T -> T -> engine -> T * engine.
Variable binomial : Z -> T -> engine -> Z * engine.

Lemma long_result_inv (n : Z) (o : outcome Z) :
  long_result n = o -> o = Return n \/ o = OutOfRange.
Proof. unfold long_result. destruct (in_long n); intros <-; auto. Qed.

Lemma to_long_inv (x : T) :
  (exists n, to_long x = Return n) \/ to_long x = OutOfRange.
Proof. unfold to_long. destruct (p_to_long x); eauto. Qed.

Lemma clamp_call_Return (build : clamp_build) (n capacity next : Z) :
  clamp_call build n 0 capacity = Return next -> clamped build capacity next.
Proof.
  destruct build as [|std_clamp]; cbn [clamp_call clamped].
  - rewrite clamp_closed. destruct (capacity <? 0)%Z eqn:E; [discriminate|].
    apply Z.ltb_ge in E. intros [= <-]. lia.
  - intros [= <-] Hspec Hcap. rewrite (Hspec n 0%Z capacity Hcap).
    destruct (n <? 0)%Z eqn:E1; [lia|]. apply Z.ltb_ge in E1.
    destruct (capacity <? n)%Z eqn:E2; [lia|]. apply Z.ltb_ge in E2. lia.
Qed.

Lemma clamp_call_AssertionFailed (build : clamp_build) (n capacity : Z) :
  clamp_call build n 0 capacity = AssertionFailed ->
  build = craam_clamp /\ (capacity < 0)%Z.
Proof.
  destruct build as [|std_clamp]; cbn [clamp_call]; [|discriminate].
  rewrite clamp_closed. destruct (capacity <? 0)%Z eqn:E; [|discriminate].
  apply Z.ltb_lt in E. intros _. split; [reflexivity | exact E].
Qed.

Lemma clamp_call_Throw (build : clamp_build) (n capacity : Z) (e : exn) :
  clamp_call build n 0 capacity <> Throw e.
Proof.
  destruct build as [|std_clamp]; cbn [clamp_call]; [|discriminate].
  rewrite clamp_closed. destruct (capacity <? 0)%Z; discriminate.
Qed.

(** [grow] ends as its call of [clamp] does, unless it ends before. *)
Lemma grow_steps (build : clamp_build) (sim : PopulationSim engine)
    (growth_rate : T) (cur : Z) :
  grow build sim growth_rate cur = OutOfRange \/
  (growth_model sim = Growth_unlisted /\
   grow build sim growth_rate cur
   = Throw (invalid_argument "Unsupported population model.")) \/
  exists n, grow build sim growth_rate cur
            = clamp_call build n 0 (carrying_capacity sim).
Proof.
  unfold grow. destruct (growth_model sim).
  - destruct (to_long_inv (p_mul growth_rate (p_of_Z cur))) as [[n ->]| ->];
      cbn [bind]; [|left; reflexivity].
    right. right. exists n. reflexivity.
  - destruct (long_result_inv _ _ eq_refl
                : long_result (carrying_capacity sim - cur) = Return _
                  \/ long_result (carrying_capacity sim - cur) = OutOfRange)
      as [-> | ->]; cbn [bind]; [|left; reflexivity].
    destruct (carrying_capacity sim =? 0)%Z; [left; reflexivity|].
    match goal with |- context [to_long ?x] =>
      destruct (to_long_inv x) as [[n ->]| ->] end; cbn [bind];
      [|left; reflexivity].
    right. right. exists n. reflexivity.
  - right. left. split; reflexivity.
Qed.

Lemma grow_Return (build : clamp_build) (sim : PopulationSim engine)
    (growth_rate : T) (cur next : Z) :
  grow build sim growth_rate cur = Return next ->
  clamped build (carrying_capacity sim) next.
Proof.
  destruct (grow_steps build sim growth_rate cur) as [E | [[_ E] | [n E]]];
    rewrite E; try discriminate.
  apply clamp_call_Return.
Qed.

Lemma grow_AssertionFailed (build : clamp_build) (sim : PopulationSim engine)
    (growth_rate : T) (cur : Z) :
  grow build sim growth_rate cur = AssertionFailed ->
  build = craam_clamp /\ (carrying_capacity sim < 0)%Z.
Proof.
  destruct (grow_steps build sim growth_rate cur) as [E | [[_ E] | [n E]]];
    rewrite E; try discriminate.
  apply clamp_call_AssertionFailed.
Qed.

Lemma grow_Throw (build : clamp_build) (sim : PopulationSim engine)
    (growth_rate : T) (cur : Z) (e : exn) :
  grow build sim growth_rate cur = Throw e ->
  growth_model sim = Growth_unlisted /\
  e = invalid_argument "Unsupported population model.".
Proof.
  destruct (grow_steps build sim growth_rate cur) as [E | [[Hg E] | [n E]]];
    rewrite E; try discriminate.
  - intros [= <-]. split; [exact Hg | reflexivity].
  - intros Hf. now apply clamp_call_Throw in Hf.
Qed.

(** What a call of [transition] that does not stop at its first assertion
    or at the excess over [n_hat] goes through. *)
Lemma transition_steps (build : clamp_build) (sim : PopulationSim engine)
    (cur action : Z) :
  (0 <= cur)%Z ->
  transition normal build sim cur action = OutOfRange \/
  exists growth_rate g1,
    transition normal build sim cur action
    = (next_population <- grow build sim growth_rate cur ;;
       let '(observation, g2) :=
         normal (p_of_Z next_population) (std_observation sim) g1 in
       observed <- to_long observation ;;
       damage <- long_result (next_population * (-1)) ;;
       cost <- long_result (action * (-4000)) ;;
       reward <- long_result (damage + cost) ;;
       Return (p_of_Z reward, Z.max 0 observed, g2)).
Proof.
  intros Hcur. unfold transition.
  assert (E : (0 <=? cur)%Z = true) by (apply Z.leb_le; exact Hcur).
  rewrite E. cbn [assert bind].
  destruct (long_result_inv _ _ eq_refl
              : long_result (cur - n_hat sim) = Return _
                \/ long_result (cur - n_hat sim) = OutOfRange) as [-> | ->];
    cbn [bind]; [|left; reflexivity].
  right.
  match goal with |- context [normal ?m ?s ?g] => destruct (normal m s g) as [gr g1] end.
  exists gr, g1. reflexivity.
Qed.

Lemma transition_Return (build : clamp_build) (sim : PopulationSim engine)
    (cur action : Z) (reward : T) (observed : Z) (g : engine) :
  transition normal build sim cur action = Return (reward, observed, g) ->
  (0 <= cur)%Z /\ (0 <= observed)%Z /\
  exists growth_rate next,
    grow build sim growth_rate cur = Return next /\
    clamped build (carrying_capacity sim) next /\
    reward = p_of_Z (next * (-1) + action * (-4000)).
Proof.
  intros Hr.
  assert (Hcur : (0 <= cur)%Z).
  { destruct (Z.leb_spec 0 cur) as [Hle|Hlt]; [exact Hle|].
    unfold transition in Hr.
    assert (E : (0 <=? cur)%Z = false) by (apply Z.leb_gt; exact Hlt).
    rewrite E in Hr. discriminate. }
  split; [exact Hcur|].
  destruct (transition_steps build sim cur action Hcur) as [E | (gr & g1 & E)];
    rewrite E in Hr; [discriminate|].
  destruct (grow build sim gr cur) as [next| | |] eqn:Eg; cbn [bind] in Hr;
    try discriminate.
  assert (Hnext := grow_Return build sim gr cur next Eg).
  destruct (normal (p_of_Z next) (std_observation sim) g1) as [obs g2].
  destruct (to_long_inv obs) as [[n En]| En]; rewrite En in Hr; cbn [bind] in Hr;
    [|discriminate].
  destruct (long_result_inv _ _ eq_refl
              : long_result (next * (-1)) = Return _
                \/ long_result (next * (-1)) = OutOfRange) as [E1 | E1];
    rewrite E1 in Hr; cbn [bind] in Hr; [|discriminate].
  destruct (long_result_inv _ _ eq_refl
              : long_result (action * (-4000)) = Return _
                \/ long_result (action * (-4000)) = OutOfRange) as [E2 | E2];
    rewrite E2 in Hr; cbn [bind] in Hr; [|discriminate].
  destruct (long_result_inv _ _ eq_refl
              : long_result (next * (-1) + action * (-4000)) = Return _
                \/ long_result (next * (-1) + action * (-4000)) = OutOfRange)
    as [E3 | E3];
    rewrite E3 in Hr; cbn [bind] in Hr; [|discriminate].
  injection Hr as <- <- <-. split; [lia|].
  exists gr, next. split; [exact Eg|]. split; [exact Hnext | reflexivity].
Qed.

Lemma transition_AssertionFailed (build : clamp_build) (sim : PopulationSim engine)
    (cur action : Z) :
  transition normal build sim cur action = AssertionFailed ->
  (cur < 0)%Z \/ (build = craam_clamp /\ (carrying_capacity sim < 0)%Z).
Proof.
  intros Hr. destruct (Z.leb_spec 0 cur) as [Hcur|Hlt]; [|left; exact Hlt].
  right.
  destruct (transition_steps build sim cur action Hcur) as [E | (gr & g1 & E)];
    rewrite E in Hr; [discriminate|].
  destruct (grow build sim gr cur) as [next| | |] eqn:Eg; cbn [bind] in Hr;
    try discriminate.
  - destruct (normal (p_of_Z next) (std_observation sim) g1) as [obs g2].
    destruct (to_long_inv obs) as [[n En]| En]; rewrite En in Hr; cbn [bind] in Hr;
      [|discriminate].
    destruct (long_result (next * (-1))) as [d| | |] eqn:E1; cbn [bind] in Hr;
      try discriminate;
      try (destruct (long_result_inv _ _ E1); discriminate).
    destruct (long_result (action * (-4000))) as [c| | |] eqn:E2; cbn [bind] in Hr;
      try discriminate;
      try (destruct (long_result_inv _ _ E2); discriminate).
    destruct (long_result (d + c)) as [r| | |] eqn:E3; cbn [bind] in Hr;
      try discriminate;
      try (destruct (long_result_inv _ _ E3); discriminate).
  - now apply grow_AssertionFailed in Eg.
Qed.

Lemma transition_Throw (build : clamp_build) (sim : PopulationSim engine)
    (cur action : Z) (e : exn) :
  transition normal build sim cur action = Throw e ->
  growth_model sim = Growth_unlisted /\
  e = invalid_argument "Unsupported population model.".
Proof.
  intros Hr. destruct (Z.leb_spec 0 cur) as [Hcur|Hlt].
  2:{ unfold transition in Hr.
      assert (E : (0 <=? cur)%Z = false) by (apply Z.leb_gt; exact Hlt).
      rewrite E in Hr. discriminate. }
  destruct (transition_steps build sim cur action Hcur) as [E | (gr & g1 & E)];
    rewrite E in Hr; [discriminate|].
  destruct (grow build sim gr cur) as [next| | |] eqn:Eg; cbn [bind] in Hr;
    try discriminate.
  - destruct (normal (p_of_Z next) (std_observation sim) g1) as [obs g2].
    destruct (to_long_inv obs) as [[n En]| En]; rewrite En in Hr; cbn [bind] in Hr;
      [|discriminate].
    destruct (long_result (next * (-1))) as [d| | |] eqn:E1; cbn [bind] in Hr;
      try discriminate;
      try (destruct (long_result_inv _ _ E1); discriminate).
    destruct (long_result (action * (-4000))) as [c| | |] eqn:E2; cbn [bind] in Hr;
      try discriminate;
      try (destruct (long_result_inv _ _ E2); discriminate).
    destruct (long_result (d + c)) as [r| | |] eqn:E3; cbn [bind] in Hr;
      try discriminate;
      try (destruct (long_result_inv _ _ E3); discriminate).
  - injection Hr as <-. now apply grow_Throw in Eg.
Qed.

(** X25.  When [transition] returns, the population it reports is not
    negative and the reward is minus the population after the growth (what
    [grow] returned for some growth rate) minus 4000 times the action, the
    action taken as a number.  That population lies between 0 and the
    carrying capacity (which then is not negative) in a build that calls
    craam's [clamp]; in a build that calls the library's [clamp] it does so
    when the carrying capacity is not negative, the case for which the
    standard fixes the result of [std::clamp]. *)
Theorem transition_result_in_range (build : clamp_build)
    (sim : PopulationSim engine) (cur action : Z)
    (reward : T) (observed : Z) (g : engine) :
  transition normal build sim cur action = Return (reward, observed, g) ->
  (0 <= observed)%Z /\
  exists growth_rate next,
    grow build sim growth_rate cur = Return next /\
    reward = p_of_Z (next * (-1) + action * (-4000)) /\
    match build with
    | craam_clamp =>
        (0 <= carrying_capacity sim)%Z /\ (0 <= next <= carrying_capacity sim)%Z
    | library_clamp std_clamp =>
        std_clamp_spec std_clamp -> (0 <= carrying_capacity sim)%Z ->
        (0 <= next <= carrying_capacity sim)%Z
    end.
Proof.
  intros Hr.
  destruct (transition_Return build sim cur action reward observed g Hr)
    as (_ & Hobs & gr & next & Hgrow & Hnext & Hrew).
  split; [exact Hobs|].
  exists gr, next. split; [exact Hgrow|]. split; [exact Hrew|].
  destruct build as [|std_clamp]; cbn [clamped] in Hnext.
  - split; [lia | exact Hnext].
  - exact Hnext.
Qed.

(** X26.  [transition] fails an assertion on every negative population.
    On the others it fails none in a build that calls the library's
    [clamp]; in a build that calls craam's [clamp] it can fail one, and only
    under a negative carrying capacity.  The one exception it throws is
    [invalid_argument], with the message of the source, and only for a
    growth model that is no enumerator. *)
Theorem transition_failures (build : clamp_build) (sim : PopulationSim engine)
    (cur action : Z) :
  ((cur < 0)%Z -> transition normal build sim cur action = AssertionFailed) /\
  (transition normal build sim cur action = AssertionFailed ->
   (cur < 0)%Z \/ (build = craam_clamp /\ (carrying_capacity sim < 0)%Z)) /\
  (forall e, transition normal build sim cur action = Throw e ->
             growth_model sim = Growth_unlisted /\
             e = invalid_argument "Unsupported population model.").
Proof.
  split; [|split].
  - intros Hlt. unfold transition.
    assert (E : (0 <=? cur)%Z = false) by (apply Z.leb_gt; exact Hlt).
    now rewrite E.
  - apply transition_AssertionFailed.
  - intros e. apply transition_Throw.
Qed.

(** X27.  The population that [transition] returns can be fed to the next
    call: after one call that returned, no later call on the populations
    returned fails an assertion, whatever the actions and the samples. *)
Theorem transition_chain (build : clamp_build) (sim : PopulationSim engine)
    (cur action : Z) (reward : T) (observed : Z) (g : engine) (action' : Z) :
  transition normal build sim cur action = Return (reward, observed, g) ->
  transition normal build (set_gen sim g) observed action' <> AssertionFailed.
Proof.
  intros Hr Hf. apply transition_Return in Hr.
  destruct Hr as (_ & Hobs & gr & next & _ & Hnext & _).
  apply transition_AssertionFailed in Hf. cbn [set_gen carrying_capacity] in Hf.
  destruct Hf as [Hf | [-> Hf]]; [lia|].
  cbn [clamped] in Hnext. lia.
Qed.

(** X29.  A simulator as the constructor makes it, or set by [set_growth]
    to one of the two enumerators, throws no exception from [transition]. *)
Theorem listed_growth_never_throws (build : clamp_build)
    (sim : PopulationSim engine) (model : Growth)
    (initial capacity : Z) (mean sd_growth sd_obs b1 b2 : T) (nhat : Z)
    (seed : engine) (cur action : Z) (e : exn) :
  transition normal build
             (PopulationSim_new initial capacity mean sd_growth sd_obs
                                b1 b2 nhat seed) cur action <> Throw e /\
  (model <> Growth_unlisted ->
   transition normal build (set_growth sim model) cur action <> Throw e).
Proof.
  split.
  - intros Hf. apply transition_Throw in Hf. destruct Hf as [Hg _]. discriminate Hg.
  - intros Hm Hf. apply transition_Throw in Hf. destruct Hf as [Hg _].
    cbn [set_growth growth_model] in Hg. congruence.
Qed.

(** X28.  Below its threshold the policy returns the action 0 and leaves
    its engine alone; at or above it the call is one draw from the binomial
    distribution of one trial with the probability of control, on the
    engine of the policy, so the action is 0 or 1 when the sampler keeps to
    its one trial. *)
Theorem policy_action (pol : PopulationPol engine) (current_state : Z) :
  ((current_state < threshold_control pol)%Z ->
   PopulationPol_call binomial pol current_state = (0%Z, pol_gen pol)) /\
  ((threshold_control pol <= current_state)%Z ->
   PopulationPol_call binomial pol current_state
   = binomial 1%Z (prob_control pol) (pol_gen pol)) /\
  ((0 <= fst (binomial 1%Z (prob_control pol) (pol_gen pol)) <= 1)%Z ->
   (0 <= fst (PopulationPol_call binomial pol current_state) <= 1)%Z).
Proof.
  unfold PopulationPol_call. split; [|split].
  - intros Hlt. assert (E : (threshold_control pol <=? current_state)%Z = false)
      by (apply Z.leb_gt; exact Hlt).
    now rewrite E.
  - intros Hle. assert (E : (threshold_control pol <=? current_state)%Z = true)
      by (apply Z.leb_le; exact Hle).
    now rewrite E.
  - intros Hb. destruct (threshold_control pol <=? current_state)%Z.
    + exact Hb.
    + simpl. lia.
Qed.
End PopulationProofs.

Lemma min_max_clamp_spec : std_clamp_spec min_max_clamp.
Proof.
  intros v lo hi Hle. unfold min_max_clamp.
  destruct (v <? lo)%Z eqn:E1; [apply Z.ltb_lt in E1 | apply Z.ltb_ge in E1].
  - lia.
  - destruct (hi <? v)%Z eqn:E2; [apply Z.ltb_lt in E2 | apply Z.ltb_ge in E2]; lia.
Qed.

(** The two builds part under a negative carrying capacity: craam's [clamp]
    fails its assertion; with the library's [clamp] (here [min(max(v, lo),
    hi)]) the call returns, with a population after the growth of -5 and so
    a reward of 5. *)
Lemma negative_capacity_by_build :
  transition mean_sampler craam_clamp sim_negative_capacity 10 0 = AssertionFailed /\
  transition mean_sampler (library_clamp min_max_clamp) sim_negative_capacity 10 0
  = Return (5, 0%Z, 2%nat).
Proof. split; vm_compute; reflexivity. Qed.

Lemma transition_result_in_range_witness :
  (transition mean_sampler craam_clamp sim_example 10 1
   = Return (- (4014 # 1), 14%Z, 2%nat) /\
   (0 <= 14)%Z /\
   exists growth_rate next,
     grow craam_clamp sim_example growth_rate 10 = Return next /\
     - (4014 # 1) = inject_Z (next * (-1) + 1 * (-4000)) /\
     (0 <= 100)%Z /\ (0 <= next <= 100)%Z) /\
  (transition mean_sampler (library_clamp min_max_clamp) sim_example 10 1
   = Return (- (4014 # 1), 14%Z, 2%nat) /\
   exists growth_rate next,
     grow (library_clamp min_max_clamp) sim_example growth_rate 10 = Return next /\
     - (4014 # 1) = inject_Z (next * (-1) + 1 * (-4000)) /\
     (0 <= next <= 100)%Z).
Proof.
  assert (E1 : transition mean_sampler craam_clamp sim_example 10 1
               = Return (- (4014 # 1), 14%Z, 2%nat)) by (vm_compute; reflexivity).
  assert (E2 : transition mean_sampler (library_clamp min_max_clamp) sim_example 10 1
               = Return (- (4014 # 1), 14%Z, 2%nat)) by (vm_compute; reflexivity).
  split.
  - split; [exact E1|].
    destruct (transition_result_in_range nat mean_sampler craam_clamp
                sim_example 10 1 _ _ _ E1) as (Hobs & gr & next & Hgrow & Hrew & Hnext).
    split; [exact Hobs|]. exists gr, next.
    split; [exact Hgrow|]. split; [exact Hrew | exact Hnext].
  - split; [exact E2|].
    destruct (transition_result_in_range nat mean_sampler
                (library_clamp min_max_clamp) sim_example 10 1 _ _ _ E2)
      as (_ & gr & next & Hgrow & Hrew & Hnext).
    exists gr, next. split; [exact Hgrow|]. split; [exact Hrew|].
    apply Hnext; [exact min_max_clamp_spec | simpl; lia].
Defined.

Lemma transition_failures_witness :
  transition mean_sampler craam_clamp sim_example (-1) 1 = AssertionFailed /\
  transition mean_sampler (library_clamp min_max_clamp) sim_example (-1) 1
  = AssertionFailed.
Proof.
  split.
  - destruct (transition_failures nat mean_sampler craam_clamp sim_example (-1) 1)
      as [Hneg _].
    apply Hneg. lia.
  - destruct (transition_failures nat mean_sampler (library_clamp min_max_clamp)
                sim_example (-1) 1) as [Hneg _].
    apply Hneg. lia.
Defined.

Lemma transition_chain_witness :
  transition mean_sampler craam_clamp (set_gen sim_example 2%nat) 14 0
  <> AssertionFailed.
Proof.
  apply (transition_chain nat mean_sampler craam_clamp sim_example 10 1
           (- (4014 # 1)) 14 2%nat 0).
  vm_compute. reflexivity.
Defined.

Lemma listed_growth_never_throws_witness :
  transition mean_sampler craam_clamp (set_growth sim_example Logistic) 10 1
  <> Throw (invalid_argument "Unsupported population model.").
Proof.
  destruct (listed_growth_never_throws nat mean_sampler craam_clamp sim_example
              Logistic 10 100 (3 # 2) (1 # 10) 1 (1 # 100) (1 # 1000) 20 0%nat 10 1
              (invalid_argument "Unsupported population model.")) as [_ H].
  apply H. discriminate.
Defined.

Lemma policy_action_witness :
  PopulationPol_call trials_sampler (mkPopulationPol 5 (1 # 2) 0%nat) 3
  = (0%Z, 0%nat) /\
  PopulationPol_call trials_sampler (mkPopulationPol 5 (1 # 2) 0%nat) 7
  = trials_sampler 1 (1 # 2) 0%nat /\
  (0 <= fst (PopulationPol_call trials_sampler
               (mkPopulationPol 5 (1 # 2) 0%nat) 7) <= 1)%Z.
Proof.
  destruct (policy_action nat trials_sampler (mkPopulationPol 5 (1 # 2) 0%nat) 3)
    as [Hlow _].
  destruct (policy_action nat trials_sampler (mkPopulationPol 5 (1 # 2) 0%nat) 7)
    as (_ & Hcall & Hhigh).
  split; [|split].
  - apply Hlow. simpl. lia.
  - apply Hcall. simpl. lia.
  - apply Hhigh. simpl. lia.
Defined.
